(** * CoplanarSketch: plane estimation, placement and sketch synthesis

    A shallow embedding of the FreeCAD macro [CoplanarSketch2.06.py].

    Coordinates are Python floats in the macro.  They are modelled here as
    exact real numbers ([R]), the data model of the specification
    ("Point3: immutable triple of real coordinates"); rounding, overflow
    and NaN are outside the model.  Comparisons of reals are decided by
    [Rlt_dec] and friends, so every definition below is a total function
    that can be evaluated on concrete input by rewriting and [lra].

    The host's [normalize] fails on vectors it takes for null.  The
    length up to which it does so is the parameter [null_length] of every
    definition that normalizes; results that need a bound on it say so. *)

From Stdlib Require Import Reals Lra Lia List Bool Arith Psatz Permutation RNsatz.
Import ListNotations.
Local Open Scope R_scope.

(** ** Exceptions

    Python exceptions are modelled by an error monad.  [NullVector] is the
    host's refusal to normalize a vector it takes for null; [HostError]
    stands for any exception raised by a host call on the sketch object. *)

Inductive Exc : Type :=
| NullVector
| HostError.

Inductive result (A : Type) : Type :=
| Ok (a : A)
| Raise (e : Exc).

Arguments Ok {A} a.
Arguments Raise {A} e.

Definition bind {A B : Type} (c : result A) (k : A -> result B) : result B :=
  match c with
  | Ok a => k a
  | Raise e => Raise e
  end.

Notation "x <- c ;; k" := (bind c (fun x => k))
  (at level 61, c at next level, right associativity).

(** A [for] loop whose body may raise: the first exception leaves the loop. *)
Fixpoint for_each {S E : Type} (body : S -> E -> result S) (l : list E) (s : S)
  : result S :=
  match l with
  | [] => Ok s
  | e :: l' => s' <- body s e ;; for_each body l' s'
  end.

(** Python's [range(a, b)]. *)
Definition range (a b : nat) : list nat := seq a (b - a).

(** ** Comparisons on floats (as reals) *)

Definition ltb (a b : R) : bool := if Rlt_dec a b then true else false.
Definition gtb (a b : R) : bool := ltb b a.

(** ** FreeCAD.Vector *)

(** Modelled from the spec: the host's vector type, "Point3: immutable
    triple of real coordinates" and "Vector3: directional quantity with
    length, dot product, cross product, normalization".  The operations
    below carry the names of the host methods the macro calls. *)
Record Vector : Type := mkVector { x : R; y : R; z : R }.

Definition add (a b : Vector) : Vector :=
  mkVector (x a + x b) (y a + y b) (z a + z b).

Definition sub (a b : Vector) : Vector :=
  mkVector (x a - x b) (y a - y b) (z a - z b).

Definition multiply (a : Vector) (s : R) : Vector :=
  mkVector (x a * s) (y a * s) (z a * s).

Definition dot (a b : Vector) : R :=
  x a * x b + y a * y b + z a * z b.

Definition cross (a b : Vector) : Vector :=
  mkVector (y a * z b - z a * y b)
           (z a * x b - x a * z b)
           (x a * y b - y a * x b).

Definition Length (a : Vector) : R := sqrt (dot a a).

(** Modelled from the spec: normalization "fails ... when length ~ 0;
    callers must guard".  [v.normalize()] scales [v] to unit length and
    returns it; the failure is the exception [NullVector], raised when the
    length of [v] is not above [null_length], the length up to which the
    host takes a vector for null.  How small that length is, is the host's
    matter and a parameter of the model: with [null_length = 0] only the
    null vector itself is refused.  The guards of the macro and of the
    spec compare lengths with 1e-6 ("if its length <= 1e-6, substitute"),
    so the results below that rely on such a guard assume
    [null_length <= 1e-6].  A host's null length is not negative; no
    result needs that, every call being behind a guard [Length v > g]
    with [0 <= g]. *)
Definition normalize (null_length : R) (v : Vector) : result Vector :=
  if gtb (Length v) null_length then Ok (multiply v (/ Length v))
  else Raise NullVector.

(** [sum(vertices, FreeCAD.Vector())] *)
Definition sum (vs : list Vector) : Vector :=
  fold_left add vs (mkVector 0 0 0).

(** ** is_close (line 10) *)

Definition is_close (p1 p2 : Vector) (tol : R) : bool :=
  ltb (Length (sub p1 p2)) tol.

(** Default tolerance of [is_close]. *)
Definition default_tol : R := 1e-4.

(** ** The collector object

    Only the field read by the plane estimator is kept: the mass centre
    of the collected edges, [(0,0,0)] until [collect_data] has run. *)

Record EdgeDataCollector : Type := mkCollector {
  edge_mass_center : Vector
}.

(** ** calculate_robust_plane_normal_and_placement (lines 117-140) *)

(** Indices visited by the three nested [for] loops, in loop order. *)
Definition index_triples (len : nat) : list (nat * nat * nat) :=
  flat_map (fun i =>
    flat_map (fun j =>
      map (fun k => (i, j, k)) (range (j + 1) len))
      (range (i + 1) len))
    (range 0 len).

Definition at_index (vectors : list Vector) (i : nat) : Vector :=
  nth i vectors (mkVector 0 0 0).

(** [n = (vectors[j] - vectors[i]).cross(vectors[k] - vectors[i])] *)
Definition triple_cross (vectors : list Vector) (ijk : nat * nat * nat)
  : Vector :=
  let '(i, j, k) := ijk in
  cross (sub (at_index vectors j) (at_index vectors i))
        (sub (at_index vectors k) (at_index vectors i)).

(** Loop state: [(best_normal, best_magnitude)]. *)
Definition best : Type := (option Vector * R)%type.

Definition triple_body (null_length : R) (vectors : list Vector) (st : best)
  (ijk : nat * nat * nat) : result best :=
  let n := triple_cross vectors ijk in
  if gtb (Length n) (snd st) then
    n' <- normalize null_length n ;; Ok (Some n', Length n)
  else Ok st.

Definition best_triple (null_length : R) (vectors : list Vector)
  : result best :=
  for_each (triple_body null_length vectors)
           (index_triples (length vectors)) (None, 0).

(** Arithmetic mean: [sum(vertices, Vector()).multiply(1.0 / len(vertices))] *)
Definition mean (vertices : list Vector) : Vector :=
  multiply (sum vertices) (1 / INR (length vertices)).

(** Lines 136-138: the flip happens when [delta] is longer than [1e-6] and
    its direction has a negative dot product with [best_normal]; [and]
    short-circuits, so [delta] is normalized only in that case. *)
Definition resolve_sign (null_length : R) (self : EdgeDataCollector)
  (center best_normal : Vector) : result Vector :=
  let delta := sub center (edge_mass_center self) in
  if gtb (Length delta) 1e-6 then
    d <- normalize null_length delta ;;
    if ltb (dot d best_normal) 0 then Ok (multiply best_normal (-1))
    else Ok best_normal
  else Ok best_normal.

(** [delta] of line 136, for stating properties of the result. *)
Definition delta_of (self : EdgeDataCollector) (center : Vector) : Vector :=
  sub center (edge_mass_center self).

(** Sum of a list of coordinates. *)
Definition Rsum (l : list R) : R := fold_right Rplus 0 l.

Definition calculate_robust_plane_normal_and_placement
  (null_length : R) (self : EdgeDataCollector) (vertices : list Vector)
  : result (Vector * Vector) :=
  if (length vertices <? 3)%nat then
    Ok (mkVector 0 0 1, mkVector 0 0 0)
  else
    let center := mean vertices in
    let vectors := map (fun v => sub v center) vertices in
    st <- best_triple null_length vectors ;;
    let best_normal :=
      match fst st with
      | Some n => n
      | None => mkVector 0 0 1
      end in
    normal <- resolve_sign null_length self center best_normal ;;
    Ok (normal, center).

(** The first triple, in loop order, whose cross product is not the null
    vector: the first one the loop hands to [normalize], [best_magnitude]
    being 0 until then. *)
Definition first_normalized (vectors : list Vector)
  : option (nat * nat * nat) :=
  find (fun t => gtb (Length (triple_cross vectors t)) 0)
       (index_triples (length vectors)).

(** The host normalizes the first cross product the loop hands to it (or
    the loop hands none). *)
Definition normalizable (null_length : R) (vectors : list Vector) : Prop :=
  match first_normalized vectors with
  | Some t => Length (triple_cross vectors t) > null_length
  | None => True
  end.

(** ** FreeCAD.Rotation and FreeCAD.Placement *)

(** Modelled from the spec: the host's rotation type, "a rotation
    (orthonormal frame)".  It is a 3x3 matrix given by its rows, applied
    by [Rotation_multVec] and inverted by transposition. *)
Record Rotation : Type := mkRotation {
  row1 : Vector;
  row2 : Vector;
  row3 : Vector
}.

Definition Rotation_multVec (r : Rotation) (v : Vector) : Vector :=
  mkVector (dot (row1 r) v) (dot (row2 r) v) (dot (row3 r) v).

Definition Rotation_inverse (r : Rotation) : Rotation :=
  mkRotation (mkVector (x (row1 r)) (x (row2 r)) (x (row3 r)))
             (mkVector (y (row1 r)) (y (row2 r)) (y (row3 r)))
             (mkVector (z (row1 r)) (z (row2 r)) (z (row3 r))).

(** The matrix of a linear map, column by column. *)
Definition matrix_of (f : Vector -> Vector) : Rotation :=
  let c1 := f (mkVector 1 0 0) in
  let c2 := f (mkVector 0 1 0) in
  let c3 := f (mkVector 0 0 1) in
  mkRotation (mkVector (x c1) (x c2) (x c3))
             (mkVector (y c1) (y c2) (y c3))
             (mkVector (z c1) (z c2) (z c3)).

(** The direction of a vector; the host's C++ normalization does not raise. *)
Definition unit (v : Vector) : Vector := multiply v (/ Length v).

(** Modelled from the spec: "identity rotation", [FreeCAD.Rotation()]. *)
Definition Rotation_identity : Rotation :=
  mkRotation (mkVector 1 0 0) (mkVector 0 1 0) (mkVector 0 0 1).

(** Rotation of [v] about the unit axis [k] by [theta] radians. *)
Definition rotate_about (k : Vector) (theta : R) (v : Vector) : Vector :=
  add (add (multiply v (cos theta)) (multiply (cross k v) (sin theta)))
      (multiply k (dot k v * (1 - cos theta))).

(** Modelled from the spec: "a 180 degree rotation about world X" is
    [FreeCAD.Rotation(axis, angle)] with the angle in degrees. *)
Definition Rotation_axis_angle (axis : Vector) (degrees : R) : Rotation :=
  matrix_of (rotate_about (unit axis) (degrees * PI / 180)).

(** Modelled from the spec: "the shortest-arc rotation mapping world Z
    onto normal".  The rotation taking the direction [u] to the direction
    [t] about [u x t] by the angle between them: with [c = u . t] and
    [w = u x t] it is [v |-> c v + w x v + (w . v) / (1 + c) w], a
    rotation unless [u] and [t] are opposite. *)
Definition shortest_arc (u t : Vector) (v : Vector) : Vector :=
  let c := dot u t in
  let w := cross u t in
  add (add (multiply v c) (cross w v)) (multiply w (dot w v / (1 + c))).

(** [FreeCAD.Rotation(from, to)] *)
Definition Rotation_from_to (from to : Vector) : Rotation :=
  matrix_of (shortest_arc (unit from) (unit to)).

(** Modelled from the spec: "Placement: an origin point + a rotation".
    [multVec] rotates and then translates; [inverse] undoes it. *)
Record Placement : Type := mkPlacement {
  Base : Vector;
  Rot : Rotation
}.

(** [FreeCAD.Placement()] *)
Definition Placement_identity : Placement :=
  mkPlacement (mkVector 0 0 0) Rotation_identity.

Definition Placement_multVec (p : Placement) (v : Vector) : Vector :=
  add (Rotation_multVec (Rot p) v) (Base p).

Definition Placement_inverse (p : Placement) : Placement :=
  let r := Rotation_inverse (Rot p) in
  mkPlacement (Rotation_multVec r (multiply (Base p) (-1))) r.

(** ** create_robust_placement (lines 142-149) *)

Definition z_axis : Vector := mkVector 0 0 1.

Definition robust_rotation (normal : Vector) : Rotation :=
  if gtb (Rabs (dot normal z_axis)) 0.999 then
    if gtb (z normal) 0 then Rotation_identity
    else Rotation_axis_angle (mkVector 1 0 0) 180
  else Rotation_from_to z_axis normal.

Definition create_robust_placement (null_length : R)
  (normal center : Vector) : result Placement :=
  normal <- (if gtb (Length normal) 1e-6 then normalize null_length normal
             else Ok (mkVector 0 0 1)) ;;
  Ok (mkPlacement center (robust_rotation normal)).

(** ** Edges, faces and shapes

    An edge reference exposes exactly two end points (the specification's
    EdgeRef): [edge.Vertexes] is the two-element list of them, so
    [Vertexes[0]] is [v_first] and [Vertexes[-1]] is [v_last]. *)

Record Edge : Type := mkEdge {
  v_first : Vector;
  v_last : Vector
}.

Definition Vertexes (e : Edge) : list Vector := [v_first e; v_last e].

(** A face, as far as the macro reads it: [face.Surface.Axis] and
    [face.CenterOfMass]. *)
Record Face : Type := mkFace {
  Surface_Axis : Vector;
  CenterOfMass : Vector
}.

Record Shape : Type := mkShape {
  Edges : list Edge;
  Faces : list Face
}.

(** Sub-element names ["Edge<N>"] and ["Face<N>"], already split into the
    tag and the number [N]. *)
Inductive SubElementName : Type :=
| EdgeName (n : nat)
| FaceName (n : nat).

(** [l[n - 1]] in Python: index [-1] is the last element, an index past the
    end raises IndexError. *)
Definition py_index {A : Type} (l : list A) (n : nat) : option A :=
  match n with
  | O => nth_error (rev l) 0
  | S m => nth_error l m
  end.

(** ** select_coplanar_edges (lines 67-115) *)

Record Plane : Type := mkPlane {
  plane_normal : Vector;
  plane_point : Vector
}.

Inductive PlaneError : Type :=
| NoSelection           (* "Select a face or two edges first." *)
| NoValidPlane          (* "Could not define a valid plane from selected edges." *)
| Colinear              (* "Edges are colinear; cannot define plane." *)
| NeedFaceOrTwoEdges    (* "Select either a face or two edges." *)
| BadIndex.             (* IndexError from the shape's edge or face array *)

Definition edge_numbers (names : list SubElementName) : list nat :=
  flat_map (fun n => match n with EdgeName k => [k] | FaceName _ => [] end)
           names.

Definition face_numbers (names : list SubElementName) : list nat :=
  flat_map (fun n => match n with FaceName k => [k] | EdgeName _ => [] end)
           names.

(** Lines 86-96: the plane through the two ends of the first edge and the
    first end of the second edge that is close to neither. *)
Definition plane_from_edges (e1 e2 : Edge) : Plane + PlaneError :=
  let v1 := v_first e1 in
  let v2 := v_last e1 in
  let v3_candidates :=
    filter (fun p => negb (is_close p v1 default_tol)
                     && negb (is_close p v2 default_tol))
           (Vertexes e2) in
  match v3_candidates with
  | [] => inr NoValidPlane
  | v3 :: _ =>
      let n := cross (sub v2 v1) (sub v3 v1) in
      if ltb (Length n) 1e-6 then inr Colinear
      else inl (mkPlane n v1)
  end.

(** Lines 78-99.  [names] are the sub-element names of the whole
    selection, [shape] the shape of the first selected object. *)
Definition selection_plane (shape : Shape) (names : list SubElementName)
  : Plane + PlaneError :=
  match face_numbers names with
  | f :: _ =>
      match py_index (Faces shape) f with
      | Some face => inl (mkPlane (Surface_Axis face) (CenterOfMass face))
      | None => inr BadIndex
      end
  | [] =>
      match edge_numbers names with
      | n1 :: n2 :: rest =>
          match py_index (Edges shape) n1, py_index (Edges shape) n2 with
          | Some e1, Some e2 =>
              if forallb (fun n => match py_index (Edges shape) n with
                                   | Some _ => true
                                   | None => false
                                   end) rest
              then plane_from_edges e1 e2
              else inr BadIndex
          | _, _ => inr BadIndex
          end
      | _ => inr NeedFaceOrTwoEdges
      end
  end.

(** The plane-membership test of the specification, at a tolerance:
    [|dot(point - planePoint, normal)| < membershipTolerance]. *)
Definition on_plane (pl : Plane) (tol : R) (pt : Vector) : Prop :=
  Rabs (dot (sub pt (plane_point pl)) (plane_normal pl)) < tol.

(** The fixed tolerance of the plane-membership test (line 103). *)
Definition membership_tol : R := 0.001.

(** Lines 101-103. *)
Definition is_coplanar (pl : Plane) (edge : Edge) : bool :=
  let v1 := v_first edge in
  let v2 := v_last edge in
  forallb (fun pt =>
             ltb (Rabs (dot (sub pt (plane_point pl)) (plane_normal pl)))
                 membership_tol)
          [v1; v2].

(** Line 105: [[edge for edge in obj.Shape.Edges if is_coplanar(edge)]] *)
Definition coplanar_edges (edges : list Edge) (pl : Plane) : list Edge :=
  filter (is_coplanar pl) edges.

(** The selection is a list of selected objects, each with its sub-element
    names; the shape is that of [selection[0].Object]. *)
Definition select_coplanar_edges (shape : Shape)
  (selection : list (list SubElementName)) : list Edge + PlaneError :=
  match selection with
  | [] => inr NoSelection
  | _ =>
      match selection_plane shape (concat selection) with
      | inl pl => inl (coplanar_edges (Edges shape) pl)
      | inr e => inr e
      end
  end.

(** ** The sketch object *)

(** Modelled from the spec: the host's sketch object "exposes
    add-line-segment(local endpoints) -> segment index;
    mark-construction(segment index); add-constraint(kind, operands) ->
    constraint index, where kind is Block or Coincident;
    set-constraint-hidden(index); resolved global transform".  Indices are
    positions in the geometry and constraint lists. *)
Inductive Constraint : Type :=
| Block (geo : nat)
| Coincident (first_geo first_id next_geo next_id : nat).

Record LineSegment : Type := mkLineSegment {
  StartPoint : Vector;
  EndPoint : Vector
}.

Record SketchObject : Type := mkSketch {
  GlobalPlacement : Placement;
  (* line segments with their construction flag *)
  Geometry : list (LineSegment * bool);
  (* constraints with their virtual-space (hidden) flag *)
  Constraints : list (Constraint * bool)
}.

(** The sketch-placement options offered by the dialog (lines 190-195). *)
Inductive Target : Type :=
| Standalone
| NewBody
| ExistingBody (name : nat).

(** Modelled from the spec: the host may decline a constraint
    ("constraint solvers may reject some coincidences") or a visibility
    request by raising, and resolves the global transform of an attached
    sketch; what it answers is a parameter of the model. *)
Record Host : Type := mkHost {
  accepts : SketchObject -> Constraint -> bool;
  virtual_space_ok : SketchObject -> nat -> bool;
  (* global placement of a sketch attached to a body's XY plane with the
     given attachment offset *)
  attached_global : Target -> Placement -> Placement
}.

Definition getGlobalPlacement (sk : SketchObject) : Placement :=
  GlobalPlacement sk.

Definition addGeometry (sk : SketchObject) (seg : LineSegment)
  (construction : bool) : SketchObject * nat :=
  (mkSketch (GlobalPlacement sk) (Geometry sk ++ [(seg, construction)])
            (Constraints sk),
   length (Geometry sk)).

Fixpoint set_flag {A : Type} (l : list (A * bool)) (idx : nat) (b : bool)
  : list (A * bool) :=
  match l, idx with
  | [], _ => []
  | (a, _) :: l', O => (a, b) :: l'
  | e :: l', S i => e :: set_flag l' i b
  end.

Definition setConstruction (sk : SketchObject) (geo_index : nat) (b : bool)
  : SketchObject :=
  mkSketch (GlobalPlacement sk) (set_flag (Geometry sk) geo_index b)
           (Constraints sk).

Definition addConstraint (host : Host) (sk : SketchObject) (c : Constraint)
  : result (SketchObject * nat) :=
  if accepts host sk c then
    Ok (mkSketch (GlobalPlacement sk) (Geometry sk)
                 (Constraints sk ++ [(c, false)]),
        length (Constraints sk))
  else Raise HostError.

Definition setVirtualSpace (host : Host) (sk : SketchObject) (idx : nat)
  (b : bool) : result SketchObject :=
  if virtual_space_ok host sk idx then
    Ok (mkSketch (GlobalPlacement sk) (Geometry sk)
                 (set_flag (Constraints sk) idx b))
  else Raise HostError.

(** ** vertex_map: an insertion-ordered dict from coordinate triples to
    lists of [(geo_index, vertex_id)] *)

Definition Key : Type := (R * R * R)%type.
Definition Ref : Type := (nat * nat)%type.
Definition VertexMap : Type := list (Key * list Ref).

(** [pt_key = (pt.x, pt.y, pt.z)] *)
Definition key_of (pt : Vector) : Key := (x pt, y pt, z pt).

(** The vector with the coordinates of a key. *)
Definition vector_of (k : Key) : Vector :=
  let '(a, b, c) := k in mkVector a b c.

Definition key_eqb (k1 k2 : Key) : bool :=
  let '(a1, b1, c1) := k1 in
  let '(a2, b2, c2) := k2 in
  (if Req_dec_T a1 a2 then true else false)
  && (if Req_dec_T b1 b2 then true else false)
  && (if Req_dec_T c1 c2 then true else false).

(** [d[k].append(r)] for a key [k] of [d]. *)
Definition dict_append (d : VertexMap) (k : Key) (r : Ref) : VertexMap :=
  map (fun e => if key_eqb (fst e) k then (fst e, snd e ++ [r]) else e) d.

(** [d[k] = v]: replaces the value of an existing key, else appends a new
    entry. *)
Definition dict_set (d : VertexMap) (k : Key) (v : list Ref) : VertexMap :=
  if existsb (fun e => key_eqb (fst e) k) d then
    map (fun e => if key_eqb (fst e) k then (fst e, v) else e) d
  else d ++ [(k, v)].

(** Merge and degenerate-edge tolerance (line 223). *)
Definition tolerance : R := 0.001.

(** Line 241:
    the first key of [vertex_map], in insertion order, whose vector is
    close to [pt] at [tolerance]; [None] when there is none. *)
Definition find_key (vertex_map : VertexMap) (pt : Vector) : option Key :=
  find (fun k => is_close pt (vector_of k) tolerance) (map fst vertex_map).

(** Lines 240-245, for one [(pt, vertex_id)].  A found key is a non-empty
    tuple, hence true in [if found_key:]. *)
Definition register (geo_index : nat) (vertex_map : VertexMap)
  (pv : Vector * nat) : VertexMap :=
  let '(pt, vertex_id) := pv in
  let pt_key := key_of pt in
  match find_key vertex_map pt with
  | Some found_key => dict_append vertex_map found_key (geo_index, vertex_id)
  | None => dict_set vertex_map pt_key [(geo_index, vertex_id)]
  end.

(** ** Messages written to the panel and to the console *)

Inductive Msg : Type :=
| ErrNoDocument                    (* "[Error] No active FreeCAD document." *)
| ErrNoEdges                       (* "[Error] No edges selected." *)
| InfoCancelled                    (* "[Info] Sketch creation cancelled by user." *)
| WarnDegenerate (start_global : Vector)
                                   (* "[Warning] Skipped degenerate edge at ..." *)
| WarnCoincident (pt_key : Key)    (* "[Warning] Failed to add coincident constraint for ..." *)
| WarnVirtualSpace (idx : nat)     (* "[Warning] Constraint index ... visibility could not be set" *)
| ErrFailed (e : Exc)              (* "[Error] Sketch creation failed: ..." *)
| Success                          (* "[Success] Sketch created with transformed geometry." *)
| InfoAdded (coincident_added : nat)
                                   (* "[Info] Added ... coincident constraints." *)
| ErrIncomplete.                   (* "[Error] Sketch creation incomplete or cancelled." *)

(** ** Per-edge emission (lines 221-248) *)

Record Draft : Type := mkDraft {
  final_sketch : SketchObject;
  vertex_map : VertexMap;
  block_constraints : list nat;
  console : list Msg
}.

Definition edge_body (host : Host) (d : Draft) (edge : Edge) : result Draft :=
  let start_global := v_first edge in
  let end_global := v_last edge in
  if is_close start_global end_global tolerance then
    Ok (mkDraft (final_sketch d) (vertex_map d) (block_constraints d)
                (console d ++ [WarnDegenerate start_global]))
  else
    let sk := final_sketch d in
    let start_local :=
      Placement_multVec (Placement_inverse (getGlobalPlacement sk))
                        start_global in
    let end_local :=
      Placement_multVec (Placement_inverse (getGlobalPlacement sk))
                        end_global in
    let '(sk1, geo_index) :=
      addGeometry sk (mkLineSegment start_local end_local) false in
    let sk2 := setConstruction sk1 geo_index true in
    let vm := fold_left (register geo_index)
                        [(start_global, 1%nat); (end_global, 2%nat)]
                        (vertex_map d) in
    r <- addConstraint host sk2 (Block geo_index) ;;
    let '(sk3, constraint_idx) := r in
    Ok (mkDraft sk3 vm (block_constraints d ++ [constraint_idx]) (console d)).

Definition emit_edges (host : Host) (sk : SketchObject) (edges : list Edge)
  : result Draft :=
  for_each (edge_body host) edges (mkDraft sk [] [] []).

(** ** Coincidence synthesis (lines 250-259) *)

(** Loop state: the sketch, [coincident_added] and the console. *)
Record Stitch : Type := mkStitch {
  stitched : SketchObject;
  coincident_added : nat;
  warnings : list Msg
}.

(** Lines 255-259: one [try]/[except] around one request. *)
Definition coincident_try (host : Host) (pt_key : Key) (first : Ref)
  (s : Stitch) (next : Ref) : Stitch :=
  match addConstraint host (stitched s)
          (Coincident (fst first) (snd first) (fst next) (snd next)) with
  | Ok (sk, _) => mkStitch sk (coincident_added s + 1) (warnings s)
  | Raise _ =>
      mkStitch (stitched s) (coincident_added s)
               (warnings s ++ [WarnCoincident pt_key])
  end.

(** Lines 252-259: one item of [vertex_map.items()]. *)
Definition coincident_group (host : Host) (s : Stitch)
  (item : Key * list Ref) : Stitch :=
  let '(pt_key, refs) := item in
  if (1 <? length refs)%nat then
    match refs with
    | first :: rest => fold_left (coincident_try host pt_key first) rest s
    | [] => s
    end
  else s.

Definition add_coincidences (host : Host) (sk : SketchObject)
  (console0 : list Msg) (vm : VertexMap) : Stitch :=
  fold_left (coincident_group host) vm (mkStitch sk 0 console0).

(** ** Constraint visibility (lines 261-266) *)

Definition hide_block (host : Host) (st : SketchObject * list Msg) (idx : nat)
  : SketchObject * list Msg :=
  match setVirtualSpace host (fst st) idx true with
  | Ok sk => (sk, snd st)
  | Raise _ => (fst st, snd st ++ [WarnVirtualSpace idx])
  end.

Definition hide_blocks (host : Host) (sk : SketchObject) (idxs : list nat)
  : SketchObject * list Msg :=
  fold_left (hide_block host) idxs (sk, []).

(** ** create_sketch_from_selection (lines 151-294) *)

(** What the macro finds when the button is pressed. *)
Record Session : Type := mkSession {
  ActiveDocument : bool;
  (* the Part.Edge sub-objects of the selection, in selection order *)
  selected_edges : list Edge;
  (* answer of the placement dialog; [None] when it is dismissed *)
  dialog_item : option Target
}.

(** Lines 177-181. *)
Definition unique_vertices (all_vertices : list Vector) : list Vector :=
  fold_left (fun unique p =>
               if forallb (fun q => negb (is_close p q default_tol)) unique
               then unique ++ [p] else unique)
            all_vertices [].

(** Result of the synthesis steps that follow target resolution. *)
Record Synthesis : Type := mkSynthesis {
  sketch : SketchObject;
  groups : VertexMap;
  blocks : list nat;
  coincidents : nat;
  console_log : list Msg;
  panel_log : list Msg
}.

(** Lines 221-266 on the destination sketch. *)
Definition synthesize (host : Host) (sk : SketchObject) (edges : list Edge)
  : result Synthesis :=
  d <- emit_edges host sk edges ;;
  let s := add_coincidences host (final_sketch d) (console d) (vertex_map d) in
  let '(sk', vis) := hide_blocks host (stitched s) (block_constraints d) in
  Ok (mkSynthesis sk' (vertex_map d) (block_constraints d)
                  (coincident_added s) (warnings s ++ vis) vis).

(** ** Notions used to state the properties of synthesis *)

(** An edge that per-edge emission skips (line 229). *)
Definition degenerate (e : Edge) : bool :=
  is_close (v_first e) (v_last e) tolerance.

(** The edges that get a line segment, in order: on a fresh sketch the
    edge at position [g] of this list becomes segment [g]. *)
Definition emitted (edges : list Edge) : list Edge :=
  filter (fun e => negb (degenerate e)) edges.

(** The global point behind an endpoint slot of an edge: slot 1 is the
    start, slot 2 the end. *)
Definition endpoint (e : Edge) (vertex_id : nat) : Vector :=
  if (vertex_id =? 1)%nat then v_first e else v_last e.

(** The coincidence requests of one vertex group, each with the group's
    key: the first reference paired with every later one. *)
Definition star (item : Key * list Ref) : list (Key * Constraint) :=
  match snd item with
  | [] => []
  | first :: rest =>
      map (fun next =>
             (fst item,
              Coincident (fst first) (snd first) (fst next) (snd next)))
          rest
  end.

(** One request handed to the host: added and counted when accepted,
    a warning when declined. *)
Definition attempt (host : Host) (s : Stitch) (kc : Key * Constraint)
  : Stitch :=
  match addConstraint host (stitched s) (snd kc) with
  | Ok (sk, _) => mkStitch sk (coincident_added s + 1) (warnings s)
  | Raise _ =>
      mkStitch (stitched s) (coincident_added s)
               (warnings s ++ [WarnCoincident (fst kc)])
  end.

(** Global placement of the destination sketch (lines 204-219). *)
Definition destination (host : Host) (item : Target) (placement : Placement)
  : Placement :=
  match item with
  | Standalone => placement
  | _ => attached_global host item placement
  end.

(** How the [try] block is left without an exception. *)
Inductive TryExit : Type :=
| Returned (msg : Msg)            (* [abortTransaction(); return] *)
| Reached (s : Synthesis).        (* [sketch_created = True; commitTransaction()] *)

(** Lines 163-269. *)
Definition try_block (null_length : R) (self : EdgeDataCollector)
  (host : Host) (s : Session) : result TryExit :=
  let edges := selected_edges s in
  match edges with
  | [] => Ok (Returned ErrNoEdges)
  | _ =>
      let all_vertices := flat_map Vertexes edges in
      nc <- calculate_robust_plane_normal_and_placement
              null_length self (unique_vertices all_vertices) ;;
      let '(normal, center) := nc in
      placement <- create_robust_placement null_length normal center ;;
      match dialog_item s with
      | None => Ok (Returned InfoCancelled)
      | Some item =>
          let global := destination host item placement in
          r <- synthesize host (mkSketch global [] []) edges ;;
          Ok (Reached r)
      end
  end.

Inductive Transaction : Type :=
| NotOpened
| Committed
| Aborted.

(** What is left when the button handler returns: the state of the
    transaction, the sketch that persists in the document, and the text
    of the panel. *)
Record Outcome : Type := mkOutcome {
  transaction : Transaction;
  document_sketch : option SketchObject;
  info_display : list Msg
}.

Definition create_sketch_from_selection (null_length : R)
  (self : EdgeDataCollector) (host : Host) (s : Session) : Outcome :=
  if negb (ActiveDocument s) then mkOutcome NotOpened None [ErrNoDocument]
  else
    match try_block null_length self host s with
    | Ok (Returned msg) => mkOutcome Aborted None [msg; ErrIncomplete]
    | Ok (Reached r) =>
        mkOutcome Committed (Some (sketch r))
                  (panel_log r ++ [Success; InfoAdded (coincidents r)])
    | Raise e => mkOutcome Aborted None [ErrFailed e; ErrIncomplete]
    end.

(** ** Agreement of two runs up to the console text *)

Definition same_draft (d d' : Draft) : Prop :=
  final_sketch d = final_sketch d'
  /\ vertex_map d = vertex_map d'
  /\ block_constraints d = block_constraints d'.

Definition same_stitch (s s' : Stitch) : Prop :=
  stitched s = stitched s' /\ coincident_added s = coincident_added s'.

Definition same_synthesis (r r' : Synthesis) : Prop :=
  sketch r = sketch r'
  /\ groups r = groups r'
  /\ blocks r = blocks r'
  /\ coincidents r = coincidents r'
  /\ panel_log r = panel_log r'.

(** Both runs raise the same exception, or both return related values. *)
Definition same_result {A : Type} (R : A -> A -> Prop) (r r' : result A)
  : Prop :=
  match r, r' with
  | Ok a, Ok a' => R a a'
  | Raise e, Raise e' => e = e'
  | _, _ => False
  end.

(** ** Vertex groups and the edges behind them *)

(** The reference [r = (geo_index, vertex_id)] stands for an end point of
    the edge that became segment [geo_index], and that point is within the
    merge tolerance of the point of [key]. *)
Definition ref_within (em : list Edge) (key : Key) (r : Ref) : Prop :=
  exists edge,
    nth_error em (fst r) = Some edge
    /\ (snd r = 1 \/ snd r = 2)%nat
    /\ Length (sub (endpoint edge (snd r)) (vector_of key)) < tolerance.

Definition groups_ok (em : list Edge) (vm : VertexMap) : Prop :=
  NoDup (map fst vm)
  /\ forall key refs,
       In (key, refs) vm ->
       refs <> [] /\ forall r, In r refs -> ref_within em key r.

(** No key of these entries is within the merge tolerance of [pt]. *)
Definition none_close (pt : Vector) (entries : VertexMap) : Prop :=
  Forall (fun e => is_close pt (vector_of (fst e)) tolerance = false) entries.

(** ** A host that declines nothing and attaches without moving *)

Definition accept_all : Host :=
  mkHost (fun _ _ => true) (fun _ _ => true) (fun _ p => p).

(** ** collect_data (lines 46-65)

    The part that the plane estimator reads later: the mass centre of the
    end points of all edges of the first selected object.  Nothing is
    stored when nothing is selected or the object has no edge. *)

Definition collect_data (self : EdgeDataCollector) (selection : list Shape)
  : EdgeDataCollector :=
  match selection with
  | [] => self
  | obj :: _ =>
      let all_points := flat_map Vertexes (Edges obj) in
      match all_points with
      | [] => self
      | _ => mkCollector (mean all_points)
      end
  end.

(** ** Notions used to state further properties *)

(** [l1] is [l2] with some elements left out, the order kept. *)
Inductive Subseq {A : Type} : list A -> list A -> Prop :=
| Subseq_nil : Subseq [] []
| Subseq_skip (a : A) (l1 l2 : list A) : Subseq l1 l2 -> Subseq l1 (a :: l2)
| Subseq_keep (a : A) (l1 l2 : list A) :
    Subseq l1 l2 -> Subseq (a :: l1) (a :: l2).

(** Every point of the list is at least [tol] away from every earlier
    one. *)
Definition separated (tol : R) (l : list Vector) : Prop :=
  ForallOrdPairs (fun q p => tol <= Length (sub p q)) l.

(** The line segment of an edge in the local frame of a sketch whose
    global placement is [gp] (lines 233-236). *)
Definition local_segment (gp : Placement) (e : Edge) : LineSegment :=
  mkLineSegment (Placement_multVec (Placement_inverse gp) (v_first e))
                (Placement_multVec (Placement_inverse gp) (v_last e)).

(** The two references of segment [g]: its start and its end. *)
Definition segment_refs (g : nat) : list Ref := [(g, 1%nat); (g, 2%nat)].

(** ** The unit square, for examples *)

Definition unit_square : list Edge :=
  [mkEdge (mkVector 0 0 0) (mkVector 1 0 0);
   mkEdge (mkVector 1 0 0) (mkVector 1 1 0);
   mkEdge (mkVector 1 1 0) (mkVector 0 1 0);
   mkEdge (mkVector 0 1 0) (mkVector 0 0 0)].

Definition unit_square_result : Synthesis :=
  mkSynthesis
    (mkSketch Placement_identity
       [(mkLineSegment (mkVector 0 0 0) (mkVector 1 0 0), true);
        (mkLineSegment (mkVector 1 0 0) (mkVector 1 1 0), true);
        (mkLineSegment (mkVector 1 1 0) (mkVector 0 1 0), true);
        (mkLineSegment (mkVector 0 1 0) (mkVector 0 0 0), true)]
       [(Block 0, true); (Block 1, true);
        (Block 2, true); (Block 3, true);
        (Coincident 0 1 3 2, false); (Coincident 0 2 1 1, false);
        (Coincident 1 2 2 1, false); (Coincident 2 2 3 1, false)])
    [((0, 0, 0), [(0%nat, 1%nat); (3%nat, 2%nat)]);
     ((1, 0, 0), [(0%nat, 2%nat); (1%nat, 1%nat)]);
     ((1, 1, 0), [(1%nat, 2%nat); (2%nat, 1%nat)]);
     ((0, 1, 0), [(2%nat, 2%nat); (3%nat, 1%nat)])]
    [0%nat; 1%nat; 2%nat; 3%nat] 4 [] [].

(** ** Revision 250627: per-edge emission with rounded keys
    (CoplanarSketch250627.py, lines 191-206)

    This revision groups end points by their coordinates rounded to five
    decimals, adds no block constraint in the loop and writes no
    warning. *)

Module Rev250627.

(** The integer nearest to [r], ties going to the even one. *)
Definition round_half_even (r : R) : Z :=
  let f := Int_part r in
  let d := r - IZR f in
  if Rlt_dec d (1 / 2) then f
  else if Rlt_dec (1 / 2) d then (f + 1)%Z
  else if Z.even f then f else (f + 1)%Z.

(** [round(v, 5)] *)
Definition round5 (v : R) : R := IZR (round_half_even (v * 100000)) / 100000.

(** Line 205. *)
Definition rounded_key (point : Vector) : Key :=
  (round5 (x point), round5 (y point), round5 (z point)).

(** Line 206: [edge_map.setdefault(key, []).append(r)]. *)
Definition setdefault_append (edge_map : VertexMap) (key : Key) (r : Ref)
  : VertexMap :=
  if existsb (fun e => key_eqb (fst e) key) edge_map then
    dict_append edge_map key r
  else edge_map ++ [(key, [r])].

(** Lines 205-206, for one [(point, vid)]. *)
Definition register (geo_index : nat) (edge_map : VertexMap)
  (pv : Vector * nat) : VertexMap :=
  let '(point, vid) := pv in
  setdefault_append edge_map (rounded_key point) (geo_index, vid).

(** Lines 194-206: the loop state is the sketch and [edge_map]. *)
Definition edge_body (st : SketchObject * VertexMap) (edge : Edge)
  : SketchObject * VertexMap :=
  let '(final_sketch, edge_map) := st in
  let v_start := v_first edge in
  let v_end := v_last edge in
  if ltb (Length (sub v_start v_end)) tolerance then st
  else
    let v_start_local :=
      Placement_multVec (Placement_inverse (getGlobalPlacement final_sketch))
                        v_start in
    let v_end_local :=
      Placement_multVec (Placement_inverse (getGlobalPlacement final_sketch))
                        v_end in
    let '(sk1, geo_index) :=
      addGeometry final_sketch (mkLineSegment v_start_local v_end_local)
                  false in
    let sk2 := setConstruction sk1 geo_index true in
    (sk2, fold_left (register geo_index)
                    [(v_start, 1%nat); (v_end, 2%nat)] edge_map).

(** Lines 191-206. *)
Definition emit_edges (final_sketch : SketchObject) (edges : list Edge)
  : SketchObject * VertexMap :=
  fold_left edge_body edges (final_sketch, []).

(** The reference [r = (geo_index, vid)] stands for an end point of the
    edge that became segment [geo_index], and that point rounds to
    [key]. *)
Definition ref_rounds_to (em : list Edge) (key : Key) (r : Ref) : Prop :=
  exists edge,
    nth_error em (fst r) = Some edge
    /\ (snd r = 1 \/ snd r = 2)%nat
    /\ rounded_key (endpoint edge (snd r)) = key.

End Rev250627.

(** * Theorems *)

(** ** Comparisons *)

Lemma ltb_true (a b : R) : ltb a b = true <-> a < b.
Proof.
  unfold ltb. destruct (Rlt_dec a b); split; intro; auto; discriminate.
Qed.

Lemma ltb_false (a b : R) : ltb a b = false <-> b <= a.
Proof.
  unfold ltb. destruct (Rlt_dec a b); split; intro; auto;
    try discriminate; lra.
Qed.

Lemma gtb_true (a b : R) : gtb a b = true <-> a > b.
Proof. unfold gtb. rewrite ltb_true. lra. Qed.

Lemma gtb_false (a b : R) : gtb a b = false <-> a <= b.
Proof. unfold gtb. apply ltb_false. Qed.

(** ** Vectors *)

Ltac vec_simpl :=
  unfold unit, add, sub, multiply, dot, cross in *; simpl in *.

Lemma vector_eq (a b : Vector) :
  x a = x b -> y a = y b -> z a = z b -> a = b.
Proof. destruct a, b; simpl; intros; subst; reflexivity. Qed.

Lemma dot_self_nonneg (v : Vector) : 0 <= dot v v.
Proof. vec_simpl. nra. Qed.

Lemma Length_nonneg (v : Vector) : 0 <= Length v.
Proof. apply sqrt_pos. Qed.

Lemma Length_sqr (v : Vector) : Length v * Length v = dot v v.
Proof. apply sqrt_sqrt, dot_self_nonneg. Qed.

Lemma Length_of_square (v : Vector) (l : R) :
  0 <= l -> dot v v = l * l -> Length v = l.
Proof.
  intros Hl H. unfold Length. rewrite H. apply sqrt_square, Hl.
Qed.

Lemma Length_lt (v : Vector) (t : R) :
  0 < t -> (Length v < t <-> dot v v < t * t).
Proof.
  intros Ht. pose proof (Length_nonneg v) as Hn.
  pose proof (Length_sqr v) as Hs. split; intro H; nra.
Qed.

Lemma Length_gt (v : Vector) (t : R) :
  0 <= t -> (Length v > t <-> dot v v > t * t).
Proof.
  intros Ht. pose proof (Length_nonneg v) as Hn.
  pose proof (Length_sqr v) as Hs. split; intro H; nra.
Qed.

Lemma Length_zero (v : Vector) : Length v = 0 <-> v = mkVector 0 0 0.
Proof.
  split.
  - intro H. pose proof (Length_sqr v) as Hs. rewrite H in Hs.
    destruct v as [a b c]. vec_simpl.
    assert (a = 0) by nra. assert (b = 0) by nra. assert (c = 0) by nra.
    subst. reflexivity.
  - intros ->. apply Length_of_square; [lra | vec_simpl; lra].
Qed.

Lemma dot_multiply_l (v w : Vector) (s : R) :
  dot (multiply v s) w = s * dot v w.
Proof. vec_simpl. ring. Qed.

Lemma dot_multiply_r (v w : Vector) (s : R) :
  dot v (multiply w s) = s * dot v w.
Proof. vec_simpl. ring. Qed.

Lemma dot_comm (v w : Vector) : dot v w = dot w v.
Proof. vec_simpl. ring. Qed.

Lemma Length_multiply (v : Vector) (s : R) :
  Length (multiply v s) = Rabs s * Length v.
Proof.
  apply Length_of_square.
  - pose proof (Rabs_pos s). pose proof (Length_nonneg v). nra.
  - rewrite dot_multiply_l, dot_multiply_r.
    replace (Rabs s * Length v * (Rabs s * Length v))
      with ((Rabs s * Rabs s) * (Length v * Length v)) by ring.
    rewrite Length_sqr. fold (Rsqr (Rabs s)). rewrite <- Rsqr_abs.
    unfold Rsqr. ring.
Qed.

Lemma Length_unit (v : Vector) : Length v <> 0 -> Length (unit v) = 1.
Proof.
  intro H. unfold unit. rewrite Length_multiply.
  pose proof (Length_nonneg v) as Hn.
  rewrite Rabs_inv, (Rabs_right (Length v)) by lra.
  field. exact H.
Qed.

Lemma Length_opp (v : Vector) : Length (multiply v (-1)) = Length v.
Proof.
  rewrite Length_multiply. rewrite (Rabs_left (-1)) by lra. ring.
Qed.

Lemma normalize_ok (null_length : R) (v : Vector) :
  Length v > null_length -> normalize null_length v = Ok (unit v).
Proof.
  intro H. unfold normalize.
  replace (gtb (Length v) null_length) with true
    by (symmetry; apply gtb_true; exact H).
  reflexivity.
Qed.

Lemma normalize_raises (null_length : R) (v : Vector) :
  Length v <= null_length -> normalize null_length v = Raise NullVector.
Proof.
  intro H. unfold normalize.
  replace (gtb (Length v) null_length) with false
    by (symmetry; apply gtb_false; exact H).
  reflexivity.
Qed.

Lemma normalize_returned (null_length : R) (v r : Vector) :
  normalize null_length v = Ok r -> Length v > null_length /\ r = unit v.
Proof.
  unfold normalize. destruct (gtb (Length v) null_length) eqn:Hg;
    [| discriminate].
  apply gtb_true in Hg. intro H. inversion H. split; [exact Hg | reflexivity].
Qed.

Lemma sub_translate (a b c : Vector) : sub (sub a c) (sub b c) = sub a b.
Proof. apply vector_eq; vec_simpl; ring. Qed.

(** ** The triple loop *)

Lemma in_range (a b n : nat) : In n (range a b) <-> (a <= n < b)%nat.
Proof. unfold range. rewrite in_seq. lia. Qed.

Lemma in_index_triples (len i j k : nat) :
  In (i, j, k) (index_triples len) <-> (i < j /\ j < k /\ k < len)%nat.
Proof.
  unfold index_triples. rewrite in_flat_map. split.
  - intros (i' & Hi & H). rewrite in_flat_map in H.
    destruct H as (j' & Hj & H). rewrite in_map_iff in H.
    destruct H as (k' & E & Hk). inversion E; subst.
    rewrite in_range in Hi, Hj, Hk. lia.
  - intros (Hij & Hjk & Hk). exists i. split; [rewrite in_range; lia |].
    rewrite in_flat_map. exists j. split; [rewrite in_range; lia |].
    rewrite in_map_iff. exists k. split; [reflexivity |].
    rewrite in_range. lia.
Qed.

Lemma index_triples_short (len : nat) :
  (len < 3)%nat -> index_triples len = [].
Proof.
  intro H. destruct (index_triples len) as [| [[i j] k] l] eqn:E;
    [reflexivity |].
  assert (Hin : In (i, j, k) (index_triples len))
    by (rewrite E; left; reflexivity).
  apply in_index_triples in Hin. lia.
Qed.

(** Once [best_magnitude] is at least the host's null length the loop
    does not raise: it ends with the largest magnitude seen (or the
    initial one) and, when that improved, with the direction of the first
    cross product, in loop order, of that magnitude. *)
Lemma triple_loop_first (null_length : R) (vectors : list Vector)
  (l : list (nat * nat * nat)) :
  forall (bn : option Vector) (bm : R),
    0 <= bm ->
    null_length <= bm ->
    exists bn' bm',
      for_each (triple_body null_length vectors) l (bn, bm) = Ok (bn', bm')
      /\ ((bn' = bn /\ bm' = bm
           /\ forall t, In t l -> Length (triple_cross vectors t) <= bm)
          \/ exists l1 t l2,
               l = l1 ++ t :: l2
               /\ bm < bm'
               /\ bm' = Length (triple_cross vectors t)
               /\ bn' = Some (unit (triple_cross vectors t))
               /\ (forall t', In t' l1 ->
                   Length (triple_cross vectors t') < bm')
               /\ (forall t', In t' l2 ->
                   Length (triple_cross vectors t') <= bm')).
Proof.
  induction l as [| t l IH]; intros bn bm Hbm Hnull.
  - exists bn, bm. split; [reflexivity |]. left. repeat split.
    intros t [].
  - simpl. unfold triple_body at 1. simpl snd.
    destruct (gtb (Length (triple_cross vectors t)) bm) eqn:Hg.
    + apply gtb_true in Hg. rewrite normalize_ok by lra. simpl.
      destruct (IH (Some (unit (triple_cross vectors t)))
                   (Length (triple_cross vectors t)))
        as (bn' & bm' & Hrun & Hcase); [lra | lra |].
      exists bn', bm'. split; [exact Hrun |]. right.
      destruct Hcase as [(-> & -> & Hall)
                        | (l1 & t' & l2 & -> & Hlt & Hbm' & Hbn' & H1 & H2)].
      * exists [], t, l. repeat split; auto. intros t' [].
      * exists (t :: l1), t', l2. repeat split; auto; [lra |].
        intros t'' [<- | Hin]; [lra | apply H1, Hin].
    + apply gtb_false in Hg. simpl.
      destruct (IH bn bm Hbm Hnull) as (bn' & bm' & Hrun & Hcase).
      exists bn', bm'. split; [exact Hrun |].
      destruct Hcase as [(-> & -> & Hall)
                        | (l1 & t' & l2 & -> & Hlt & Hbm' & Hbn' & H1 & H2)].
      * left. repeat split. intros t' [<- | Hin]; [exact Hg | apply Hall, Hin].
      * right. exists (t :: l1), t', l2. repeat split; auto.
        intros t'' [<- | Hin]; [lra | apply H1, Hin].
Qed.

(** The first element that passes a test, with what comes before it. *)
Lemma find_first {A : Type} (P : A -> bool) (l : list A) :
  (find P l = None /\ forall a, In a l -> P a = false)
  \/ exists l1 a l2,
       find P l = Some a
       /\ l = l1 ++ a :: l2
       /\ (forall b, In b l1 -> P b = false)
       /\ P a = true.
Proof.
  induction l as [| a l IH]; simpl.
  - left. split; [reflexivity | intros a []].
  - destruct (P a) eqn:Ha.
    + right. exists [], a, l. repeat split; auto. intros b [].
    + destruct IH as [(Hnone & Hall) | (l1 & b & l2 & Hf & -> & H1 & Hb)].
      * left. split; [exact Hnone |]. intros c [<- | Hc]; auto.
      * right. exists (a :: l1), b, l2. repeat split; auto.
        intros c [<- | Hc]; auto.
Qed.

Lemma find_same {A : Type} (P Q : A -> bool) (l : list A) :
  (forall a, In a l -> P a = Q a) -> find P l = find Q l.
Proof.
  induction l as [| a l IH]; intro H; simpl; [reflexivity |].
  rewrite (H a) by (left; reflexivity).
  rewrite IH by (intros b Hb; apply H; right; exact Hb). reflexivity.
Qed.

(** Triples whose cross product is null leave the initial state alone. *)
Lemma triple_loop_skips (null_length : R) (vectors : list Vector)
  (l1 rest : list (nat * nat * nat)) :
  (forall t, In t l1 -> gtb (Length (triple_cross vectors t)) 0 = false) ->
  for_each (triple_body null_length vectors) (l1 ++ rest) (None, 0)
  = for_each (triple_body null_length vectors) rest (None, 0).
Proof.
  induction l1 as [| t l1 IH]; intro H; simpl; [reflexivity |].
  unfold triple_body at 1. simpl snd.
  rewrite H by (left; reflexivity). simpl.
  apply IH. intros t' Ht'. apply H. right. exact Ht'.
Qed.

(** The triple loop from its initial state: it finds no cross product
    that is not null; or the host refuses the first one that is not null
    and the loop raises; or the host normalizes that one and the loop ends
    with the direction of the first cross product, in loop order, of the
    largest magnitude. *)
Lemma best_triple_cases (null_length : R) (vectors : list Vector) :
  (first_normalized vectors = None
   /\ best_triple null_length vectors = Ok (None, 0)
   /\ forall t, In t (index_triples (length vectors)) ->
                Length (triple_cross vectors t) = 0)
  \/ (exists t,
        first_normalized vectors = Some t
        /\ 0 < Length (triple_cross vectors t) <= null_length
        /\ best_triple null_length vectors = Raise NullVector)
  \/ (exists t before w after,
        first_normalized vectors = Some t
        /\ Length (triple_cross vectors t) > null_length
        /\ 0 < Length (triple_cross vectors w)
        /\ best_triple null_length vectors
           = Ok (Some (unit (triple_cross vectors w)),
                 Length (triple_cross vectors w))
        /\ index_triples (length vectors) = before ++ w :: after
        /\ (forall t', In t' before ->
            Length (triple_cross vectors t')
            < Length (triple_cross vectors w))
        /\ (forall t', In t' after ->
            Length (triple_cross vectors t')
            <= Length (triple_cross vectors w))).
Proof.
  unfold first_normalized, best_triple.
  destruct (find_first (fun t => gtb (Length (triple_cross vectors t)) 0)
              (index_triples (length vectors)))
    as [(Hnone & Hall) | (l1 & t & l2 & Hf & Hl & H1 & Ht)].
  - left. split; [exact Hnone |]. split.
    + rewrite <- (app_nil_r (index_triples (length vectors))).
      rewrite triple_loop_skips by exact Hall. reflexivity.
    + intros t Hin. specialize (Hall t Hin). apply gtb_false in Hall.
      pose proof (Length_nonneg (triple_cross vectors t)). lra.
  - right.
    assert (Hstep :
      for_each (triple_body null_length vectors) (l1 ++ t :: l2) (None, 0)
      = (st <- (n' <- normalize null_length (triple_cross vectors t) ;;
                Ok (Some n', Length (triple_cross vectors t))) ;;
         for_each (triple_body null_length vectors) l2 st)).
    { rewrite triple_loop_skips by exact H1.
      cbn [for_each]. unfold triple_body at 1. simpl snd.
      rewrite Ht. reflexivity. }
    rewrite Hf, Hl, Hstep. clear Hstep.
    apply gtb_true in Ht.
    assert (Hl1 : forall t', In t' l1 ->
                  Length (triple_cross vectors t') <= 0).
    { intros t' Hin. apply gtb_false, H1, Hin. }
    destruct (Rle_or_lt (Length (triple_cross vectors t)) null_length)
      as [Hle | Hgt].
    + left. exists t. split; [reflexivity |]. split; [lra |].
      rewrite normalize_raises by exact Hle. reflexivity.
    + right. rewrite normalize_ok by lra. cbn [bind].
      destruct (triple_loop_first null_length vectors l2
                  (Some (unit (triple_cross vectors t)))
                  (Length (triple_cross vectors t)))
        as (bn' & bm' & Hrun & Hcase); [lra | lra |].
      rewrite Hrun.
      destruct Hcase as [(-> & -> & Hall)
                        | (m1 & w & m2 & -> & Hlt & -> & -> & Hm1 & Hm2)].
      * exists t, l1, t, l2. repeat split; auto; try lra.
        intros t' Hin. specialize (Hl1 t' Hin). lra.
      * exists t, (l1 ++ t :: m1), w, m2. repeat split; auto; try lra.
        -- rewrite <- app_assoc. reflexivity.
        -- intros t' Hin. apply in_app_or in Hin.
           destruct Hin as [Hin | [<- | Hin]].
           ++ specialize (Hl1 t' Hin). lra.
           ++ lra.
           ++ apply Hm1, Hin.
Qed.

(** ** Sign resolution *)

(** What sign resolution returns when it returns. *)
Lemma resolve_sign_returned (null_length : R) (self : EdgeDataCollector)
  (center bn n : Vector) :
  resolve_sign null_length self center bn = Ok n ->
  (n = bn \/ n = multiply bn (-1))
  /\ (Length (delta_of self center) > 1e-6 ->
      dot n (delta_of self center) >= 0).
Proof.
  unfold resolve_sign, delta_of.
  set (delta := sub center (edge_mass_center self)).
  destruct (gtb (Length delta) 1e-6) eqn:Hg.
  - apply gtb_true in Hg.
    destruct (normalize null_length delta) as [d | e] eqn:Hd;
      [| discriminate].
    apply normalize_returned in Hd. destruct Hd as (_ & ->). simpl.
    assert (Hd : dot (unit delta) bn = / Length delta * dot bn delta).
    { unfold unit. rewrite dot_multiply_l, dot_comm. reflexivity. }
    assert (Hinv : 0 < / Length delta) by (apply Rinv_0_lt_compat; lra).
    destruct (ltb (dot (unit delta) bn) 0) eqn:Hs; intro H;
      injection H as <-.
    + apply ltb_true in Hs. split; [right; reflexivity |].
      intros _. rewrite dot_multiply_l. rewrite Hd in Hs. nra.
    + apply ltb_false in Hs. split; [left; reflexivity |].
      intros _. rewrite Hd in Hs. nra.
  - apply gtb_false in Hg. intro H. injection H as <-.
    split; [left; reflexivity | lra].
Qed.

(** Behind its 1e-6 guard sign resolution returns. *)
Lemma resolve_sign_spec (null_length : R) (self : EdgeDataCollector)
  (center bn : Vector) :
  null_length <= 1e-6 ->
  exists n,
    resolve_sign null_length self center bn = Ok n
    /\ (n = bn \/ n = multiply bn (-1))
    /\ (Length (delta_of self center) > 1e-6 ->
        dot n (delta_of self center) >= 0).
Proof.
  intro Hnull.
  assert (Hex : exists n, resolve_sign null_length self center bn = Ok n).
  { unfold resolve_sign.
    destruct (gtb (Length (sub center (edge_mass_center self))) 1e-6) eqn:Hg;
      [| eauto].
    apply gtb_true in Hg. rewrite normalize_ok by lra. simpl.
    destruct (ltb _ 0); eauto. }
  destruct Hex as (n & Hn). exists n. split; [exact Hn |].
  exact (resolve_sign_returned null_length self center bn n Hn).
Qed.

(** With the fallback normal [(0,0,1)] the flip depends on the sign of
    [delta.z] alone. *)
Lemma resolve_sign_fallback (null_length : R) (self : EdgeDataCollector)
  (center : Vector) :
  null_length <= 1e-6 ->
  resolve_sign null_length self center (mkVector 0 0 1) =
  Ok (if gtb (Length (delta_of self center)) 1e-6
         && ltb (z (delta_of self center)) 0
      then mkVector 0 0 (-1) else mkVector 0 0 1).
Proof.
  intro Hnull. unfold resolve_sign, delta_of.
  remember (sub center (edge_mass_center self)) as delta eqn:Edelta.
  destruct (gtb (Length delta) 1e-6) eqn:Hg; [| reflexivity].
  apply gtb_true in Hg. rewrite normalize_ok by lra. simpl.
  assert (Hd : dot (unit delta) (mkVector 0 0 1) = z delta * / Length delta)
    by (vec_simpl; ring).
  assert (Hinv : 0 < / Length delta) by (apply Rinv_0_lt_compat; lra).
  rewrite Hd.
  destruct (ltb (z delta) 0) eqn:Hz.
  - apply ltb_true in Hz.
    assert (Hs : ltb (z delta * / Length delta) 0 = true)
      by (apply ltb_true; nra).
    rewrite Hs. simpl. f_equal. apply vector_eq; simpl; ring.
  - apply ltb_false in Hz.
    assert (Hs : ltb (z delta * / Length delta) 0 = false)
      by (apply ltb_false; nra).
    rewrite Hs. reflexivity.
Qed.

(** ** Centroid and translation *)

Lemma fold_add_coords (vs : list Vector) :
  forall acc,
    x (fold_left add vs acc) = x acc + Rsum (map x vs)
    /\ y (fold_left add vs acc) = y acc + Rsum (map y vs)
    /\ z (fold_left add vs acc) = z acc + Rsum (map z vs).
Proof.
  unfold Rsum. induction vs as [| v vs IH]; intro acc; simpl.
  - repeat split; ring.
  - destruct (IH (add acc v)) as (Hx & Hy & Hz).
    rewrite Hx, Hy, Hz. simpl. repeat split; ring.
Qed.

Lemma mean_coords (vs : list Vector) :
  x (mean vs) = Rsum (map x vs) / INR (length vs)
  /\ y (mean vs) = Rsum (map y vs) / INR (length vs)
  /\ z (mean vs) = Rsum (map z vs) / INR (length vs).
Proof.
  unfold mean, sum. destruct (fold_add_coords vs (mkVector 0 0 0))
    as (Hx & Hy & Hz).
  simpl. rewrite Hx, Hy, Hz. simpl. unfold Rdiv.
  repeat split; ring.
Qed.

Lemma at_index_map (f : Vector -> Vector) (vs : list Vector) (i : nat) :
  (i < length vs)%nat -> at_index (map f vs) i = f (at_index vs i).
Proof.
  intro H. unfold at_index.
  rewrite (nth_indep (map f vs) (mkVector 0 0 0) (f (mkVector 0 0 0)))
    by (rewrite length_map; exact H).
  apply map_nth.
Qed.

(** Translating all points by the same vector leaves every triple's cross
    product unchanged. *)
Lemma triple_cross_translate (c : Vector) (vs : list Vector) (i j k : nat) :
  (i < j /\ j < k /\ k < length vs)%nat ->
  triple_cross (map (fun v => sub v c) vs) (i, j, k)
  = triple_cross vs (i, j, k).
Proof.
  intros (Hij & Hjk & Hk). unfold triple_cross.
  rewrite !at_index_map by lia. rewrite !sub_translate. reflexivity.
Qed.

Lemma not_lt_3 (vs : list Vector) :
  (3 <= length vs)%nat -> (length vs <? 3)%nat = false.
Proof. intro H. apply Nat.ltb_ge. exact H. Qed.

(** ** Plane estimator: results *)

Lemma first_normalized_translate (c : Vector) (vertices : list Vector) :
  first_normalized (map (fun v => sub v c) vertices)
  = first_normalized vertices.
Proof.
  unfold first_normalized. rewrite length_map.
  apply find_same. intros [[i j] k] Hin. apply in_index_triples in Hin.
  rewrite triple_cross_translate by exact Hin. reflexivity.
Qed.

Lemma first_normalized_In (vectors : list Vector) (t : nat * nat * nat) :
  first_normalized vectors = Some t ->
  In t (index_triples (length vectors))
  /\ 0 < Length (triple_cross vectors t).
Proof.
  unfold first_normalized. intro H. apply find_some in H.
  destruct H as (Hin & Hgt). apply gtb_true in Hgt. split; [exact Hin | lra].
Qed.

(** With fewer than three points there is no triple, so nothing to
    normalize. *)
Lemma short_normalizable (null_length : R) (vertices : list Vector) :
  (length vertices < 3)%nat -> normalizable null_length vertices.
Proof.
  intro H. unfold normalizable, first_normalized.
  rewrite index_triples_short by exact H. exact I.
Qed.

(** Three points have one triple. *)
Lemma three_points_normalizable (null_length : R) (a b c : Vector) :
  Length (cross (sub b a) (sub c a)) > null_length ->
  normalizable null_length [a; b; c].
Proof.
  intro H. unfold normalizable, first_normalized.
  change (index_triples (length [a; b; c])) with [(0, 1, 2)%nat].
  cbn [find].
  change (triple_cross [a; b; c] (0, 1, 2)%nat)
    with (cross (sub b a) (sub c a)).
  destruct (gtb _ 0); [exact H | exact I].
Qed.


Lemma unit_triangle_normalizable (null_length : R) :
  null_length < 1 ->
  normalizable null_length [mkVector 0 0 0; mkVector 1 0 0; mkVector 0 1 0].
Proof.
  intro H. apply three_points_normalizable.
  rewrite (Length_of_square _ 1); [lra | lra | vec_simpl; ring].
Qed.

(** The estimator on three points or more: the host refuses the first
    cross product that is not null, and the estimator raises; or all
    cross products are null and the fallback normal goes through sign
    resolution; or the direction of the first cross product of largest
    magnitude does. *)
Lemma estimator_cases (null_length : R) (self : EdgeDataCollector)
  (vertices : list Vector) :
  (3 <= length vertices)%nat ->
  (~ normalizable null_length vertices
   /\ calculate_robust_plane_normal_and_placement null_length self vertices
      = Raise NullVector)
  \/ (normalizable null_length vertices
      /\ (forall t, In t (index_triples (length vertices)) ->
          Length (triple_cross vertices t) = 0)
      /\ calculate_robust_plane_normal_and_placement
           null_length self vertices
         = (normal <- resolve_sign null_length self (mean vertices)
                        (mkVector 0 0 1) ;;
            Ok (normal, mean vertices)))
  \/ (normalizable null_length vertices
      /\ exists before w after,
           0 < Length (triple_cross vertices w)
           /\ triple_cross (map (fun v => sub v (mean vertices)) vertices) w
              = triple_cross vertices w
           /\ index_triples (length vertices) = before ++ w :: after
           /\ (forall t', In t' before ->
               Length (triple_cross vertices t')
               < Length (triple_cross vertices w))
           /\ (forall t', In t' after ->
               Length (triple_cross vertices t')
               <= Length (triple_cross vertices w))
           /\ calculate_robust_plane_normal_and_placement
                null_length self vertices
              = (normal <- resolve_sign null_length self (mean vertices)
                             (unit (triple_cross vertices w)) ;;
                 Ok (normal, mean vertices))).
Proof.
  intro H3.
  set (vectors := map (fun v => sub v (mean vertices)) vertices).
  assert (Hlen : length vectors = length vertices)
    by (unfold vectors; apply length_map).
  assert (Htr : forall t, In t (index_triples (length vertices)) ->
                triple_cross vectors t = triple_cross vertices t).
  { intros [[i j] k] Hin. apply in_index_triples in Hin.
    apply triple_cross_translate, Hin. }
  assert (Hfirst : first_normalized vectors = first_normalized vertices)
    by apply first_normalized_translate.
  assert (Hcalc :
    calculate_robust_plane_normal_and_placement null_length self vertices
    = (st <- best_triple null_length vectors ;;
       normal <- resolve_sign null_length self (mean vertices)
                   match fst st with
                   | Some n => n
                   | None => mkVector 0 0 1
                   end ;;
       Ok (normal, mean vertices))).
  { unfold calculate_robust_plane_normal_and_placement.
    rewrite not_lt_3 by exact H3. reflexivity. }
  rewrite Hcalc. unfold normalizable.
  destruct (best_triple_cases null_length vectors)
    as [(Hn & Hrun & Hall)
       | [(t & Hn & Hle & Hrun)
         | (t & before & w & after & Hn & Hgt & Hw & Hrun & Hsplit
            & Hb & Ha)]];
    rewrite Hfirst in Hn; rewrite Hn, Hrun; try rewrite Hlen in *.
  - right. left. split; [exact I |]. split; [| reflexivity].
    intros t Hin. rewrite <- Htr by exact Hin. apply Hall, Hin.
  - left. destruct (first_normalized_In vertices t Hn) as (Hin & _).
    rewrite Htr in Hle by exact Hin. split; [lra | reflexivity].
  - right. right.
    destruct (first_normalized_In vertices t Hn) as (Hin & _).
    rewrite Htr in Hgt by exact Hin.
    assert (Hins : forall t', In t' (before ++ w :: after) ->
                   In t' (index_triples (length vertices)))
      by (intros t' H; rewrite Hsplit; exact H).
    assert (Hww : triple_cross vectors w = triple_cross vertices w)
      by (apply Htr, Hins, in_or_app; right; left; reflexivity).
    rewrite Hww in *.
    split; [exact Hgt |]. exists before, w, after.
    split; [exact Hw |]. split; [exact Hww |]. split; [exact Hsplit |].
    split; [| split; [| try rewrite Hww; reflexivity]].
    + intros t' Hin'. rewrite <- (Htr t'); [apply Hb, Hin' |].
      apply Hins, in_or_app. left. exact Hin'.
    + intros t' Hin'. rewrite <- (Htr t'); [apply Ha, Hin' |].
      apply Hins, in_or_app. right. right. exact Hin'.
Qed.

Lemma after_sign_returned (null_length : R) (self : EdgeDataCollector)
  (c b normal centroid : Vector) :
  (n <- resolve_sign null_length self c b ;; Ok (n, c))
  = Ok (normal, centroid) ->
  centroid = c /\ resolve_sign null_length self c b = Ok normal.
Proof.
  destruct (resolve_sign null_length self c b) as [n | e]; simpl;
    [| discriminate].
  intro H. injection H as <- <-. split; reflexivity.
Qed.

Lemma after_sign_returns (null_length : R) (self : EdgeDataCollector)
  (c b : Vector) :
  null_length <= 1e-6 ->
  exists normal,
    (n <- resolve_sign null_length self c b ;; Ok (n, c)) = Ok (normal, c)
    /\ (normal = b \/ normal = multiply b (-1)).
Proof.
  intro Hnull.
  destruct (resolve_sign_spec null_length self c b Hnull)
    as (n & Hn & Hor & _).
  exists n. rewrite Hn. split; [reflexivity | exact Hor].
Qed.

(** The estimator raises exactly when the host refuses the first cross
    product handed to it; behind the 1e-6 guard of sign resolution nothing
    else can raise. *)
Lemma estimator_raises (null_length : R) (self : EdgeDataCollector)
  (vertices : list Vector) :
  ~ normalizable null_length vertices ->
  calculate_robust_plane_normal_and_placement null_length self vertices
  = Raise NullVector.
Proof.
  intro Hno.
  destruct (Nat.lt_ge_cases (length vertices) 3) as [Hlt | H3].
  - exfalso. apply Hno, short_normalizable, Hlt.
  - destruct (estimator_cases null_length self vertices H3)
      as [(_ & Hrun) | [(Hyes & _) | (Hyes & _)]];
      [exact Hrun | contradiction | contradiction].
Qed.

Lemma estimator_returns (null_length : R) (self : EdgeDataCollector)
  (vertices : list Vector) :
  null_length <= 1e-6 ->
  normalizable null_length vertices ->
  exists normal center,
    calculate_robust_plane_normal_and_placement null_length self vertices
    = Ok (normal, center).
Proof.
  intros Hnull Hyes.
  destruct (Nat.lt_ge_cases (length vertices) 3) as [Hlt | H3].
  - unfold calculate_robust_plane_normal_and_placement.
    apply Nat.ltb_lt in Hlt. rewrite Hlt. eauto.
  - destruct (estimator_cases null_length self vertices H3)
      as [(Hno & _)
         | [(_ & _ & Hrun)
           | (_ & before & w & after & _ & _ & _ & _ & _ & Hrun)]];
      [contradiction | |]; rewrite Hrun.
    + destruct (after_sign_returns null_length self (mean vertices)
                  (mkVector 0 0 1) Hnull) as (n & Hn & _). eauto.
    + destruct (after_sign_returns null_length self (mean vertices)
                  (unit (triple_cross vertices w)) Hnull) as (n & Hn & _).
      eauto.
Qed.

(** A result of the estimator comes from an input the host could
    normalize. *)
Lemma estimator_returned (null_length : R) (self : EdgeDataCollector)
  (vertices : list Vector) (normal center : Vector) :
  calculate_robust_plane_normal_and_placement null_length self vertices
  = Ok (normal, center) ->
  normalizable null_length vertices.
Proof.
  intro H.
  destruct (Nat.lt_ge_cases (length vertices) 3) as [Hlt | H3].
  - apply short_normalizable, Hlt.
  - destruct (estimator_cases null_length self vertices H3)
      as [(_ & Hrun) | [(Hyes & _) | (Hyes & _)]]; auto.
    rewrite Hrun in H. discriminate.
Qed.

(** C1 (amended).  For every input of at least three points: whenever the
    estimator returns a normal and a centroid and the centroid is farther
    than 1e-6 from the reference centre, the dot product of the normal
    with (centroid - reference centre) is non-negative.  The estimator
    returns whenever the host normalizes the first cross product handed to
    it, its null length being at most the 1e-6 of the guards. *)
Theorem sign_resolution_from_three_points (null_length : R)
  (self : EdgeDataCollector) (vertices : list Vector) :
  (3 <= length vertices)%nat ->
  (forall normal centroid,
     calculate_robust_plane_normal_and_placement null_length self vertices
     = Ok (normal, centroid) ->
     Length (sub centroid (edge_mass_center self)) > 1e-6 ->
     dot normal (sub centroid (edge_mass_center self)) >= 0)
  /\ (null_length <= 1e-6 ->
      normalizable null_length vertices ->
      exists normal centroid,
        calculate_robust_plane_normal_and_placement null_length self vertices
        = Ok (normal, centroid)).
Proof.
  intro H3. split; [| apply estimator_returns].
  intros normal centroid Hrun.
  destruct (estimator_cases null_length self vertices H3)
    as [(_ & Hrun')
       | [(_ & _ & Hrun')
         | (_ & before & w & after & _ & _ & _ & _ & _ & Hrun')]];
    rewrite Hrun' in Hrun; [discriminate | |];
    apply after_sign_returned in Hrun; destruct Hrun as (-> & Hsign);
    exact (proj2 (resolve_sign_returned _ _ _ _ _ Hsign)).
Qed.

Lemma sign_resolution_from_three_points_witness :
  (forall normal centroid,
     calculate_robust_plane_normal_and_placement 1e-7
       (mkCollector (mkVector 0 0 0))
       [mkVector 0 0 0; mkVector 1 0 0; mkVector 0 1 0]
     = Ok (normal, centroid) ->
     Length (sub centroid (mkVector 0 0 0)) > 1e-6 ->
     dot normal (sub centroid (mkVector 0 0 0)) >= 0)
  /\ exists normal centroid,
       calculate_robust_plane_normal_and_placement 1e-7
         (mkCollector (mkVector 0 0 0))
         [mkVector 0 0 0; mkVector 1 0 0; mkVector 0 1 0]
       = Ok (normal, centroid).
Proof.
  destruct (sign_resolution_from_three_points 1e-7
              (mkCollector (mkVector 0 0 0))
              [mkVector 0 0 0; mkVector 1 0 0; mkVector 0 1 0])
    as (Hsign & Hret); [simpl; lia |].
  split; [exact Hsign |].
  apply Hret; [lra | apply unit_triangle_normalizable; lra].
Defined.

(** C1 as stated fails below three points: one edge of a body whose mass
    centre is [(0,0,5)] yields the default normal [(0,0,1)] and centroid
    [(0,0,0)], at distance 5 from the reference and with dot product -5
    (here for a host with null length 1e-7; no vector is normalized). *)
Lemma sign_resolution_two_points_negative :
  calculate_robust_plane_normal_and_placement 1e-7
    (mkCollector (mkVector 0 0 5)) [mkVector 0 0 0; mkVector 1 0 0]
  = Ok (mkVector 0 0 1, mkVector 0 0 0)
  /\ Length (sub (mkVector 0 0 0) (mkVector 0 0 5)) > 1e-6
  /\ dot (mkVector 0 0 1) (sub (mkVector 0 0 0) (mkVector 0 0 5)) < 0.
Proof.
  split; [reflexivity |]. split.
  - rewrite (Length_of_square _ 5); [lra | lra | vec_simpl; lra].
  - vec_simpl. lra.
Qed.

(** Points on one line: every cross product vanishes, the loop finds
    nothing, and the fallback normal goes through sign resolution. *)
Lemma collinear_result (null_length : R) (self : EdgeDataCollector)
  (vertices : list Vector) :
  (3 <= length vertices)%nat ->
  null_length <= 1e-6 ->
  (forall i j k, (i < j /\ j < k /\ k < length vertices)%nat ->
   Length (triple_cross vertices (i, j, k)) = 0) ->
  calculate_robust_plane_normal_and_placement null_length self vertices
  = Ok (if gtb (Length (delta_of self (mean vertices))) 1e-6
           && ltb (z (delta_of self (mean vertices))) 0
        then mkVector 0 0 (-1) else mkVector 0 0 1,
        mean vertices).
Proof.
  intros H3 Hnull Hcol.
  destruct (estimator_cases null_length self vertices H3)
    as [(Hno & _)
       | [(_ & _ & Hrun)
         | (_ & before & w & after & Hw & _ & Hsplit & _)]].
  - exfalso. apply Hno. unfold normalizable.
    destruct (first_normalized vertices) as [[[i j] k] |] eqn:Hf;
      [| exact I].
    destruct (first_normalized_In vertices _ Hf) as (Hin & Hpos).
    apply in_index_triples in Hin. rewrite Hcol in Hpos by exact Hin. lra.
  - rewrite Hrun, resolve_sign_fallback by exact Hnull. reflexivity.
  - exfalso. destruct w as [[i j] k].
    assert (Hin : In (i, j, k) (index_triples (length vertices)))
      by (rewrite Hsplit; apply in_or_app; right; left; reflexivity).
    apply in_index_triples in Hin. rewrite Hcol in Hw by exact Hin. lra.
Qed.

(** C4 (amended).  The estimator returns a defined fallback instead of
    raising when the input defines no plane: for fewer than three points
    the normal (0,0,1) and the centroid (0,0,0); for three or more points
    on one line (every triple's cross product has zero magnitude) the mean
    as centroid and the normal (0,0,1), which sign resolution turns into
    (0,0,-1) when the centroid is farther than 1e-6 from the reference
    centre and lies below it in z.  Sign resolution normalizes behind its
    1e-6 guard; the host's null length is at most that. *)
Theorem estimator_fallback (null_length : R) (self : EdgeDataCollector)
  (vertices : list Vector) :
  ((length vertices < 3)%nat ->
   calculate_robust_plane_normal_and_placement null_length self vertices
   = Ok (mkVector 0 0 1, mkVector 0 0 0))
  /\ ((3 <= length vertices)%nat ->
      null_length <= 1e-6 ->
      (forall i j k, (i < j /\ j < k /\ k < length vertices)%nat ->
       Length (triple_cross vertices (i, j, k)) = 0) ->
      calculate_robust_plane_normal_and_placement null_length self vertices
      = Ok (if gtb (Length (delta_of self (mean vertices))) 1e-6
               && ltb (z (delta_of self (mean vertices))) 0
            then mkVector 0 0 (-1) else mkVector 0 0 1,
            mean vertices)).
Proof.
  split.
  - intro H. unfold calculate_robust_plane_normal_and_placement.
    apply Nat.ltb_lt in H. rewrite H. reflexivity.
  - apply collinear_result.
Qed.

(** Three points on the x axis: the only triple is (0,1,2). *)
Lemma x_axis_points_collinear (a b c : R) :
  forall i j k,
    (i < j /\ j < k /\
     k < length [mkVector a 0 0; mkVector b 0 0; mkVector c 0 0])%nat ->
    Length (triple_cross [mkVector a 0 0; mkVector b 0 0; mkVector c 0 0]
                         (i, j, k)) = 0.
Proof.
  intros i j k H. simpl in H.
  assert (i = 0 /\ j = 1 /\ k = 2)%nat as (-> & -> & ->) by lia.
  apply Length_zero. apply vector_eq; unfold triple_cross, at_index;
    vec_simpl; ring.
Qed.

Lemma estimator_fallback_witness :
  calculate_robust_plane_normal_and_placement 1e-7
    (mkCollector (mkVector 0 0 0)) [mkVector 0 0 0; mkVector 1 0 0]
  = Ok (mkVector 0 0 1, mkVector 0 0 0)
  /\ calculate_robust_plane_normal_and_placement 1e-7
       (mkCollector (mkVector 0 0 0))
       [mkVector 0 0 0; mkVector 1 0 0; mkVector 2 0 0]
     = Ok (if gtb (Length (delta_of (mkCollector (mkVector 0 0 0))
                     (mean [mkVector 0 0 0; mkVector 1 0 0; mkVector 2 0 0])))
                  1e-6
              && ltb (z (delta_of (mkCollector (mkVector 0 0 0))
                     (mean [mkVector 0 0 0; mkVector 1 0 0; mkVector 2 0 0])))
                     0
           then mkVector 0 0 (-1) else mkVector 0 0 1,
           mean [mkVector 0 0 0; mkVector 1 0 0; mkVector 2 0 0]).
Proof.
  split.
  - apply (proj1 (estimator_fallback 1e-7 (mkCollector (mkVector 0 0 0))
                    [mkVector 0 0 0; mkVector 1 0 0])).
    simpl. lia.
  - apply (proj2 (estimator_fallback 1e-7 (mkCollector (mkVector 0 0 0))
                    [mkVector 0 0 0; mkVector 1 0 0; mkVector 2 0 0])).
    + simpl. lia.
    + lra.
    + apply x_axis_points_collinear.
Defined.

(** Three points on the z axis below the origin. *)
Lemma z_axis_points_collinear :
  forall i j k,
    (i < j /\ j < k /\
     k < length [mkVector 0 0 (-1); mkVector 0 0 (-2); mkVector 0 0 (-3)])%nat ->
    Length (triple_cross
              [mkVector 0 0 (-1); mkVector 0 0 (-2); mkVector 0 0 (-3)]
              (i, j, k)) = 0.
Proof.
  intros i j k H. simpl in H.
  assert (i = 0 /\ j = 1 /\ k = 2)%nat as (-> & -> & ->) by lia.
  apply Length_zero. apply vector_eq; unfold triple_cross, at_index;
    vec_simpl; ring.
Qed.

(** C4 as stated fails: three collinear points below the reference centre
    (here the default reference (0,0,0), and a host with null length
    1e-7) get the normal (0,0,-1). *)
Lemma collinear_normal_flipped :
  calculate_robust_plane_normal_and_placement 1e-7
    (mkCollector (mkVector 0 0 0))
    [mkVector 0 0 (-1); mkVector 0 0 (-2); mkVector 0 0 (-3)]
  = Ok (mkVector 0 0 (-1), mkVector 0 0 (-2))
  /\ mkVector 0 0 (-1) <> mkVector 0 0 1.
Proof.
  split.
  - rewrite collinear_result;
      [| simpl; lia | lra | apply z_axis_points_collinear].
    assert (Hm : mean [mkVector 0 0 (-1); mkVector 0 0 (-2); mkVector 0 0 (-3)]
                 = mkVector 0 0 (-2))
      by (apply vector_eq; unfold mean, sum; vec_simpl; field).
    rewrite Hm.
    assert (Hd : delta_of (mkCollector (mkVector 0 0 0)) (mkVector 0 0 (-2))
                 = mkVector 0 0 (-2))
      by (apply vector_eq; unfold delta_of; vec_simpl; ring).
    rewrite Hd.
    assert (Hl : Length (mkVector 0 0 (-2)) = 2)
      by (apply Length_of_square; [lra | vec_simpl; lra]).
    rewrite Hl.
    replace (gtb 2 1e-6) with true by (symmetry; apply gtb_true; lra).
    replace (ltb (z (mkVector 0 0 (-2))) 0) with true
      by (symmetry; apply ltb_true; simpl; lra).
    reflexivity.
  - intro H. apply (f_equal z) in H. simpl in H. lra.
Qed.




(** ** Rotations *)

Lemma Length_z_axis : Length z_axis = 1.
Proof. apply Length_of_square; [lra | unfold z_axis; vec_simpl; lra]. Qed.

Lemma Length_x_axis : Length (mkVector 1 0 0) = 1.
Proof. apply Length_of_square; [lra | vec_simpl; lra]. Qed.

Lemma unit_of_unit (v : Vector) : Length v = 1 -> unit v = v.
Proof.
  intro H. unfold unit. rewrite H. apply vector_eq; vec_simpl; field.
Qed.

Lemma multVec_identity (v : Vector) : Rotation_multVec Rotation_identity v = v.
Proof. apply vector_eq; unfold Rotation_multVec; vec_simpl; ring. Qed.

(** The matrix built from the two linear maps above acts as they do. *)
Lemma multVec_rotate_about (k : Vector) (theta : R) (v : Vector) :
  Rotation_multVec (matrix_of (rotate_about k theta)) v = rotate_about k theta v.
Proof.
  apply vector_eq; unfold Rotation_multVec, matrix_of, rotate_about;
    vec_simpl; ring.
Qed.

Lemma multVec_shortest_arc (u t v : Vector) :
  Rotation_multVec (matrix_of (shortest_arc u t)) v = shortest_arc u t v.
Proof.
  apply vector_eq; unfold Rotation_multVec, matrix_of, shortest_arc;
    vec_simpl; unfold Rdiv; ring.
Qed.

(** Half a turn about world X negates y and z. *)
Lemma multVec_half_turn_x (v : Vector) :
  Rotation_multVec (Rotation_axis_angle (mkVector 1 0 0) 180) v
  = mkVector (x v) (- y v) (- z v).
Proof.
  unfold Rotation_axis_angle. rewrite multVec_rotate_about.
  rewrite (unit_of_unit _ Length_x_axis).
  replace (180 * PI / 180) with PI by field.
  unfold rotate_about. rewrite cos_PI, sin_PI.
  apply vector_eq; vec_simpl; ring.
Qed.

(** The shortest arc from a unit vector [u] to [t] takes [u] to [t]. *)
Lemma shortest_arc_maps (u t : Vector) :
  dot u u = 1 -> shortest_arc u t u = t.
Proof.
  intro H. destruct u as [a b c], t as [d e f].
  unfold shortest_arc. vec_simpl.
  assert (Hw : (b * f - c * e) * a + (c * d - a * f) * b
               + (a * e - b * d) * c = 0) by ring.
  rewrite Hw. unfold Rdiv. rewrite !Rmult_0_l, !Rmult_0_r.
  apply vector_eq; simpl.
  - transitivity (d * (a * a + b * b + c * c)); [ring | rewrite H; ring].
  - transitivity (e * (a * a + b * b + c * c)); [ring | rewrite H; ring].
  - transitivity (f * (a * a + b * b + c * c)); [ring | rewrite H; ring].
Qed.

Lemma multVec_from_to (t : Vector) :
  Length t = 1 -> Rotation_multVec (Rotation_from_to z_axis t) z_axis = t.
Proof.
  intro H. unfold Rotation_from_to. rewrite multVec_shortest_arc.
  rewrite (unit_of_unit _ Length_z_axis), (unit_of_unit _ H).
  apply shortest_arc_maps. unfold z_axis. vec_simpl. ring.
Qed.

(** ** Placement builder *)

(** The normal after line 143: the guard keeps the host's normalization
    from failing. *)
Lemma normalized_input (null_length : R) (normal : Vector) :
  null_length <= 1e-6 ->
  exists n,
    (if gtb (Length normal) 1e-6 then normalize null_length normal
     else Ok (mkVector 0 0 1)) = Ok n
    /\ n = (if gtb (Length normal) 1e-6 then unit normal else mkVector 0 0 1)
    /\ Length n = 1.
Proof.
  intro Hnull. destruct (gtb (Length normal) 1e-6) eqn:Hg.
  - apply gtb_true in Hg. exists (unit normal).
    rewrite normalize_ok by lra. repeat split.
    apply Length_unit. lra.
  - exists (mkVector 0 0 1). repeat split. apply Length_z_axis.
Qed.

Lemma unit_z_bound (n : Vector) : Length n = 1 -> -1 <= z n <= 1.
Proof.
  intro H. pose proof (Length_sqr n) as Hs. rewrite H in Hs.
  destruct n as [a b c]. vec_simpl. nra.
Qed.

(** C5 (amended).  The placement builder never raises and keeps the
    origin, the host's null length being at most the 1e-6 of its guard.
    With [n] the normalized normal ((0,0,1) when the input is not
    longer than 1e-6) it selects: the identity when |n . Z| > 0.999 and
    n.z > 0, which leaves world Z at (0,0,1); half a turn about world X
    when |n . Z| > 0.999 and n.z <= 0, which takes world Z to (0,0,-1);
    the shortest-arc rotation from world Z to n otherwise, which takes
    world Z to n.  In every case the rotated world Z has a dot product
    above 0.999 with n. *)
Theorem placement_rotation (null_length : R) (normal center : Vector) :
  null_length <= 1e-6 ->
  exists n rotation,
    n = (if gtb (Length normal) 1e-6 then unit normal else mkVector 0 0 1)
    /\ create_robust_placement null_length normal center
       = Ok (mkPlacement center rotation)
    /\ ((Rabs (dot n z_axis) > 0.999 /\ z n > 0
         /\ rotation = Rotation_identity
         /\ Rotation_multVec rotation z_axis = mkVector 0 0 1)
        \/ (Rabs (dot n z_axis) > 0.999 /\ z n <= 0
            /\ rotation = Rotation_axis_angle (mkVector 1 0 0) 180
            /\ Rotation_multVec rotation z_axis = mkVector 0 0 (-1))
        \/ (Rabs (dot n z_axis) <= 0.999
            /\ rotation = Rotation_from_to z_axis n
            /\ Rotation_multVec rotation z_axis = n))
    /\ dot (Rotation_multVec rotation z_axis) n > 0.999.
Proof.
  intro Hnull.
  destruct (normalized_input null_length normal Hnull)
    as (n & Hn & Hdef & Hlen).
  exists n, (robust_rotation n). split; [exact Hdef |]. split.
  { unfold create_robust_placement. rewrite Hn. reflexivity. }
  assert (Hz : dot n z_axis = z n) by (unfold z_axis; vec_simpl; ring).
  unfold robust_rotation.
  destruct (gtb (Rabs (dot n z_axis)) 0.999) eqn:Habs.
  - apply gtb_true in Habs.
    destruct (gtb (z n) 0) eqn:Hpos.
    + apply gtb_true in Hpos. split.
      * left. repeat split; auto. apply multVec_identity.
      * rewrite multVec_identity, dot_comm, Hz.
        rewrite Hz, Rabs_right in Habs by lra. exact Habs.
    + apply gtb_false in Hpos. split.
      * right. left. repeat split; auto.
        rewrite multVec_half_turn_x. unfold z_axis. simpl.
        apply vector_eq; simpl; ring.
      * rewrite multVec_half_turn_x. unfold z_axis. vec_simpl.
        rewrite Hz in Habs. unfold Rabs in Habs.
        destruct (Rcase_abs (z n)); lra.
  - apply gtb_false in Habs. split.
    + right. right. repeat split; auto. apply multVec_from_to, Hlen.
    + rewrite (multVec_from_to _ Hlen). rewrite <- Length_sqr, Hlen. lra.
Qed.

Lemma placement_rotation_witness :
  exists n rotation,
    n = (if gtb (Length (mkVector 0 3 4)) 1e-6 then unit (mkVector 0 3 4)
         else mkVector 0 0 1)
    /\ create_robust_placement 1e-7 (mkVector 0 3 4) (mkVector 1 2 3)
       = Ok (mkPlacement (mkVector 1 2 3) rotation)
    /\ dot (Rotation_multVec rotation z_axis) n > 0.999.
Proof.
  destruct (placement_rotation 1e-7 (mkVector 0 3 4) (mkVector 1 2 3))
    as (n & rotation & Hn & Hrun & _ & Hdot); [lra |].
  exists n, rotation. split; [exact Hn |]. split; [exact Hrun | exact Hdot].
Defined.

(** C5 as stated fails in the near-parallel branch: the normal
    (100, 0, 2499) has length 2501 and direction
    (100/2501, 0, 2499/2501) with 2499/2501 > 0.999, so the identity is
    chosen and world Z stays at (0,0,1), which is not that direction
    (here for a host with null length 1e-7). *)
Lemma near_parallel_normal_not_reproduced :
  create_robust_placement 1e-7 (mkVector 100 0 2499) (mkVector 0 0 0)
  = Ok (mkPlacement (mkVector 0 0 0) Rotation_identity)
  /\ normalize 1e-7 (mkVector 100 0 2499)
     = Ok (mkVector (100 / 2501) 0 (2499 / 2501))
  /\ Rotation_multVec Rotation_identity z_axis
     <> mkVector (100 / 2501) 0 (2499 / 2501).
Proof.
  assert (Hl : Length (mkVector 100 0 2499) = 2501)
    by (apply Length_of_square; [lra | vec_simpl; lra]).
  assert (Hu : unit (mkVector 100 0 2499)
               = mkVector (100 / 2501) 0 (2499 / 2501))
    by (unfold unit; rewrite Hl; apply vector_eq; vec_simpl; field).
  assert (Hn : normalize 1e-7 (mkVector 100 0 2499)
               = Ok (mkVector (100 / 2501) 0 (2499 / 2501)))
    by (rewrite normalize_ok, Hu; [reflexivity | rewrite Hl; lra]).
  split; [| split; [exact Hn |]].
  - unfold create_robust_placement. rewrite Hl.
    replace (gtb 2501 1e-6) with true by (symmetry; apply gtb_true; lra).
    rewrite Hn. simpl. unfold robust_rotation.
    assert (Hd : dot (mkVector (100 / 2501) 0 (2499 / 2501)) z_axis
                 = 2499 / 2501)
      by (unfold z_axis; vec_simpl; field).
    rewrite Hd. rewrite Rabs_right by lra.
    replace (gtb (2499 / 2501) 0.999) with true
      by (symmetry; apply gtb_true; lra).
    simpl.
    replace (gtb (2499 / 2501) 0) with true
      by (symmetry; apply gtb_true; lra).
    reflexivity.
  - rewrite multVec_identity. unfold z_axis. intro H.
    apply (f_equal x) in H. simpl in H. lra.
Qed.

(** ** Evaluating [is_close] *)

Lemma is_close_yes (p q : Vector) (tol : R) :
  0 < tol -> dot (sub p q) (sub p q) < tol * tol -> is_close p q tol = true.
Proof.
  intros Ht H. unfold is_close. apply ltb_true. apply Length_lt; assumption.
Qed.

Lemma is_close_no (p q : Vector) (tol : R) :
  0 <= tol -> tol * tol <= dot (sub p q) (sub p q) -> is_close p q tol = false.
Proof.
  intros Ht H. unfold is_close. apply ltb_false.
  pose proof (Length_nonneg (sub p q)) as Hn.
  pose proof (Length_sqr (sub p q)) as Hs. nra.
Qed.

Lemma is_close_iff (p q : Vector) (tol : R) :
  is_close p q tol = true <-> Length (sub p q) < tol.
Proof. unfold is_close. apply ltb_true. Qed.

Lemma is_close_self (p : Vector) (tol : R) : 0 < tol -> is_close p p tol = true.
Proof. intro H. apply is_close_yes; [exact H | vec_simpl; nra]. Qed.

(** Decides every [is_close] on concrete points in the goal. *)
Ltac eval_close :=
  repeat match goal with
  | |- context [is_close ?p ?q ?t] =>
      first
        [ rewrite (is_close_yes p q t)
            by (unfold default_tol, tolerance; vec_simpl; lra)
        | rewrite (is_close_no p q t)
            by (unfold default_tol, tolerance; vec_simpl; lra) ]
  end.

(** ** Planes from a selection *)

Lemma py_index_In {A : Type} (l : list A) (n : nat) (a : A) :
  py_index l n = Some a -> In a l.
Proof.
  destruct n as [| m]; unfold py_index; intro H.
  - apply in_rev. apply (nth_error_In (rev l) 0 H).
  - apply (nth_error_In l m H).
Qed.

Lemma plane_from_edges_spec (e1 e2 : Edge) (pl : Plane) :
  plane_from_edges e1 e2 = inl pl ->
  exists v3,
    In v3 (Vertexes e2)
    /\ is_close v3 (v_first e1) default_tol = false
    /\ is_close v3 (v_last e1) default_tol = false
    /\ plane_normal pl
       = cross (sub (v_last e1) (v_first e1)) (sub v3 (v_first e1))
    /\ plane_point pl = v_first e1
    /\ 1e-6 <= Length (plane_normal pl).
Proof.
  unfold plane_from_edges.
  destruct (filter _ (Vertexes e2)) as [| v3 rest] eqn:Hf; [discriminate |].
  assert (Hin : In v3 (filter
            (fun p => negb (is_close p (v_first e1) default_tol)
                      && negb (is_close p (v_last e1) default_tol))
            (Vertexes e2))) by (rewrite Hf; left; reflexivity).
  apply filter_In in Hin. destruct Hin as (Hin & Hc).
  apply andb_true_iff in Hc. destruct Hc as (Hc1 & Hc2).
  apply negb_true_iff in Hc1, Hc2.
  destruct (ltb (Length _) 1e-6) eqn:Hl; [discriminate |].
  intro H. inversion H; subst; clear H. simpl.
  exists v3. repeat split; auto. apply ltb_false in Hl. exact Hl.
Qed.

(** The membership test against a normal that is not of unit length
    measures the distance to the plane scaled by the normal's length. *)
Lemma membership_scaled (pl : Plane) (tol : R) (pt : Vector) :
  0 < Length (plane_normal pl) ->
  (on_plane pl tol pt
   <-> Rabs (dot (sub pt (plane_point pl)) (unit (plane_normal pl)))
       < tol / Length (plane_normal pl)).
Proof.
  intro Hpos. unfold on_plane, unit. rewrite dot_multiply_r.
  rewrite Rabs_mult, Rabs_inv, (Rabs_right (Length _)) by lra.
  set (d := Rabs (dot (sub pt (plane_point pl)) (plane_normal pl))).
  set (l := Length (plane_normal pl)) in *.
  assert (Hinv : 0 < / l) by (apply Rinv_0_lt_compat; exact Hpos).
  unfold Rdiv. split; intro H.
  - rewrite (Rmult_comm (/ l)). apply Rmult_lt_compat_r; assumption.
  - apply Rmult_lt_reg_r with (/ l); [exact Hinv |].
    rewrite (Rmult_comm d). exact H.
Qed.

(** What the two branches produce.  A plane built from a face has the
    face's surface axis as normal and its centre of mass as point.  A
    plane built from two edges has the cross product (v2 - v1) x (v3 - v1)
    as normal, as computed: its length is at least 1e-6, and the
    membership test against it compares the distance to the plane with
    the tolerance divided by that length. *)
Lemma selection_plane_normal
  (shape : Shape) (names : list SubElementName) (pl : Plane) :
  selection_plane shape names = inl pl ->
  (exists face,
     face_numbers names <> [] /\ In face (Faces shape)
     /\ plane_normal pl = Surface_Axis face
     /\ plane_point pl = CenterOfMass face)
  \/ (exists e1 e2 v3,
        face_numbers names = []
        /\ In e1 (Edges shape) /\ In e2 (Edges shape)
        /\ In v3 (Vertexes e2)
        /\ plane_normal pl
           = cross (sub (v_last e1) (v_first e1)) (sub v3 (v_first e1))
        /\ plane_point pl = v_first e1
        /\ 1e-6 <= Length (plane_normal pl)
        /\ forall tol pt,
             on_plane pl tol pt
             <-> Rabs (dot (sub pt (plane_point pl)) (unit (plane_normal pl)))
                 < tol / Length (plane_normal pl)).
Proof.
  unfold selection_plane.
  destruct (face_numbers names) as [| f fs] eqn:Hfaces.
  - destruct (edge_numbers names) as [| n1 [| n2 rest]]; try discriminate.
    destruct (py_index (Edges shape) n1) as [e1 |] eqn:H1; [| discriminate].
    destruct (py_index (Edges shape) n2) as [e2 |] eqn:H2; [| discriminate].
    destruct (forallb _ rest); [| discriminate].
    intro H. right.
    destruct (plane_from_edges_spec e1 e2 pl H)
      as (v3 & Hin & _ & _ & Hn & Hp & Hlen).
    exists e1, e2, v3. repeat split; eauto using py_index_In.
    + apply membership_scaled; lra.
    + apply membership_scaled; lra.
  - destruct (py_index (Faces shape) f) as [face |] eqn:Hf; [| discriminate].
    intro H. inversion H; subst; clear H. left. exists face. simpl.
    repeat split; eauto using py_index_In. discriminate.
Qed.

(** Two edges of length 2 at a right angle in the plane z = 0. *)
Lemma right_angle_edges_plane :
  selection_plane
    (mkShape [mkEdge (mkVector 0 0 0) (mkVector 2 0 0);
              mkEdge (mkVector 0 0 0) (mkVector 0 2 0)] [])
    [EdgeName 1; EdgeName 2]
  = inl (mkPlane (mkVector 0 0 4) (mkVector 0 0 0)).
Proof.
  unfold selection_plane. simpl. unfold plane_from_edges. simpl.
  eval_close. simpl.
  assert (Hc : cross (sub (mkVector 2 0 0) (mkVector 0 0 0))
                     (sub (mkVector 0 2 0) (mkVector 0 0 0))
               = mkVector 0 0 4)
    by (apply vector_eq; vec_simpl; ring).
  rewrite Hc.
  assert (Hl : Length (mkVector 0 0 4) = 4)
    by (apply Length_of_square; [lra | vec_simpl; lra]).
  rewrite Hl.
  replace (ltb 4 1e-6) with false by (symmetry; apply ltb_false; lra).
  reflexivity.
Qed.

Example selection_plane_normal_right_angle :
  (exists face,
     face_numbers [EdgeName 1; EdgeName 2] <> []
     /\ In face (@nil Face)
     /\ mkVector 0 0 4 = Surface_Axis face
     /\ mkVector 0 0 0 = CenterOfMass face)
  \/ (exists e1 e2 v3,
        face_numbers [EdgeName 1; EdgeName 2] = []
        /\ In e1 [mkEdge (mkVector 0 0 0) (mkVector 2 0 0);
                  mkEdge (mkVector 0 0 0) (mkVector 0 2 0)]
        /\ In e2 [mkEdge (mkVector 0 0 0) (mkVector 2 0 0);
                  mkEdge (mkVector 0 0 0) (mkVector 0 2 0)]
        /\ In v3 (Vertexes e2)
        /\ mkVector 0 0 4
           = cross (sub (v_last e1) (v_first e1)) (sub v3 (v_first e1))
        /\ mkVector 0 0 0 = v_first e1
        /\ 1e-6 <= Length (mkVector 0 0 4)
        /\ forall tol pt,
             on_plane (mkPlane (mkVector 0 0 4) (mkVector 0 0 0)) tol pt
             <-> Rabs (dot (sub pt (mkVector 0 0 0)) (unit (mkVector 0 0 4)))
                 < tol / Length (mkVector 0 0 4)).
Proof.
  apply (selection_plane_normal
           (mkShape [mkEdge (mkVector 0 0 0) (mkVector 2 0 0);
                     mkEdge (mkVector 0 0 0) (mkVector 0 2 0)] [])
           [EdgeName 1; EdgeName 2]
           (mkPlane (mkVector 0 0 4) (mkVector 0 0 0))).
  apply right_angle_edges_plane.
Qed.

(** C6.  Every plane of the face / edge-pair entry point should have a
    normal of length 1, so that the membership test measures a distance.
    The edge-pair branch does not normalize its cross product: the edges
    (0,0,0)-(2,0,0) and (0,0,0)-(0,2,0) give the plane through the origin
    with normal (0,0,4), of length 4, and against it a point 0.0005 above
    the plane fails the membership test at 0.001. *)
Theorem edge_pair_normal_not_unit :
  selection_plane
    (mkShape [mkEdge (mkVector 0 0 0) (mkVector 2 0 0);
              mkEdge (mkVector 0 0 0) (mkVector 0 2 0)] [])
    [EdgeName 1; EdgeName 2]
  = inl (mkPlane (mkVector 0 0 4) (mkVector 0 0 0))
  /\ Length (mkVector 0 0 4) = 4
  /\ ~ on_plane (mkPlane (mkVector 0 0 4) (mkVector 0 0 0)) membership_tol
                (mkVector 0 0 0.0005).
Proof.
  split; [apply right_angle_edges_plane |]. split.
  - apply Length_of_square; [lra | vec_simpl; lra].
  - unfold on_plane, membership_tol. vec_simpl.
    rewrite Rabs_right by lra. lra.
Qed.

(** ** Coplanarity classifier *)

Lemma is_coplanar_iff (pl : Plane) (e : Edge) :
  is_coplanar pl e = true
  <-> on_plane pl membership_tol (v_first e)
      /\ on_plane pl membership_tol (v_last e).
Proof.
  unfold is_coplanar, on_plane. simpl.
  rewrite !andb_true_iff, !ltb_true. tauto.
Qed.

(** C7 (amended).  For every edge sequence and reference plane the
    classifier returns exactly the input edges both of whose end points
    pass the plane-membership test at the fixed tolerance 0.001 (an edge
    with one end point off the plane is excluded), in input order: the
    result of a concatenation is the concatenation of the results.  It is
    a function of its arguments alone, and no edges give no edges. *)
Theorem classifier_is_filter (edges : list Edge) (pl : Plane) :
  (forall e,
     In e (coplanar_edges edges pl)
     <-> In e edges
         /\ on_plane pl membership_tol (v_first e)
         /\ on_plane pl membership_tol (v_last e))
  /\ (forall e,
        ~ on_plane pl membership_tol (v_first e)
        \/ ~ on_plane pl membership_tol (v_last e) ->
        ~ In e (coplanar_edges edges pl))
  /\ (forall l1 l2,
        edges = l1 ++ l2 ->
        coplanar_edges edges pl = coplanar_edges l1 pl ++ coplanar_edges l2 pl)
  /\ (forall e, coplanar_edges [e] pl = [e] \/ coplanar_edges [e] pl = [])
  /\ coplanar_edges [] pl = [].
Proof.
  unfold coplanar_edges. split; [| split; [| split; [| split]]].
  - intro e. rewrite filter_In, is_coplanar_iff. tauto.
  - intros e Hoff Hin. apply filter_In in Hin. destruct Hin as (_ & Hc).
    apply is_coplanar_iff in Hc. tauto.
  - intros l1 l2 ->. apply filter_app.
  - intro e. simpl. destruct (is_coplanar pl e); auto.
  - reflexivity.
Qed.

Lemma classifier_is_filter_witness :
  coplanar_edges
    [mkEdge (mkVector 0 0 0) (mkVector 1 0 0);
     mkEdge (mkVector 1 0 0) (mkVector 1 0 1)]
    (mkPlane (mkVector 0 0 1) (mkVector 0 0 0))
  = coplanar_edges [mkEdge (mkVector 0 0 0) (mkVector 1 0 0)]
                   (mkPlane (mkVector 0 0 1) (mkVector 0 0 0))
    ++ coplanar_edges [mkEdge (mkVector 1 0 0) (mkVector 1 0 1)]
                      (mkPlane (mkVector 0 0 1) (mkVector 0 0 0))
  /\ ~ In (mkEdge (mkVector 1 0 0) (mkVector 1 0 1))
          (coplanar_edges
             [mkEdge (mkVector 0 0 0) (mkVector 1 0 0);
              mkEdge (mkVector 1 0 0) (mkVector 1 0 1)]
             (mkPlane (mkVector 0 0 1) (mkVector 0 0 0))).
Proof.
  pose proof (classifier_is_filter
                [mkEdge (mkVector 0 0 0) (mkVector 1 0 0);
                 mkEdge (mkVector 1 0 0) (mkVector 1 0 1)]
                (mkPlane (mkVector 0 0 1) (mkVector 0 0 0)))
    as (_ & Hoff & Happ & _).
  split.
  - apply Happ. reflexivity.
  - apply Hoff. right. unfold on_plane, membership_tol. vec_simpl.
    rewrite Rabs_right by lra. lra.
Defined.

(** C7 as stated fails for a tolerance other than 0.001: an edge 0.1 above
    the plane z = 0 passes the membership test at tolerance 1/2 at both
    ends, and the classifier, whose tolerance is not an input, leaves it
    out. *)
Lemma classifier_tolerance_is_fixed :
  on_plane (mkPlane (mkVector 0 0 1) (mkVector 0 0 0)) (1 / 2)
           (mkVector 0 0 0.1)
  /\ on_plane (mkPlane (mkVector 0 0 1) (mkVector 0 0 0)) (1 / 2)
              (mkVector 1 0 0.1)
  /\ coplanar_edges [mkEdge (mkVector 0 0 0.1) (mkVector 1 0 0.1)]
                    (mkPlane (mkVector 0 0 1) (mkVector 0 0 0))
     = [].
Proof.
  repeat split.
  - unfold on_plane. vec_simpl. rewrite Rabs_right by lra. lra.
  - unfold on_plane. vec_simpl. rewrite Rabs_right by lra. lra.
  - unfold coplanar_edges. simpl.
    replace (is_coplanar _ _) with false; [reflexivity |].
    symmetry. apply not_true_iff_false. intro H.
    apply is_coplanar_iff in H. destruct H as (H & _).
    unfold on_plane, membership_tol in H. vec_simpl.
    rewrite Rabs_right in H by lra. lra.
Qed.

(** ** Per-edge emission *)

Lemma for_each_app {S E : Type} (body : S -> E -> result S)
  (l1 l2 : list E) (s : S) :
  for_each body (l1 ++ l2) s = (s' <- for_each body l1 s ;; for_each body l2 s').
Proof.
  revert s. induction l1 as [| e l1 IH]; intro s; simpl; [reflexivity |].
  destruct (body s e); simpl; [apply IH | reflexivity].
Qed.

Section Frame.

Variable host : Host.

(** A degenerate edge leaves the sketch, the vertex map and the block
    constraints alone; only a warning is printed. *)
Lemma edge_body_degenerate (d : Draft) (e : Edge) :
  degenerate e = true ->
  edge_body host d e
  = Ok (mkDraft (final_sketch d) (vertex_map d) (block_constraints d)
                (console d ++ [WarnDegenerate (v_first e)])).
Proof.
  unfold degenerate, edge_body. intros ->. reflexivity.
Qed.

Lemma same_draft_refl (d : Draft) : same_draft d d.
Proof. repeat split. Qed.

Lemma same_result_refl {A : Type} (R : A -> A -> Prop) (r : result A) :
  (forall a, R a a) -> same_result R r r.
Proof. intro H. destruct r; simpl; auto. Qed.

Lemma edge_body_same (d d' : Draft) (e : Edge) :
  same_draft d d' ->
  same_result same_draft (edge_body host d e) (edge_body host d' e).
Proof.
  destruct d as [sk vm bc co], d' as [sk' vm' bc' co'].
  intros (Hs & Hv & Hb). simpl in Hs, Hv, Hb. subst sk' vm' bc'.
  unfold edge_body. simpl.
  destruct (is_close (v_first e) (v_last e) tolerance); simpl.
  - repeat split.
  - destruct (addConstraint host _ _) as [[sk3 idx] | ex]; simpl;
      [repeat split | reflexivity].
Qed.

Lemma emission_same (l : list Edge) :
  forall d d',
    same_draft d d' ->
    same_result same_draft (for_each (edge_body host) l d)
                           (for_each (edge_body host) l d').
Proof.
  induction l as [| e l IH]; intros d d' H; simpl; [exact H |].
  pose proof (edge_body_same d d' e H) as Hb.
  destruct (edge_body host d e) as [d1 | ex],
           (edge_body host d' e) as [d1' | ex']; simpl in *;
    try contradiction; auto.
Qed.

(** Emission with a degenerate edge in the list agrees, up to the console,
    with emission without it. *)
Lemma emission_skips (sk : SketchObject) (l1 l2 : list Edge) (e : Edge) :
  degenerate e = true ->
  same_result same_draft (emit_edges host sk (l1 ++ e :: l2))
                         (emit_edges host sk (l1 ++ l2)).
Proof.
  intro Hdeg. unfold emit_edges. rewrite !for_each_app.
  destruct (for_each (edge_body host) l1 (mkDraft sk [] [] [])) as [d | ex];
    simpl; [| reflexivity].
  rewrite edge_body_degenerate by exact Hdeg. simpl.
  apply emission_same. repeat split.
Qed.

(** ** Coincidence synthesis does not read the console *)

Lemma coincident_try_same (k : Key) (first next : Ref) (s s' : Stitch) :
  same_stitch s s' ->
  same_stitch (coincident_try host k first s next)
              (coincident_try host k first s' next).
Proof.
  intros (Hs & Hc). unfold coincident_try. rewrite Hs, Hc.
  destruct (addConstraint host (stitched s') _) as [[sk idx] | ex];
    split; reflexivity.
Qed.

Lemma coincident_group_same (item : Key * list Ref) (s s' : Stitch) :
  same_stitch s s' ->
  same_stitch (coincident_group host s item) (coincident_group host s' item).
Proof.
  destruct item as [k refs]. unfold coincident_group.
  destruct (1 <? length refs)%nat; [| auto].
  destruct refs as [| first rest]; [auto |].
  revert s s'. induction rest as [| next rest IH]; intros s s' H; simpl;
    [exact H |].
  apply IH, coincident_try_same, H.
Qed.

Lemma add_coincidences_same (sk : SketchObject) (c c' : list Msg)
  (vm : VertexMap) :
  same_stitch (add_coincidences host sk c vm) (add_coincidences host sk c' vm).
Proof.
  unfold add_coincidences.
  assert (H : same_stitch (mkStitch sk 0 c) (mkStitch sk 0 c'))
    by (split; reflexivity).
  revert H. generalize (mkStitch sk 0 c) (mkStitch sk 0 c').
  induction vm as [| item vm IH]; intros s s' H; simpl; [exact H |].
  apply IH, coincident_group_same, H.
Qed.

End Frame.

(** C10 (amended).  An edge whose two global end points are closer than
    0.001 is skipped: its loop step creates no line segment and no block
    constraint and registers nothing in the vertex map, whatever the state
    of the draft; and synthesis on a given destination sketch yields the
    same sketch (segments and constraints), the same vertex groups, block
    constraints and coincidence count, or the same exception, as
    synthesis on the edge list without that edge.  (The destination
    placement is not part of this: it is computed before, from the
    vertices of all selected edges.) *)
Theorem degenerate_edge_is_skipped (host : Host) (sk : SketchObject)
  (l1 l2 : list Edge) (e : Edge) :
  Length (sub (v_first e) (v_last e)) < tolerance ->
  (forall d,
     exists d',
       edge_body host d e = Ok d'
       /\ final_sketch d' = final_sketch d
       /\ vertex_map d' = vertex_map d
       /\ block_constraints d' = block_constraints d)
  /\ same_result same_synthesis (synthesize host sk (l1 ++ e :: l2))
                                (synthesize host sk (l1 ++ l2)).
Proof.
  intro Hlen.
  assert (Hdeg : degenerate e = true) by (apply is_close_iff; exact Hlen).
  split.
  - intro d. eexists. split; [apply edge_body_degenerate, Hdeg |].
    repeat split.
  - pose proof (emission_skips host sk l1 l2 e Hdeg) as H.
    unfold synthesize.
    destruct (emit_edges host sk (l1 ++ e :: l2)) as [d | ex],
             (emit_edges host sk (l1 ++ l2)) as [d' | ex']; simpl in *;
      try contradiction; auto.
    destruct H as (Hs & Hv & Hb). rewrite Hs, Hv, Hb.
    destruct (add_coincidences_same host (final_sketch d') (console d)
                (console d') (vertex_map d')) as (Hst & Hca).
    rewrite Hst, Hca.
    destruct (hide_blocks host _ (block_constraints d')) as [sk' vis].
    simpl. repeat split.
Qed.

Lemma degenerate_edge_is_skipped_witness :
  (forall d,
     exists d',
       edge_body accept_all d (mkEdge (mkVector 1 0 0) (mkVector 1 0 0))
       = Ok d'
       /\ final_sketch d' = final_sketch d
       /\ vertex_map d' = vertex_map d
       /\ block_constraints d' = block_constraints d)
  /\ same_result same_synthesis
       (synthesize accept_all (mkSketch Placement_identity [] [])
          ([mkEdge (mkVector 0 0 0) (mkVector 1 0 0)]
           ++ mkEdge (mkVector 1 0 0) (mkVector 1 0 0)
              :: [mkEdge (mkVector 1 0 0) (mkVector 1 1 0)]))
       (synthesize accept_all (mkSketch Placement_identity [] [])
          ([mkEdge (mkVector 0 0 0) (mkVector 1 0 0)]
           ++ [mkEdge (mkVector 1 0 0) (mkVector 1 1 0)])).
Proof.
  apply (degenerate_edge_is_skipped accept_all
           (mkSketch Placement_identity [] [])
           [mkEdge (mkVector 0 0 0) (mkVector 1 0 0)]
           [mkEdge (mkVector 1 0 0) (mkVector 1 1 0)]
           (mkEdge (mkVector 1 0 0) (mkVector 1 0 0))).
  apply Length_lt; unfold tolerance; [lra | vec_simpl; lra].
Defined.

(** ** The vertex map *)

Lemma key_eqb_eq (k1 k2 : Key) : key_eqb k1 k2 = true <-> k1 = k2.
Proof.
  destruct k1 as [[a1 b1] c1], k2 as [[a2 b2] c2]. unfold key_eqb.
  destruct (Req_dec_T a1 a2), (Req_dec_T b1 b2), (Req_dec_T c1 c2);
    simpl; split; intro H; try discriminate; try congruence; subst; auto.
Qed.

Lemma key_eqb_refl (k : Key) : key_eqb k k = true.
Proof. apply key_eqb_eq. reflexivity. Qed.

Lemma key_eqb_neq (k1 k2 : Key) : k1 <> k2 -> key_eqb k1 k2 = false.
Proof.
  intro H. apply not_true_iff_false. rewrite key_eqb_eq. exact H.
Qed.

Lemma vector_of_key (pt : Vector) : vector_of (key_of pt) = pt.
Proof. destruct pt. reflexivity. Qed.

Lemma tolerance_pos : 0 < tolerance.
Proof. unfold tolerance. lra. Qed.

Lemma close_to_own_key (pt : Vector) :
  is_close pt (vector_of (key_of pt)) tolerance = true.
Proof. rewrite vector_of_key. apply is_close_self, tolerance_pos. Qed.

(** The scan either finds no close key, or a first one. *)
Lemma first_close_split (pt : Vector) (vm : VertexMap) :
  none_close pt vm
  \/ exists before k refs after,
       vm = before ++ (k, refs) :: after
       /\ none_close pt before
       /\ is_close pt (vector_of k) tolerance = true.
Proof.
  induction vm as [| [k refs] vm IH].
  - left. constructor.
  - destruct (is_close pt (vector_of k) tolerance) eqn:Hk.
    + right. exists [], k, refs, vm. repeat split; [constructor | exact Hk].
    + destruct IH as [Hnone | (before & k' & refs' & after & -> & Hb & Hc)].
      * left. constructor; assumption.
      * right. exists ((k, refs) :: before), k', refs', after.
        repeat split; [constructor; assumption | exact Hc].
Qed.

Lemma find_key_first (pt : Vector) (before after : VertexMap)
  (k : Key) (refs : list Ref) :
  none_close pt before ->
  is_close pt (vector_of k) tolerance = true ->
  find_key (before ++ (k, refs) :: after) pt = Some k.
Proof.
  intros Hb Hk. unfold find_key.
  induction Hb as [| e before He Hb IH]; simpl.
  - rewrite Hk. reflexivity.
  - rewrite He. exact IH.
Qed.

Lemma find_key_none (pt : Vector) (vm : VertexMap) :
  none_close pt vm -> find_key vm pt = None.
Proof.
  intro H. unfold find_key.
  induction H as [| e vm He Hvm IH]; simpl; [reflexivity |].
  rewrite He. exact IH.
Qed.

Lemma map_unchanged {A : Type} (f : A -> A) (l : list A) :
  (forall a, In a l -> f a = a) -> map f l = l.
Proof.
  intro H. induction l as [| a l IH]; simpl; [reflexivity |].
  rewrite H by (left; reflexivity).
  rewrite IH by (intros b Hb; apply H; right; exact Hb). reflexivity.
Qed.

Lemma dict_append_at (before after : VertexMap) (k : Key)
  (refs : list Ref) (r : Ref) :
  NoDup (map fst (before ++ (k, refs) :: after)) ->
  dict_append (before ++ (k, refs) :: after) k r
  = before ++ (k, refs ++ [r]) :: after.
Proof.
  intro Hnd. unfold dict_append. rewrite map_app. simpl.
  rewrite key_eqb_refl.
  rewrite map_app in Hnd. simpl in Hnd.
  apply NoDup_remove_2 in Hnd.
  rewrite !map_unchanged; [reflexivity | |].
  - intros e He. rewrite key_eqb_neq; [reflexivity |].
    intros <-. apply Hnd, in_or_app. right. apply in_map, He.
  - intros e He. rewrite key_eqb_neq; [reflexivity |].
    intros <-. apply Hnd, in_or_app. left. apply in_map, He.
Qed.

Lemma not_close_key_fresh (pt : Vector) (vm : VertexMap) :
  none_close pt vm -> ~ In (key_of pt) (map fst vm).
Proof.
  intros Hnone Hin. apply in_map_iff in Hin.
  destruct Hin as (e & He & Hin).
  unfold none_close in Hnone. rewrite Forall_forall in Hnone.
  specialize (Hnone e Hin). rewrite He, close_to_own_key in Hnone.
  discriminate.
Qed.

Lemma dict_set_fresh (vm : VertexMap) (k : Key) (v : list Ref) :
  ~ In k (map fst vm) -> dict_set vm k v = vm ++ [(k, v)].
Proof.
  intro Hk. unfold dict_set.
  replace (existsb (fun e => key_eqb (fst e) k) vm) with false;
    [reflexivity |].
  symmetry. apply not_true_iff_false. intro H.
  apply existsb_exists in H. destruct H as (e & Hin & He).
  apply key_eqb_eq in He. apply Hk. rewrite <- He. apply in_map, Hin.
Qed.

(** The merge rule: the first key within tolerance, in insertion order,
    receives the reference; other groups are untouched. *)
Lemma register_merges (g vid : nat) (pt : Vector)
  (before after : VertexMap) (k : Key) (refs : list Ref) :
  NoDup (map fst (before ++ (k, refs) :: after)) ->
  none_close pt before ->
  is_close pt (vector_of k) tolerance = true ->
  register g (before ++ (k, refs) :: after) (pt, vid)
  = before ++ (k, refs ++ [(g, vid)]) :: after.
Proof.
  intros Hnd Hb Hk. unfold register.
  rewrite (find_key_first pt before after k refs Hb Hk).
  apply dict_append_at, Hnd.
Qed.

(** Otherwise the point founds a new group, keyed by itself, at the end. *)
Lemma register_founds (g vid : nat) (pt : Vector) (vm : VertexMap) :
  none_close pt vm ->
  register g vm (pt, vid) = vm ++ [(key_of pt, [(g, vid)])].
Proof.
  intro Hnone. unfold register. rewrite (find_key_none pt vm Hnone).
  apply dict_set_fresh, not_close_key_fresh, Hnone.
Qed.

Lemma ref_within_grow (em : list Edge) (e : Edge) (key : Key) (r : Ref) :
  ref_within em key r -> ref_within (em ++ [e]) key r.
Proof.
  intros (edge & Hn & Hv & Hc). exists edge. repeat split; auto.
  rewrite nth_error_app1; [exact Hn |].
  apply nth_error_Some. rewrite Hn. discriminate.
Qed.

Lemma groups_ok_grow (em : list Edge) (e : Edge) (vm : VertexMap) :
  groups_ok em vm -> groups_ok (em ++ [e]) vm.
Proof.
  intros (Hnd & Hall). split; [exact Hnd |].
  intros key refs Hin. destruct (Hall key refs Hin) as (Hne & Hr).
  split; [exact Hne |]. intros r Hr'. apply ref_within_grow, Hr, Hr'.
Qed.

(** Registering an end point of an emitted edge keeps the groups sound. *)
Lemma register_keeps (em : list Edge) (vm : VertexMap) (g vid : nat)
  (edge : Edge) :
  groups_ok em vm ->
  nth_error em g = Some edge ->
  (vid = 1 \/ vid = 2)%nat ->
  groups_ok em (register g vm (endpoint edge vid, vid)).
Proof.
  intros (Hnd & Hall) Hn Hv.
  set (pt := endpoint edge vid).
  destruct (first_close_split pt vm)
    as [Hnone | (before & k & refs & after & -> & Hb & Hk)].
  - rewrite register_founds by exact Hnone. split.
    + rewrite map_app. simpl. apply NoDup_app.
      * exact Hnd.
      * repeat constructor. intros [].
      * intros a Ha [<- | []].
        exact (not_close_key_fresh pt vm Hnone Ha).
    + intros key refs Hin. apply in_app_or in Hin.
      destruct Hin as [Hin | [Heq | []]]; [apply Hall, Hin |].
      inversion Heq; subst key refs; clear Heq.
      split; [discriminate |]. intros r [<- | []].
      exists edge. simpl. repeat split; auto.
      apply is_close_iff, close_to_own_key.
  - rewrite register_merges by assumption. split.
    + rewrite map_app in *. simpl in *. exact Hnd.
    + intros key refs' Hin. apply in_app_or in Hin.
      destruct Hin as [Hin | [Heq | Hin]].
      * apply Hall, in_or_app. left. exact Hin.
      * inversion Heq; subst key refs'; clear Heq.
        destruct (Hall k refs) as (Hne & Hr);
          [apply in_or_app; right; left; reflexivity |].
        split; [destruct refs; discriminate |].
        intros r Hr'. apply in_app_or in Hr'.
        destruct Hr' as [Hr' | [<- | []]]; [apply Hr, Hr' |].
        exists edge. simpl. repeat split; auto.
        apply is_close_iff, Hk.
      * apply Hall, in_or_app. right. right. exact Hin.
Qed.

Lemma set_flag_length {A : Type} (l : list (A * bool)) (idx : nat) (b : bool) :
  length (set_flag l idx b) = length l.
Proof.
  revert idx. induction l as [| [a f] l IH]; intros [| i]; simpl; auto.
Qed.

Lemma emitted_snoc (l : list Edge) (e : Edge) :
  emitted (l ++ [e])
  = emitted l ++ (if degenerate e then [] else [e]).
Proof.
  unfold emitted. rewrite filter_app. simpl.
  destruct (degenerate e); reflexivity.
Qed.

(** One loop step keeps the segment count equal to the number of emitted
    edges and the groups sound. *)
Lemma edge_body_keeps (host : Host) (done : list Edge) (d d' : Draft)
  (e : Edge) :
  length (Geometry (final_sketch d)) = length (emitted done) ->
  groups_ok (emitted done) (vertex_map d) ->
  edge_body host d e = Ok d' ->
  length (Geometry (final_sketch d')) = length (emitted (done ++ [e]))
  /\ groups_ok (emitted (done ++ [e])) (vertex_map d').
Proof.
  intros Hlen Hok. rewrite emitted_snoc. unfold edge_body.
  fold (degenerate e). destruct (degenerate e) eqn:Hdeg.
  - intro H. inversion H; subst; clear H. simpl.
    rewrite app_nil_r. split; assumption.
  - unfold addGeometry, setConstruction, addConstraint. simpl.
    destruct (accepts host _ _); simpl; [| discriminate].
    intro H. inversion H; subst; clear H. simpl.
    rewrite set_flag_length, !length_app, Hlen. simpl.
    split; [reflexivity |].
    assert (Hn : nth_error (emitted done ++ [e]) (length (emitted done))
                 = Some e).
    { rewrite nth_error_app2, Nat.sub_diag by lia. reflexivity. }
    apply (register_keeps _ _ _ 2%nat e); [| exact Hn | auto].
    apply (register_keeps _ _ _ 1%nat e); [| exact Hn | auto].
    apply groups_ok_grow, Hok.
Qed.

Lemma emission_keeps (host : Host) (l : list Edge) :
  forall (done : list Edge) (d d' : Draft),
    length (Geometry (final_sketch d)) = length (emitted done) ->
    groups_ok (emitted done) (vertex_map d) ->
    for_each (edge_body host) l d = Ok d' ->
    length (Geometry (final_sketch d')) = length (emitted (done ++ l))
    /\ groups_ok (emitted (done ++ l)) (vertex_map d').
Proof.
  induction l as [| e l IH]; intros done d d' Hlen Hok; simpl.
  - intro H. inversion H; subst. rewrite app_nil_r. split; assumption.
  - destruct (edge_body host d e) as [d1 | ex] eqn:Hb; simpl;
      [| discriminate].
    intro Hrun.
    destruct (edge_body_keeps host done d d1 e Hlen Hok Hb) as (Hlen1 & Hok1).
    replace (done ++ e :: l) with ((done ++ [e]) ++ l)
      by (rewrite <- app_assoc; reflexivity).
    apply (IH (done ++ [e]) d1 d' Hlen1 Hok1 Hrun).
Qed.

(** With a host that accepts every block constraint, emission returns. *)
Lemma emission_returns (host : Host) (l : list Edge) :
  (forall sk g, accepts host sk (Block g) = true) ->
  forall d, exists d', for_each (edge_body host) l d = Ok d'.
Proof.
  intro Hacc. induction l as [| e l IH]; intro d; simpl.
  - exists d. reflexivity.
  - unfold edge_body at 1. destruct (is_close _ _ tolerance); simpl.
    + apply IH.
    + unfold addConstraint. rewrite Hacc. simpl. apply IH.
Qed.

(** ** Coincidence synthesis *)

Lemma coincident_group_attempts (host : Host) (s : Stitch)
  (item : Key * list Ref) :
  coincident_group host s item = fold_left (attempt host) (star item) s.
Proof.
  destruct item as [k refs]. unfold coincident_group, star. simpl.
  destruct refs as [| first [| second rest]]; try reflexivity.
  change (1 <? length (first :: second :: rest))%nat with true. cbv iota.
  generalize (second :: rest) as l. intro l. revert s.
  induction l as [| next l IH]; intro s; simpl; [reflexivity |].
  rewrite IH. reflexivity.
Qed.

Lemma add_coincidences_attempts (host : Host) (sk : SketchObject)
  (console0 : list Msg) (vm : VertexMap) :
  add_coincidences host sk console0 vm
  = fold_left (attempt host) (flat_map star vm) (mkStitch sk 0 console0).
Proof.
  unfold add_coincidences. generalize (mkStitch sk 0 console0) as s.
  induction vm as [| item vm IH]; intro s; simpl; [reflexivity |].
  rewrite fold_left_app, IH, coincident_group_attempts. reflexivity.
Qed.

(** Every request is either counted or answered by one warning. *)
Lemma attempts_counted (host : Host) (l : list (Key * Constraint)) :
  forall s,
    let s' := fold_left (attempt host) l s in
    (coincident_added s' + length (warnings s')
     = coincident_added s + length (warnings s) + length l)%nat
    /\ (length (warnings s) <= length (warnings s'))%nat.
Proof.
  induction l as [| kc l IH]; intro s; simpl; [lia |].
  destruct (IH (attempt host s kc)) as (Hc & Hw).
  assert (Hstep :
    (coincident_added (attempt host s kc) + length (warnings (attempt host s kc))
     = coincident_added s + length (warnings s) + 1
     /\ length (warnings s) <= length (warnings (attempt host s kc)))%nat).
  { unfold attempt.
    destruct (addConstraint host (stitched s) (snd kc)) as [[sk idx] | ex];
      simpl; [lia |].
    rewrite length_app. simpl. lia. }
  lia.
Qed.

(** With a host that accepts them all the requests end up in the sketch,
    in order. *)
Lemma attempts_accepted (host : Host) (l : list (Key * Constraint)) :
  (forall sk kc, In kc l -> accepts host sk (snd kc) = true) ->
  forall s,
    let s' := fold_left (attempt host) l s in
    Constraints (stitched s')
    = Constraints (stitched s) ++ map (fun kc => (snd kc, false)) l
    /\ coincident_added s' = (coincident_added s + length l)%nat
    /\ warnings s' = warnings s.
Proof.
  induction l as [| kc l IH]; intros Hacc s; simpl.
  - rewrite app_nil_r. repeat split; lia.
  - destruct (IH (fun sk kc' H => Hacc sk kc' (or_intror H))
                 (attempt host s kc)) as (Hc & Hn & Hw).
    rewrite Hc, Hn, Hw. unfold attempt, addConstraint.
    rewrite (Hacc (stitched s) kc (or_introl eq_refl)). simpl.
    rewrite <- app_assoc. simpl. repeat split; lia.
Qed.

Lemma star_length (key : Key) (refs : list Ref) :
  length (star (key, refs)) = (length refs - 1)%nat.
Proof.
  unfold star. destruct refs as [| first rest]; [reflexivity |].
  cbn [snd fst]. rewrite length_map. cbn [length]. unfold Ref. lia.
Qed.

(** C8.  For every vertex group of N > 1 members, N - 1 coincidence
    constraints are requested, each pairing the group's first member with
    one later member; groups of one member request none.  The requests of
    all groups are handed to the host one after the other: a declined one
    leaves a warning and the remaining ones are still made, so the count
    of added constraints plus the warnings equals the number of requests,
    and synthesis returns whenever per-edge emission did. *)
Theorem coincidence_star (host : Host) (sk : SketchObject)
  (console0 : list Msg) (vm : VertexMap) :
  (forall key refs,
     In (key, refs) vm ->
     length (star (key, refs)) = (length refs - 1)%nat
     /\ ((1 < length refs)%nat ->
         exists first rest,
           refs = first :: rest
           /\ star (key, refs)
              = map (fun next =>
                       (key, Coincident (fst first) (snd first)
                                        (fst next) (snd next)))
                    rest)
     /\ ((length refs <= 1)%nat -> star (key, refs) = []))
  /\ add_coincidences host sk console0 vm
     = fold_left (attempt host) (flat_map star vm) (mkStitch sk 0 console0)
  /\ (coincident_added (add_coincidences host sk console0 vm)
      + (length (warnings (add_coincidences host sk console0 vm))
         - length console0)
      = length (flat_map star vm))%nat
  /\ ((forall sk' c, accepts host sk' c = true) ->
      Constraints (stitched (add_coincidences host sk console0 vm))
      = Constraints sk ++ map (fun kc => (snd kc, false)) (flat_map star vm)
      /\ coincident_added (add_coincidences host sk console0 vm)
         = length (flat_map star vm))
  /\ (forall edges d,
        emit_edges host sk edges = Ok d ->
        exists r,
          synthesize host sk edges = Ok r
          /\ coincidents r
             = coincident_added
                 (add_coincidences host (final_sketch d) (console d)
                                   (vertex_map d))).
Proof.
  split; [| split; [| split; [| split]]].
  - intros key refs _. split; [apply star_length |]. split.
    + intro H. destruct refs as [| first rest]; [simpl in H; lia |].
      exists first, rest. split; reflexivity.
    + intro H. destruct refs as [| first [| second rest]];
        try reflexivity. simpl in H. lia.
  - apply add_coincidences_attempts.
  - rewrite add_coincidences_attempts.
    destruct (attempts_counted host (flat_map star vm) (mkStitch sk 0 console0))
      as (Hc & Hw).
    simpl in Hc, Hw. lia.
  - intro Hacc. rewrite add_coincidences_attempts.
    destruct (attempts_accepted host (flat_map star vm)
                (fun sk' kc _ => Hacc sk' (snd kc)) (mkStitch sk 0 console0))
      as (Hc & Hn & _).
    simpl in Hc, Hn. split; assumption.
  - intros edges d Hd. unfold synthesize. rewrite Hd. simpl.
    destruct (hide_blocks host _ (block_constraints d)) as [sk' vis].
    eexists. split; reflexivity.
Qed.

Lemma coincidence_star_witness :
  length (star ((1, 0, 0), [(0%nat, 2%nat); (1%nat, 1%nat); (2%nat, 1%nat)]))
  = 2%nat
  /\ (exists first rest,
        [(0%nat, 2%nat); (1%nat, 1%nat); (2%nat, 1%nat)] = first :: rest
        /\ star ((1, 0, 0), [(0%nat, 2%nat); (1%nat, 1%nat); (2%nat, 1%nat)])
           = map (fun next =>
                    ((1, 0, 0), Coincident (fst first) (snd first)
                                           (fst next) (snd next)))
                 rest)
  /\ star ((0, 0, 0), [(0%nat, 1%nat)]) = []
  /\ coincident_added
       (add_coincidences accept_all (mkSketch Placement_identity [] []) []
          [((0, 0, 0), [(0%nat, 1%nat)]);
           ((1, 0, 0), [(0%nat, 2%nat); (1%nat, 1%nat); (2%nat, 1%nat)])])
     = 2%nat.
Proof.
  destruct (coincidence_star accept_all (mkSketch Placement_identity [] []) []
              [((0, 0, 0), [(0%nat, 1%nat)]);
               ((1, 0, 0), [(0%nat, 2%nat); (1%nat, 1%nat); (2%nat, 1%nat)])])
    as (Hstar & _ & _ & Hacc & _).
  destruct (Hstar (1, 0, 0) [(0%nat, 2%nat); (1%nat, 1%nat); (2%nat, 1%nat)])
    as (Hlen & Hmany & _); [right; left; reflexivity |].
  destruct (Hstar (0, 0, 0) [(0%nat, 1%nat)]) as (_ & _ & Hone);
    [left; reflexivity |].
  destruct (Hacc (fun _ _ => eq_refl)) as (_ & Hn).
  split; [exact Hlen |]. split; [apply Hmany; simpl; lia |].
  split; [apply Hone; simpl; lia |]. exact Hn.
Defined.

(** ** The whole operation *)

Lemma placement_returns (null_length : R) (normal center : Vector) :
  null_length <= 1e-6 ->
  exists placement,
    create_robust_placement null_length normal center = Ok placement.
Proof.
  intro Hnull. unfold create_robust_placement.
  destruct (normalized_input null_length normal Hnull) as (n & Hn & _).
  rewrite Hn. simpl. eauto.
Qed.

(** When every edge is degenerate nothing is emitted, whatever the host. *)
Lemma emission_all_degenerate (host : Host) (l : list Edge) :
  Forall (fun e => degenerate e = true) l ->
  forall d,
    exists c,
      for_each (edge_body host) l d
      = Ok (mkDraft (final_sketch d) (vertex_map d) (block_constraints d) c).
Proof.
  induction 1 as [| e l He Hl IH]; intro d; simpl.
  - exists (console d). destruct d; reflexivity.
  - rewrite edge_body_degenerate by exact He. simpl.
    destruct (IH (mkDraft (final_sketch d) (vertex_map d)
                          (block_constraints d)
                          (console d ++ [WarnDegenerate (v_first e)])))
      as (c & Hc).
    exists c. exact Hc.
Qed.

(** A selection of degenerate edges only is committed as an empty sketch,
    with the success messages. *)
Lemma all_degenerate_commits (null_length : R) (self : EdgeDataCollector)
  (host : Host) (s : Session) :
  null_length <= 1e-6 ->
  ActiveDocument s = true ->
  selected_edges s <> [] ->
  dialog_item s <> None ->
  normalizable null_length
    (unique_vertices (flat_map Vertexes (selected_edges s))) ->
  Forall (fun e => degenerate e = true) (selected_edges s) ->
  exists global,
    create_sketch_from_selection null_length self host s
    = mkOutcome Committed (Some (mkSketch global [] []))
                [Success; InfoAdded 0].
Proof.
  destruct s as [doc edges dlg]. simpl. intros Hnull -> Hedges Hdlg Hyes Hdeg.
  unfold create_sketch_from_selection, try_block. simpl.
  destruct edges as [| e es]; [contradiction |].
  destruct (estimator_returns null_length self
              (unique_vertices (flat_map Vertexes (e :: es))) Hnull Hyes)
    as (n & c & Hn).
  rewrite Hn. simpl.
  destruct (placement_returns null_length n c Hnull) as (p & Hp).
  rewrite Hp. simpl.
  destruct dlg as [item |]; [| contradiction].
  unfold synthesize, emit_edges.
  destruct (emission_all_degenerate host (e :: es) Hdeg
              (mkDraft (mkSketch (destination host item p) [] []) [] [] []))
    as (co & Hco).
  rewrite Hco. simpl. exists (destination host item p). reflexivity.
Qed.

(** C2 (amended).  The operation commits the transaction exactly when the
    try block runs to its end: a document is open, the selection contains
    edges, the plane estimator and the placement builder return, the
    dialog is answered and per-edge emission raises no exception.  With a
    host that accepts every block constraint and whose null length is at
    most the 1e-6 of the guards, that is: a document is open, the
    selection contains edges, the dialog is answered and the host
    normalizes the first cross product the estimator hands to it.  The
    number of line segments plays no part: when every selected edge is
    skipped as degenerate the transaction is committed with an empty
    sketch and success is reported. *)
Theorem commit_condition (null_length : R) (self : EdgeDataCollector)
  (host : Host) (s : Session) :
  (transaction (create_sketch_from_selection null_length self host s)
   = Committed
   <-> ActiveDocument s = true
       /\ selected_edges s <> []
       /\ exists item normal center placement d,
            dialog_item s = Some item
            /\ calculate_robust_plane_normal_and_placement null_length self
                 (unique_vertices (flat_map Vertexes (selected_edges s)))
               = Ok (normal, center)
            /\ create_robust_placement null_length normal center
               = Ok placement
            /\ emit_edges host
                 (mkSketch (destination host item placement) [] [])
                 (selected_edges s)
               = Ok d)
  /\ (null_length <= 1e-6 ->
      (forall sk g, accepts host sk (Block g) = true) ->
      (transaction (create_sketch_from_selection null_length self host s)
       = Committed
       <-> ActiveDocument s = true
           /\ selected_edges s <> []
           /\ dialog_item s <> None
           /\ normalizable null_length
                (unique_vertices (flat_map Vertexes (selected_edges s)))))
  /\ (null_length <= 1e-6 ->
      ActiveDocument s = true ->
      selected_edges s <> [] ->
      dialog_item s <> None ->
      normalizable null_length
        (unique_vertices (flat_map Vertexes (selected_edges s))) ->
      Forall (fun e => degenerate e = true) (selected_edges s) ->
      exists global,
        create_sketch_from_selection null_length self host s
        = mkOutcome Committed (Some (mkSketch global [] []))
                    [Success; InfoAdded 0]).
Proof.
  assert (Hiff :
    transaction (create_sketch_from_selection null_length self host s)
    = Committed
    <-> ActiveDocument s = true
        /\ selected_edges s <> []
        /\ exists item normal center placement d,
             dialog_item s = Some item
             /\ calculate_robust_plane_normal_and_placement null_length self
                  (unique_vertices (flat_map Vertexes (selected_edges s)))
                = Ok (normal, center)
             /\ create_robust_placement null_length normal center
                = Ok placement
             /\ emit_edges host
                  (mkSketch (destination host item placement) [] [])
                  (selected_edges s)
                = Ok d).
  { destruct s as [doc edges dlg]. simpl.
    unfold create_sketch_from_selection, try_block. simpl.
    destruct doc; simpl;
      [| split; [discriminate | intros (H & _); discriminate]].
    destruct edges as [| e es]; simpl;
      [split; [discriminate | intros (_ & H & _); contradiction] |].
    match goal with
    | |- context [calculate_robust_plane_normal_and_placement ?a ?b ?vs] =>
        destruct (calculate_robust_plane_normal_and_placement a b vs)
          as [[n c] | ex] eqn:Hn
    end; simpl.
    2: { split; [discriminate |].
         intros (_ & _ & item' & n' & c' & p' & d' & _ & Hn' & _).
         discriminate Hn'. }
    destruct (create_robust_placement null_length n c) as [p | ex] eqn:Hp;
      simpl.
    2: { split; [discriminate |].
         intros (_ & _ & item' & n' & c' & p' & d' & _ & Hn' & Hp' & _).
         inversion Hn'; subst n' c'. rewrite Hp in Hp'. discriminate. }
    destruct dlg as [item |]; simpl.
    - unfold synthesize.
      destruct (emit_edges host (mkSketch (destination host item p) [] [])
                           (e :: es)) as [d | ex] eqn:Hd; simpl.
      + destruct (hide_blocks host _ (block_constraints d)) as [sk' vis].
        simpl. split; [| reflexivity]. intros _.
        split; [reflexivity |]. split; [discriminate |].
        exists item, n, c, p, d. auto.
      + split; [discriminate |].
        intros (_ & _ & item' & n' & c' & p' & d' & Hi & Hn' & Hp' & Hd').
        inversion Hi; subst item'. inversion Hn'; subst n' c'.
        rewrite Hp in Hp'. inversion Hp'; subst p'.
        rewrite Hd in Hd'. discriminate.
    - split; [discriminate |].
      intros (_ & _ & item' & _ & _ & _ & _ & Hi & _). discriminate. }
  split; [exact Hiff |]. split.
  - intros Hnull Hacc. rewrite Hiff. split.
    + intros (Hdoc & Hedges & item & n & c & _ & _ & Hi & Hn & _).
      repeat split; auto; [rewrite Hi; discriminate |].
      exact (estimator_returned _ _ _ _ _ Hn).
    + intros (Hdoc & Hedges & Hdlg & Hyes).
      destruct (dialog_item s) as [item |] eqn:Hi; [| contradiction].
      destruct (estimator_returns null_length self
                  (unique_vertices (flat_map Vertexes (selected_edges s)))
                  Hnull Hyes)
        as (n & c & Hn).
      destruct (placement_returns null_length n c Hnull) as (p & Hp).
      destruct (emission_returns host (selected_edges s) Hacc
                  (mkDraft (mkSketch (destination host item p) [] []) [] [] []))
        as (d & Hd).
      repeat split; auto. exists item, n, c, p, d. auto.
  - apply all_degenerate_commits.
Qed.

Lemma placement_along_z (null_length : R) (center : Vector) :
  null_length <= 1e-6 ->
  create_robust_placement null_length (mkVector 0 0 1) center
  = Ok (mkPlacement center Rotation_identity).
Proof.
  intro Hnull. unfold create_robust_placement. fold z_axis.
  rewrite Length_z_axis.
  replace (gtb 1 1e-6) with true by (symmetry; apply gtb_true; lra).
  rewrite normalize_ok by (rewrite Length_z_axis; lra).
  rewrite (unit_of_unit _ Length_z_axis). simpl. unfold robust_rotation.
  assert (Hd : dot z_axis z_axis = 1) by (unfold z_axis; vec_simpl; ring).
  rewrite Hd, Rabs_R1.
  replace (gtb 1 0.999) with true by (symmetry; apply gtb_true; lra).
  replace (gtb (z z_axis) 0) with true
    by (symmetry; apply gtb_true; unfold z_axis; simpl; lra).
  reflexivity.
Qed.

Lemma commit_condition_witness :
  (transaction
     (create_sketch_from_selection 1e-7 (mkCollector (mkVector 0 0 0))
        accept_all
        (mkSession true
           [mkEdge (mkVector 0 0 0) (mkVector 1 0 0);
            mkEdge (mkVector 1 0 0) (mkVector 1 1 0)]
           (Some Standalone)))
   = Committed
   <-> true = true
       /\ [mkEdge (mkVector 0 0 0) (mkVector 1 0 0);
           mkEdge (mkVector 1 0 0) (mkVector 1 1 0)] <> []
       /\ Some Standalone <> None
       /\ normalizable 1e-7
            (unique_vertices
               (flat_map Vertexes
                  [mkEdge (mkVector 0 0 0) (mkVector 1 0 0);
                   mkEdge (mkVector 1 0 0) (mkVector 1 1 0)])))
  /\ exists global,
       create_sketch_from_selection 1e-7 (mkCollector (mkVector 0 0 0))
         accept_all
         (mkSession true [mkEdge (mkVector 2 0 0) (mkVector 2 0 0)]
                    (Some NewBody))
       = mkOutcome Committed (Some (mkSketch global [] []))
                   [Success; InfoAdded 0].
Proof.
  split.
  - apply (proj1 (proj2 (commit_condition 1e-7
             (mkCollector (mkVector 0 0 0)) accept_all
             (mkSession true
                [mkEdge (mkVector 0 0 0) (mkVector 1 0 0);
                 mkEdge (mkVector 1 0 0) (mkVector 1 1 0)]
                (Some Standalone))))).
    + lra.
    + intros sk g. reflexivity.
  - apply (proj2 (proj2 (commit_condition 1e-7
             (mkCollector (mkVector 0 0 0)) accept_all
             (mkSession true [mkEdge (mkVector 2 0 0) (mkVector 2 0 0)]
                        (Some NewBody))))); simpl.
    + lra.
    + reflexivity.
    + discriminate.
    + discriminate.
    + apply short_normalizable. unfold unique_vertices. simpl.
      rewrite (is_close_self (mkVector 2 0 0) default_tol)
        by (unfold default_tol; lra).
      simpl. lia.
    + repeat constructor. apply is_close_self, tolerance_pos.
Defined.

(** C2 as stated fails: a selection of one edge whose two ends coincide
    produces no line segment, and the transaction is committed with an
    empty sketch and the success messages (here for a host with null
    length 1e-7; with one vertex nothing is normalized but the default
    normal). *)
Lemma degenerate_selection_committed :
  emitted [mkEdge (mkVector 1 0 0) (mkVector 1 0 0)] = []
  /\ create_sketch_from_selection 1e-7 (mkCollector (mkVector 0 0 0))
       accept_all
       (mkSession true [mkEdge (mkVector 1 0 0) (mkVector 1 0 0)]
                  (Some Standalone))
     = mkOutcome Committed
         (Some (mkSketch (mkPlacement (mkVector 0 0 0) Rotation_identity)
                         [] []))
         [Success; InfoAdded 0].
Proof.
  assert (Hdeg : degenerate (mkEdge (mkVector 1 0 0) (mkVector 1 0 0)) = true)
    by (apply is_close_self, tolerance_pos).
  split.
  - unfold emitted. simpl. rewrite Hdeg. reflexivity.
  - unfold create_sketch_from_selection, try_block. simpl.
    unfold unique_vertices. simpl.
    rewrite (is_close_self (mkVector 1 0 0) default_tol)
      by (unfold default_tol; lra).
    simpl. rewrite placement_along_z by lra. simpl.
    unfold synthesize, emit_edges. simpl.
    rewrite edge_body_degenerate by exact Hdeg. simpl. reflexivity.
Qed.

(** ** The unit square

    Four edges around the unit square in the plane z = 0, on a standalone
    sketch placed at the origin: four construction segments, four block
    constraints (hidden), and one vertex group of two references per
    corner, hence four coincidence constraints. *)

Ltac eval_keys :=
  repeat match goal with
  | |- context [key_eqb ?a ?b] =>
      first
        [ rewrite (key_eqb_refl a)
        | rewrite (key_eqb_neq a b)
            by (let H := fresh in intro H; inversion H; lra) ]
  end.

Lemma multVec_inverse_identity (p : Vector) :
  Placement_multVec (Placement_inverse Placement_identity) p = p.
Proof.
  apply vector_eq; unfold Placement_multVec, Placement_inverse,
    Rotation_multVec; vec_simpl; ring.
Qed.

(** One loop step on an edge that is not degenerate, with a host that
    accepts its block constraint, on a sketch at the origin. *)
Lemma edge_body_at_origin (geo cons : list _) (vm : VertexMap)
  (bc : list nat) (e : Edge) :
  degenerate e = false ->
  edge_body accept_all (mkDraft (mkSketch Placement_identity geo cons) vm bc [])
            e
  = Ok (mkDraft
          (mkSketch Placement_identity
             (geo ++ [(mkLineSegment (v_first e) (v_last e), true)])
             (cons ++ [(Block (length geo), false)]))
          (register (length geo)
             (register (length geo) vm (v_first e, 1%nat))
             (v_last e, 2%nat))
          (bc ++ [length cons]) []).
Proof.
  unfold degenerate, edge_body. intros ->.
  unfold addGeometry, setConstruction, addConstraint, getGlobalPlacement.
  cbn [GlobalPlacement Geometry Constraints accept_all accepts bind fold_left].
  rewrite !multVec_inverse_identity.
  assert (Hs : forall (l : list (LineSegment * bool)) s,
            set_flag (l ++ [(s, false)]) (length l) true = l ++ [(s, true)]).
  { induction l as [| [a f] l IH]; intro s; simpl; [reflexivity |].
    rewrite IH. reflexivity. }
  rewrite Hs. reflexivity.
Qed.

Ltac run_register :=
  unfold register, find_key; cbn [map fst snd find vector_of key_of x y z];
  eval_close; cbv iota;
  unfold dict_set, dict_append;
  cbn [map fst snd existsb app orb]; eval_keys;
  cbn [map fst snd existsb app orb andb].

Example unit_square_emission :
  emit_edges accept_all (mkSketch Placement_identity [] [])
    [mkEdge (mkVector 0 0 0) (mkVector 1 0 0);
     mkEdge (mkVector 1 0 0) (mkVector 1 1 0);
     mkEdge (mkVector 1 1 0) (mkVector 0 1 0);
     mkEdge (mkVector 0 1 0) (mkVector 0 0 0)]
  = Ok (mkDraft
          (mkSketch Placement_identity
             [(mkLineSegment (mkVector 0 0 0) (mkVector 1 0 0), true);
              (mkLineSegment (mkVector 1 0 0) (mkVector 1 1 0), true);
              (mkLineSegment (mkVector 1 1 0) (mkVector 0 1 0), true);
              (mkLineSegment (mkVector 0 1 0) (mkVector 0 0 0), true)]
             [(Block 0, false); (Block 1, false);
              (Block 2, false); (Block 3, false)])
          [((0, 0, 0), [(0%nat, 1%nat); (3%nat, 2%nat)]);
           ((1, 0, 0), [(0%nat, 2%nat); (1%nat, 1%nat)]);
           ((1, 1, 0), [(1%nat, 2%nat); (2%nat, 1%nat)]);
           ((0, 1, 0), [(2%nat, 2%nat); (3%nat, 1%nat)])]
          [0%nat; 1%nat; 2%nat; 3%nat] []).
Proof.
  unfold emit_edges. cbn [for_each].
  rewrite edge_body_at_origin
    by (apply is_close_no; unfold tolerance; vec_simpl; lra).
  cbn [bind v_first v_last length app].
  do 2 run_register.
  rewrite edge_body_at_origin
    by (apply is_close_no; unfold tolerance; vec_simpl; lra).
  cbn [bind v_first v_last length app].
  do 2 run_register.
  rewrite edge_body_at_origin
    by (apply is_close_no; unfold tolerance; vec_simpl; lra).
  cbn [bind v_first v_last length app].
  do 2 run_register.
  rewrite edge_body_at_origin
    by (apply is_close_no; unfold tolerance; vec_simpl; lra).
  cbn [bind v_first v_last length app].
  do 2 run_register.
  reflexivity.
Qed.

Example unit_square_synthesis :
  synthesize accept_all (mkSketch Placement_identity [] [])
    [mkEdge (mkVector 0 0 0) (mkVector 1 0 0);
     mkEdge (mkVector 1 0 0) (mkVector 1 1 0);
     mkEdge (mkVector 1 1 0) (mkVector 0 1 0);
     mkEdge (mkVector 0 1 0) (mkVector 0 0 0)]
  = Ok (mkSynthesis
          (mkSketch Placement_identity
             [(mkLineSegment (mkVector 0 0 0) (mkVector 1 0 0), true);
              (mkLineSegment (mkVector 1 0 0) (mkVector 1 1 0), true);
              (mkLineSegment (mkVector 1 1 0) (mkVector 0 1 0), true);
              (mkLineSegment (mkVector 0 1 0) (mkVector 0 0 0), true)]
             [(Block 0, true); (Block 1, true);
              (Block 2, true); (Block 3, true);
              (Coincident 0 1 3 2, false); (Coincident 0 2 1 1, false);
              (Coincident 1 2 2 1, false); (Coincident 2 2 3 1, false)])
          [((0, 0, 0), [(0%nat, 1%nat); (3%nat, 2%nat)]);
           ((1, 0, 0), [(0%nat, 2%nat); (1%nat, 1%nat)]);
           ((1, 1, 0), [(1%nat, 2%nat); (2%nat, 1%nat)]);
           ((0, 1, 0), [(2%nat, 2%nat); (3%nat, 1%nat)])]
          [0%nat; 1%nat; 2%nat; 3%nat] 4 [] []).
Proof.
  unfold synthesize. rewrite unit_square_emission. reflexivity.
Qed.

(** * Further properties of the macro *)

(** ** is_close *)

Lemma Length_sub_sym (p q : Vector) : Length (sub p q) = Length (sub q p).
Proof.
  unfold Length. f_equal. vec_simpl. ring.
Qed.

Lemma Length_sub_self (p : Vector) : Length (sub p p) = 0.
Proof. apply Length_of_square; [lra | vec_simpl; ring]. Qed.

(** The triangle inequality for distances. *)
Lemma Length_triangle (a b : Vector) : Length (add a b) <= Length a + Length b.
Proof.
  pose proof (Length_nonneg a) as Ha. pose proof (Length_nonneg b) as Hb.
  pose proof (Length_nonneg (add a b)) as Hab.
  pose proof (Length_sqr a) as Sa. pose proof (Length_sqr b) as Sb.
  pose proof (Length_sqr (add a b)) as Sab.
  assert (Hcs : dot a b <= Length a * Length b).
  { destruct (Rle_dec (dot a b) 0) as [Hneg | Hpos]; [nra |].
    apply Rsqr_incr_0_var; [| nra]. unfold Rsqr.
    replace (Length a * Length b * (Length a * Length b))
      with ((Length a * Length a) * (Length b * Length b)) by ring.
    rewrite Sa, Sb. destruct a as [a1 a2 a3], b as [b1 b2 b3]. vec_simpl.
    assert (Hlag :
      (a1 * a1 + a2 * a2 + a3 * a3) * (b1 * b1 + b2 * b2 + b3 * b3)
      - (a1 * b1 + a2 * b2 + a3 * b3) * (a1 * b1 + a2 * b2 + a3 * b3)
      = (a1 * b2 - a2 * b1) * (a1 * b2 - a2 * b1)
        + (a2 * b3 - a3 * b2) * (a2 * b3 - a3 * b2)
        + (a3 * b1 - a1 * b3) * (a3 * b1 - a1 * b3)) by ring.
    pose proof (Rle_0_sqr (a1 * b2 - a2 * b1)) as H1.
    pose proof (Rle_0_sqr (a2 * b3 - a3 * b2)) as H2.
    pose proof (Rle_0_sqr (a3 * b1 - a1 * b3)) as H3.
    unfold Rsqr in H1, H2, H3. lra. }
  assert (Hexp : dot (add a b) (add a b) = dot a a + 2 * dot a b + dot b b)
    by (vec_simpl; ring).
  apply Rsqr_incr_0_var; [| lra]. unfold Rsqr. nra.
Qed.

(** X1.  The proximity test does not depend on the order of its two
    points, holds between a point and itself exactly when the tolerance is
    positive, and a larger tolerance accepts whatever a smaller one
    accepts. *)
Theorem is_close_symmetric_reflexive (p q : Vector) (tol tol' : R) :
  is_close p q tol = is_close q p tol
  /\ (is_close p p tol = true <-> 0 < tol)
  /\ (tol <= tol' -> is_close p q tol = true -> is_close p q tol' = true).
Proof.
  split; [| split].
  - unfold is_close. rewrite Length_sub_sym. reflexivity.
  - rewrite is_close_iff, Length_sub_self. tauto.
  - intros Hle H. apply is_close_iff in H. apply is_close_iff. lra.
Qed.

Lemma is_close_symmetric_reflexive_witness :
  is_close (mkVector 0 0 0) (mkVector 1 0 0) 3 = true.
Proof.
  apply (proj2 (proj2 (is_close_symmetric_reflexive
                         (mkVector 0 0 0) (mkVector 1 0 0) 2 3))).
  - lra.
  - apply is_close_yes; [lra | vec_simpl; lra].
Defined.

(** ** unique_vertices *)

Lemma far_iff (p q : Vector) (tol : R) :
  negb (is_close p q tol) = true <-> tol <= Length (sub p q).
Proof.
  rewrite negb_true_iff. unfold is_close. apply ltb_false.
Qed.

Lemma all_far_iff (p : Vector) (tol : R) (l : list Vector) :
  forallb (fun q => negb (is_close p q tol)) l = true
  <-> Forall (fun q => tol <= Length (sub p q)) l.
Proof.
  rewrite forallb_forall, Forall_forall. split; intros H q Hq.
  - apply far_iff, H, Hq.
  - apply far_iff, H, Hq.
Qed.

Lemma separated_snoc (tol : R) (l : list Vector) (p : Vector) :
  separated tol l ->
  Forall (fun q => tol <= Length (sub p q)) l ->
  separated tol (l ++ [p]).
Proof.
  unfold separated. induction 1 as [| a l Ha Hl IH]; intro Hp; simpl.
  - repeat constructor.
  - inversion Hp; subst. constructor; [| apply IH; assumption].
    apply Forall_app. split; [exact Ha |].
    constructor; [assumption | constructor].
Qed.

Lemma separated_middle (tol : R) (l1 l2 : list Vector) (p : Vector) :
  separated tol (l1 ++ p :: l2) ->
  Forall (fun q => tol <= Length (sub p q)) l1.
Proof.
  unfold separated. induction l1 as [| a l1 IH]; simpl; intro H;
    [constructor |].
  inversion H; subst. constructor; [| apply IH; assumption].
  match goal with
  | Hf : Forall _ (l1 ++ p :: l2) |- _ =>
      rewrite Forall_forall in Hf; apply Hf, in_or_app; right; left;
      reflexivity
  end.
Qed.

Lemma Subseq_refl {A : Type} (l : list A) : Subseq l l.
Proof. induction l; constructor; assumption. Qed.

Lemma Subseq_nil_l {A : Type} (l : list A) : Subseq [] l.
Proof. induction l; constructor; assumption. Qed.

Lemma Subseq_In {A : Type} (l1 l2 : list A) (a : A) :
  Subseq l1 l2 -> In a l1 -> In a l2.
Proof.
  induction 1; simpl; intro Hin; auto.
  destruct Hin as [-> | Hin]; auto.
Qed.

Lemma some_close (p : Vector) (tol : R) (l : list Vector) :
  forallb (fun q => negb (is_close p q tol)) l = false ->
  exists q, In q l /\ Length (sub p q) < tol.
Proof.
  induction l as [| a l IH]; simpl; [discriminate |].
  destruct (is_close p a tol) eqn:Hc; simpl.
  - intros _. exists a. split; [left; reflexivity | apply is_close_iff, Hc].
  - intro H. destruct (IH H) as (q & Hq & Hlt). exists q. auto.
Qed.

(** The loop of lines 178-181 from any list of points kept so far. *)
Lemma unique_loop (l : list Vector) :
  forall acc,
    separated default_tol acc ->
    exists kept,
      fold_left
        (fun unique p =>
           if forallb (fun q => negb (is_close p q default_tol)) unique
           then unique ++ [p] else unique)
        l acc
      = acc ++ kept
      /\ Subseq kept l
      /\ separated default_tol (acc ++ kept)
      /\ forall p, In p l ->
           exists q, In q (acc ++ kept) /\ Length (sub p q) < default_tol.
Proof.
  induction l as [| p l IH]; intros acc Hsep; simpl.
  - exists []. rewrite app_nil_r. repeat split; auto; [constructor |].
    intros p [].
  - destruct (forallb (fun q => negb (is_close p q default_tol)) acc)
      eqn:Hfar.
    + apply all_far_iff in Hfar.
      destruct (IH (acc ++ [p]) (separated_snoc _ _ _ Hsep Hfar))
        as (kept & Hrun & Hsub & Hsep' & Hcov).
      rewrite <- app_assoc in Hrun, Hsep', Hcov. simpl in *.
      exists (p :: kept). repeat split; auto; [constructor; exact Hsub |].
      intros p' [<- | Hin]; [| apply Hcov, Hin].
      exists p. split; [apply in_or_app; right; left; reflexivity |].
      rewrite Length_sub_self. unfold default_tol. lra.
    + destruct (IH acc Hsep) as (kept & Hrun & Hsub & Hsep' & Hcov).
      exists kept. repeat split; auto; [constructor; exact Hsub |].
      intros p' [<- | Hin]; [| apply Hcov, Hin].
      destruct (some_close p default_tol acc Hfar) as (q & Hq & Hlt).
      exists q.
      split; [apply in_or_app; left; exact Hq | exact Hlt].
Qed.

Lemma unique_vertices_keeps (l : list Vector) :
  forall acc,
    separated default_tol (acc ++ l) ->
    fold_left
      (fun unique p =>
         if forallb (fun q => negb (is_close p q default_tol)) unique
         then unique ++ [p] else unique)
      l acc
    = acc ++ l.
Proof.
  induction l as [| p l IH]; intros acc Hsep; simpl.
  - rewrite app_nil_r. reflexivity.
  - pose proof (separated_middle _ _ _ _ Hsep) as Hfar.
    apply all_far_iff in Hfar. rewrite Hfar.
    rewrite IH; rewrite <- app_assoc; [reflexivity | exact Hsep].
Qed.

Lemma unique_vertices_separated (l : list Vector) :
  separated default_tol (unique_vertices l).
Proof.
  destruct (unique_loop l []) as (kept & Hrun & _ & Hsep & _);
    [constructor |].
  unfold unique_vertices. rewrite Hrun. exact Hsep.
Qed.

(** X2.  Deduplication of the vertex list keeps a subsequence of the
    input in which every point is at least 1e-4 away from every earlier
    one, and every input point is closer than 1e-4 to a point that was
    kept. *)
Theorem unique_vertices_cover (all_vertices : list Vector) :
  Subseq (unique_vertices all_vertices) all_vertices
  /\ separated default_tol (unique_vertices all_vertices)
  /\ forall p,
       In p all_vertices ->
       exists q,
         In q (unique_vertices all_vertices)
         /\ Length (sub p q) < default_tol.
Proof.
  destruct (unique_loop all_vertices []) as (kept & Hrun & Hsub & Hsep & Hcov);
    [constructor |].
  unfold unique_vertices. rewrite Hrun. simpl in *. auto.
Qed.

Lemma unique_vertices_cover_witness :
  exists q,
    In q (unique_vertices [mkVector 0 0 0; mkVector 1 0 0; mkVector 0 0 0])
    /\ Length (sub (mkVector 1 0 0) q) < default_tol.
Proof.
  apply (proj2 (proj2 (unique_vertices_cover
                         [mkVector 0 0 0; mkVector 1 0 0; mkVector 0 0 0]))).
  simpl. auto.
Defined.

(** X3.  A vertex list whose points are pairwise at least 1e-4 apart is
    returned unchanged; hence deduplicating twice is the same as
    deduplicating once. *)
Theorem unique_vertices_idempotent (all_vertices : list Vector) :
  (separated default_tol all_vertices ->
   unique_vertices all_vertices = all_vertices)
  /\ unique_vertices (unique_vertices all_vertices)
     = unique_vertices all_vertices.
Proof.
  split.
  - intro H. apply (unique_vertices_keeps all_vertices []). exact H.
  - apply (unique_vertices_keeps (unique_vertices all_vertices) []).
    apply unique_vertices_separated.
Qed.

Lemma unique_vertices_idempotent_witness :
  unique_vertices [mkVector 0 0 0; mkVector 1 0 0]
  = [mkVector 0 0 0; mkVector 1 0 0].
Proof.
  apply (proj1 (unique_vertices_idempotent
                  [mkVector 0 0 0; mkVector 1 0 0])).
  unfold separated. constructor.
  - constructor; [| constructor].
    apply Rlt_le, Length_gt; unfold default_tol; [lra | vec_simpl; lra].
  - constructor; constructor.
Defined.

(** ** collect_data *)

Lemma Rsum_permutation (l l' : list R) :
  Permutation l l' -> Rsum l = Rsum l'.
Proof.
  unfold Rsum. induction 1; simpl; lra.
Qed.

Lemma mean_permutation (l l' : list Vector) :
  Permutation l l' -> mean l = mean l'.
Proof.
  intro H. destruct (mean_coords l) as (Hx & Hy & Hz).
  destruct (mean_coords l') as (Hx' & Hy' & Hz').
  apply vector_eq.
  - rewrite Hx, Hx', (Permutation_length H).
    rewrite (Rsum_permutation _ _ (Permutation_map x H)). reflexivity.
  - rewrite Hy, Hy', (Permutation_length H).
    rewrite (Rsum_permutation _ _ (Permutation_map y H)). reflexivity.
  - rewrite Hz, Hz', (Permutation_length H).
    rewrite (Rsum_permutation _ _ (Permutation_map z H)). reflexivity.
Qed.

Lemma mass_center_of_points (self : EdgeDataCollector) (obj obj' : Shape)
  (rest rest' : list Shape) :
  Permutation (flat_map Vertexes (Edges obj)) (flat_map Vertexes (Edges obj')) ->
  collect_data self (obj :: rest) = collect_data self (obj' :: rest').
Proof.
  intro H. unfold collect_data.
  destruct (flat_map Vertexes (Edges obj)) as [| p l] eqn:E,
           (flat_map Vertexes (Edges obj')) as [| p' l'] eqn:E'.
  - reflexivity.
  - apply Permutation_nil in H. discriminate.
  - apply Permutation_sym, Permutation_nil in H. discriminate.
  - f_equal. apply mean_permutation, H.
Qed.

Lemma reversed_edges_points (edges : list Edge) :
  Permutation
    (flat_map Vertexes (map (fun e => mkEdge (v_last e) (v_first e)) edges))
    (flat_map Vertexes edges).
Proof.
  induction edges as [| e edges IH]; simpl; [constructor |].
  eapply perm_trans; [apply perm_swap |].
  do 2 apply perm_skip. exact IH.
Qed.

Lemma points_length (edges : list Edge) :
  length (flat_map Vertexes edges) = (2 * length edges)%nat.
Proof.
  induction edges as [| e l IH]; simpl; [reflexivity |].
  rewrite IH. lia.
Qed.

(** X4.  The mass centre stored by collect_data is the mean of the end
    points of all edges of the first selected object: it does not depend
    on the order in which the object lists its edges, nor on the direction
    of any edge, nor on the other selected objects.  With nothing selected,
    or an object without edges, the stored centre is left as it was. *)
Theorem collect_data_mass_center (self : EdgeDataCollector) (obj obj' : Shape)
  (rest rest' : list Shape) :
  (Permutation (Edges obj) (Edges obj') ->
   collect_data self (obj :: rest) = collect_data self (obj' :: rest'))
  /\ (Edges obj' = map (fun e => mkEdge (v_last e) (v_first e)) (Edges obj) ->
      collect_data self (obj' :: rest') = collect_data self (obj :: rest))
  /\ (Edges obj <> [] ->
      x (edge_mass_center (collect_data self (obj :: rest)))
      = Rsum (map x (flat_map Vertexes (Edges obj)))
        / INR (2 * length (Edges obj))
      /\ y (edge_mass_center (collect_data self (obj :: rest)))
         = Rsum (map y (flat_map Vertexes (Edges obj)))
           / INR (2 * length (Edges obj))
      /\ z (edge_mass_center (collect_data self (obj :: rest)))
         = Rsum (map z (flat_map Vertexes (Edges obj)))
           / INR (2 * length (Edges obj)))
  /\ collect_data self [] = self
  /\ (Edges obj = [] -> collect_data self (obj :: rest) = self).
Proof.
  split; [| split; [| split; [| split]]].
  - intro H. apply mass_center_of_points.
    apply Permutation_flat_map, H.
  - intro H. apply mass_center_of_points. rewrite H.
    apply reversed_edges_points.
  - intro Hne. unfold collect_data.
    pose proof (points_length (Edges obj)) as Hlen.
    destruct (flat_map Vertexes (Edges obj)) as [| p l] eqn:E.
    + destruct (Edges obj); [contradiction | discriminate].
    + simpl edge_mass_center. rewrite <- Hlen. apply mean_coords.
  - reflexivity.
  - intro H. unfold collect_data. rewrite H. reflexivity.
Qed.

Lemma collect_data_mass_center_witness :
  collect_data (mkCollector (mkVector 0 0 0))
    [mkShape [mkEdge (mkVector 0 0 0) (mkVector 2 0 0);
              mkEdge (mkVector 2 0 0) (mkVector 2 2 0)] []]
  = collect_data (mkCollector (mkVector 0 0 0))
      [mkShape [mkEdge (mkVector 2 0 0) (mkVector 2 2 0);
                mkEdge (mkVector 0 0 0) (mkVector 2 0 0)] []]
  /\ collect_data (mkCollector (mkVector 0 0 0))
       [mkShape [mkEdge (mkVector 2 0 0) (mkVector 0 0 0)] []]
     = collect_data (mkCollector (mkVector 0 0 0))
         [mkShape [mkEdge (mkVector 0 0 0) (mkVector 2 0 0)] []]
  /\ x (edge_mass_center
          (collect_data (mkCollector (mkVector 0 0 0))
             [mkShape [mkEdge (mkVector 0 0 0) (mkVector 2 0 0)] []]))
     = Rsum (map x (flat_map Vertexes
                      [mkEdge (mkVector 0 0 0) (mkVector 2 0 0)]))
       / INR (2 * 1)
  /\ collect_data (mkCollector (mkVector 0 0 5)) [mkShape [] []]
     = mkCollector (mkVector 0 0 5).
Proof.
  split; [| split; [| split]].
  - apply (proj1 (collect_data_mass_center (mkCollector (mkVector 0 0 0))
      (mkShape [mkEdge (mkVector 0 0 0) (mkVector 2 0 0);
                mkEdge (mkVector 2 0 0) (mkVector 2 2 0)] [])
      (mkShape [mkEdge (mkVector 2 0 0) (mkVector 2 2 0);
                mkEdge (mkVector 0 0 0) (mkVector 2 0 0)] []) [] [])).
    apply perm_swap.
  - apply (proj1 (proj2 (collect_data_mass_center
      (mkCollector (mkVector 0 0 0))
      (mkShape [mkEdge (mkVector 0 0 0) (mkVector 2 0 0)] [])
      (mkShape [mkEdge (mkVector 2 0 0) (mkVector 0 0 0)] []) [] []))).
    reflexivity.
  - apply (proj1 (proj2 (proj2 (collect_data_mass_center
      (mkCollector (mkVector 0 0 0))
      (mkShape [mkEdge (mkVector 0 0 0) (mkVector 2 0 0)] [])
      (mkShape [] []) [] [])))).
    discriminate.
  - apply (proj2 (proj2 (proj2 (proj2 (collect_data_mass_center
      (mkCollector (mkVector 0 0 5)) (mkShape [] []) (mkShape [] [])
      [] []))))).
    reflexivity.
Defined.

(** ** The triple enumeration *)

Lemma NoDup_flat_map {A B : Type} (f : A -> list B) (l : list A) :
  NoDup l ->
  (forall a, In a l -> NoDup (f a)) ->
  (forall a b y, In a l -> In b l -> In y (f a) -> In y (f b) -> a = b) ->
  NoDup (flat_map f l).
Proof.
  induction 1 as [| a l Ha Hl IH]; intros Hf Hdis; simpl; [constructor |].
  apply NoDup_app.
  - apply Hf. left. reflexivity.
  - apply IH.
    + intros b Hb. apply Hf. right. exact Hb.
    + intros b c y Hb Hc. apply Hdis; right; assumption.
  - intros y Hy Hy'. apply in_flat_map in Hy'.
    destruct Hy' as (b & Hb & Hyb).
    assert (a = b) by (apply (Hdis a b y); auto; [left | right]; auto).
    subst b. contradiction.
Qed.

Lemma NoDup_range (a b : nat) : NoDup (range a b).
Proof. apply seq_NoDup. Qed.

Lemma NoDup_map_injective {A B : Type} (f : A -> B) (l : list A) :
  (forall a b, f a = f b -> a = b) -> NoDup l -> NoDup (map f l).
Proof.
  intros Hinj. induction 1 as [| a l Ha Hl IH]; simpl; constructor; auto.
  intro Hin. apply in_map_iff in Hin. destruct Hin as (b & Hb & Hin).
  apply Hinj in Hb. subst b. contradiction.
Qed.

(** X5.  The three nested loops of the plane estimator visit every index
    triple i < j < k below the number of points, and each of them once. *)
Theorem index_triples_each_once (len : nat) :
  NoDup (index_triples len)
  /\ forall i j k,
       In (i, j, k) (index_triples len) <-> (i < j /\ j < k /\ k < len)%nat.
Proof.
  split; [| intros i j k; apply in_index_triples].
  unfold index_triples. apply NoDup_flat_map.
  - apply NoDup_range.
  - intros i _. apply NoDup_flat_map.
    + apply NoDup_range.
    + intros j _. apply NoDup_map_injective; [| apply NoDup_range].
      intros a b H. inversion H. reflexivity.
    + intros a b y _ _ Ha Hb. apply in_map_iff in Ha, Hb.
      destruct Ha as (k & <- & _), Hb as (k' & E & _). inversion E.
      reflexivity.
  - intros a b y _ _ Ha Hb. apply in_flat_map in Ha, Hb.
    destruct Ha as (j & _ & Ha), Hb as (j' & _ & Hb).
    apply in_map_iff in Ha, Hb.
    destruct Ha as (k & <- & _), Hb as (k' & E & _). inversion E.
    reflexivity.
Qed.

(** ** Ties between triples *)

Lemma estimator_returns_mean (null_length : R) (self : EdgeDataCollector)
  (vertices : list Vector) :
  (3 <= length vertices)%nat ->
  null_length <= 1e-6 ->
  normalizable null_length vertices ->
  exists normal,
    calculate_robust_plane_normal_and_placement null_length self vertices
    = Ok (normal, mean vertices).
Proof.
  intros H3 Hnull Hyes.
  destruct (estimator_cases null_length self vertices H3)
    as [(Hno & _)
       | [(_ & _ & Hrun)
         | (_ & before & w & after & _ & _ & _ & _ & _ & Hrun)]];
    [contradiction | |]; rewrite Hrun.
  - destruct (after_sign_returns null_length self (mean vertices)
                (mkVector 0 0 1) Hnull) as (n & Hn & _). eauto.
  - destruct (after_sign_returns null_length self (mean vertices)
                (unit (triple_cross vertices w)) Hnull) as (n & Hn & _).
    eauto.
Qed.

(** X6.  Among the triples of largest cross-product magnitude the plane
    estimator takes the one its loops visit first: for at least three
    points that are not all on one line, a normal that is returned is, up
    to sign, the direction of a triple's cross product that is strictly
    larger than that of every triple visited before it and at least as
    large as that of every triple visited after it.  The estimator
    returns, with the mean as centroid, when the host normalizes the first
    cross product handed to it (its null length being at most 1e-6). *)
Theorem first_largest_triple_wins (null_length : R)
  (self : EdgeDataCollector) (vertices : list Vector) :
  (3 <= length vertices)%nat ->
  (exists i j k,
     (i < j /\ j < k /\ k < length vertices)%nat
     /\ triple_cross vertices (i, j, k) <> mkVector 0 0 0) ->
  (forall normal centroid,
     calculate_robust_plane_normal_and_placement null_length self vertices
     = Ok (normal, centroid) ->
     exists before t after,
       index_triples (length vertices) = before ++ t :: after
       /\ (forall t', In t' before ->
           Length (triple_cross vertices t')
           < Length (triple_cross vertices t))
       /\ (forall t', In t' after ->
           Length (triple_cross vertices t')
           <= Length (triple_cross vertices t))
       /\ (normal = unit (triple_cross vertices t)
           \/ normal = multiply (unit (triple_cross vertices t)) (-1)))
  /\ (null_length <= 1e-6 ->
      normalizable null_length vertices ->
      exists normal,
        calculate_robust_plane_normal_and_placement null_length self vertices
        = Ok (normal, mean vertices)).
Proof.
  intros H3 (i0 & j0 & k0 & Hijk0 & Hne).
  split; [| apply estimator_returns_mean, H3].
  intros normal centroid Hrun.
  destruct (estimator_cases null_length self vertices H3)
    as [(_ & Hrun')
       | [(_ & Hall & _)
         | (_ & before & w & after & Hw & _ & Hsplit & Hb & Ha & Hrun')]].
  - rewrite Hrun' in Hrun. discriminate.
  - exfalso. apply Hne, Length_zero, Hall, in_index_triples, Hijk0.
  - rewrite Hrun' in Hrun. apply after_sign_returned in Hrun.
    destruct Hrun as (_ & Hsign).
    destruct (resolve_sign_returned _ _ _ _ _ Hsign) as (Hor & _).
    exists before, w, after.
    split; [exact Hsplit |]. split; [exact Hb |]. split; [exact Ha |].
    exact Hor.
Qed.

Lemma first_largest_triple_wins_witness :
  exists normal before t after,
    calculate_robust_plane_normal_and_placement 1e-7
      (mkCollector (mkVector 0 0 0))
      [mkVector 0 0 0; mkVector 1 0 0; mkVector 0 1 0]
    = Ok (normal, mean [mkVector 0 0 0; mkVector 1 0 0; mkVector 0 1 0])
    /\ index_triples 3 = before ++ t :: after
    /\ (normal
        = unit (triple_cross
                  [mkVector 0 0 0; mkVector 1 0 0; mkVector 0 1 0] t)
        \/ normal
           = multiply
               (unit (triple_cross
                        [mkVector 0 0 0; mkVector 1 0 0; mkVector 0 1 0] t))
               (-1)).
Proof.
  destruct (first_largest_triple_wins 1e-7 (mkCollector (mkVector 0 0 0))
              [mkVector 0 0 0; mkVector 1 0 0; mkVector 0 1 0])
    as (Hok & Hret).
  - simpl. lia.
  - exists 0%nat, 1%nat, 2%nat. split; [simpl; lia |].
    intro H. apply (f_equal z) in H.
    unfold triple_cross, at_index in H. vec_simpl. lra.
  - destruct Hret as (normal & Hrun);
      [lra | apply unit_triangle_normalizable; lra |].
    destruct (Hok normal _ Hrun) as (before & t & after & Hs & _ & _ & Hor).
    exists normal, before, t, after.
    split; [exact Hrun |]. split; [exact Hs | exact Hor].
Defined.

(** ** Moving and flattening the input of the plane estimator *)

Lemma Rsum_translate (f : Vector -> R) (vs : list Vector) (t : Vector) (c : R) :
  (forall v, f (add v t) = f v + c) ->
  Rsum (map f (map (fun v => add v t) vs))
  = Rsum (map f vs) + INR (length vs) * c.
Proof.
  intro Hf. unfold Rsum.
  induction vs as [| v vs IH]; [simpl; ring |].
  change (length (v :: vs)) with (S (length vs)). rewrite S_INR.
  simpl map. simpl fold_right. rewrite IH, Hf. ring.
Qed.

Lemma mean_translate (vs : list Vector) (t : Vector) :
  vs <> [] -> mean (map (fun v => add v t) vs) = add (mean vs) t.
Proof.
  intro Hne.
  assert (Hn : INR (length vs) <> 0).
  { apply not_0_INR. destruct vs; [contradiction | discriminate]. }
  destruct (mean_coords (map (fun v => add v t) vs)) as (Hx & Hy & Hz).
  destruct (mean_coords vs) as (Hx' & Hy' & Hz').
  rewrite length_map in Hx, Hy, Hz.
  apply vector_eq.
  - rewrite Hx. change (x (add (mean vs) t)) with (x (mean vs) + x t).
    rewrite Hx', (Rsum_translate x vs t (x t)) by reflexivity.
    field. exact Hn.
  - rewrite Hy. change (y (add (mean vs) t)) with (y (mean vs) + y t).
    rewrite Hy', (Rsum_translate y vs t (y t)) by reflexivity.
    field. exact Hn.
  - rewrite Hz. change (z (add (mean vs) t)) with (z (mean vs) + z t).
    rewrite Hz', (Rsum_translate z vs t (z t)) by reflexivity.
    field. exact Hn.
Qed.

Lemma sub_add_cancel (a b t : Vector) : sub (add a t) (add b t) = sub a b.
Proof. apply vector_eq; vec_simpl; ring. Qed.

(** X7.  Moving every input point and the reference centre by the same
    vector moves the centroid by that vector and leaves the normal as it
    is, for three points or more; and when the estimator raises on the
    one input it raises on the other. *)
Theorem estimator_translation (null_length : R)
  (self : EdgeDataCollector) (vertices : list Vector) (t : Vector) :
  (3 <= length vertices)%nat ->
  (forall normal center,
     calculate_robust_plane_normal_and_placement null_length self vertices
     = Ok (normal, center) ->
     calculate_robust_plane_normal_and_placement null_length
       (mkCollector (add (edge_mass_center self) t))
       (map (fun v => add v t) vertices)
     = Ok (normal, add center t))
  /\ (forall e,
        calculate_robust_plane_normal_and_placement null_length self vertices
        = Raise e ->
        calculate_robust_plane_normal_and_placement null_length
          (mkCollector (add (edge_mass_center self) t))
          (map (fun v => add v t) vertices)
        = Raise e).
Proof.
  intro H3.
  assert (Hboth :
    calculate_robust_plane_normal_and_placement null_length
      (mkCollector (add (edge_mass_center self) t))
      (map (fun v => add v t) vertices)
    = match calculate_robust_plane_normal_and_placement
              null_length self vertices with
      | Ok (normal, center) => Ok (normal, add center t)
      | Raise e => Raise e
      end).
  { unfold calculate_robust_plane_normal_and_placement.
    rewrite length_map, not_lt_3 by exact H3.
    assert (Hne : vertices <> [])
      by (destruct vertices; [simpl in H3; lia | discriminate]).
    rewrite (mean_translate vertices t Hne).
    rewrite map_map.
    rewrite (map_ext (fun v => sub (add v t) (add (mean vertices) t))
                     (fun v => sub v (mean vertices)))
      by (intro v; apply sub_add_cancel).
    destruct (best_triple null_length _) as [st | e]; simpl;
      [| reflexivity].
    unfold resolve_sign. simpl edge_mass_center. rewrite sub_add_cancel.
    destruct (gtb _ 1e-6); simpl; [| reflexivity].
    destruct (normalize null_length _) as [dl | e]; simpl; [| reflexivity].
    destruct (ltb _ 0); reflexivity. }
  split.
  - intros normal center H. rewrite Hboth, H. reflexivity.
  - intros e H. rewrite Hboth, H. reflexivity.
Qed.

Lemma estimator_translation_witness :
  exists normal center,
    calculate_robust_plane_normal_and_placement 1e-7
      (mkCollector (mkVector 0 0 0))
      [mkVector 0 0 0; mkVector 1 0 0; mkVector 0 1 0]
    = Ok (normal, center)
    /\ calculate_robust_plane_normal_and_placement 1e-7
         (mkCollector (add (mkVector 0 0 0) (mkVector 5 5 5)))
         (map (fun v => add v (mkVector 5 5 5))
              [mkVector 0 0 0; mkVector 1 0 0; mkVector 0 1 0])
       = Ok (normal, add center (mkVector 5 5 5)).
Proof.
  destruct (estimator_returns 1e-7 (mkCollector (mkVector 0 0 0))
              [mkVector 0 0 0; mkVector 1 0 0; mkVector 0 1 0])
    as (normal & center & Hrun);
    [lra | apply unit_triangle_normalizable; lra |].
  exists normal, center. split; [exact Hrun |].
  apply (proj1 (estimator_translation 1e-7 (mkCollector (mkVector 0 0 0))
                  [mkVector 0 0 0; mkVector 1 0 0; mkVector 0 1 0]
                  (mkVector 5 5 5) ltac:(simpl; lia))).
  exact Hrun.
Defined.

(** Two vectors of a plane have a cross product along the plane's unit
    normal. *)
Lemma cross_along_normal (m a b : Vector) :
  dot m m = 1 -> dot m a = 0 -> dot m b = 0 ->
  cross a b = multiply m (dot (cross a b) m).
Proof.
  destruct m as [m1 m2 m3], a as [a1 a2 a3], b as [b1 b2 b3].
  vec_simpl. intros Hm Ha Hb.
  apply vector_eq; simpl; nsatz.
Qed.

Lemma unit_along (m n : Vector) :
  Length m = 1 ->
  n <> mkVector 0 0 0 ->
  n = multiply m (dot n m) ->
  unit n = m \/ unit n = multiply m (-1).
Proof.
  intros Hm Hne Hn. set (l := dot n m) in *.
  assert (Hl : l <> 0).
  { intro H0. apply Hne. rewrite Hn, H0. apply vector_eq; vec_simpl; ring. }
  assert (Hlen : Length n = Rabs l).
  { rewrite Hn, Length_multiply, Hm. ring. }
  unfold unit. rewrite Hlen, Hn. unfold Rabs.
  destruct (Rcase_abs l) as [Hneg | Hpos].
  - right. apply vector_eq; vec_simpl; field; lra.
  - left. apply vector_eq; vec_simpl; field; lra.
Qed.

Lemma at_index_In (vs : list Vector) (i : nat) :
  (i < length vs)%nat -> In (at_index vs i) vs.
Proof. intro H. unfold at_index. apply nth_In, H. Qed.

Lemma dot_sub_r (m p q : Vector) : dot m (sub p q) = dot m p - dot m q.
Proof. vec_simpl. ring. Qed.

(** X8.  When the input points, three or more and not all on one line,
    lie in one plane, a normal that the plane estimator returns is that
    plane's unit normal or its opposite, so it is perpendicular to the
    difference of any two input points, and the centroid is the mean.
    The estimator returns when the host normalizes the first cross product
    handed to it (its null length being at most 1e-6). *)
Theorem coplanar_points_normal (null_length : R)
  (self : EdgeDataCollector) (vertices : list Vector) (m : Vector) (d : R) :
  (3 <= length vertices)%nat ->
  (exists i j k,
     (i < j /\ j < k /\ k < length vertices)%nat
     /\ triple_cross vertices (i, j, k) <> mkVector 0 0 0) ->
  Length m = 1 ->
  (forall p, In p vertices -> dot m p = d) ->
  (forall normal centroid,
     calculate_robust_plane_normal_and_placement null_length self vertices
     = Ok (normal, centroid) ->
     centroid = mean vertices
     /\ (normal = m \/ normal = multiply m (-1))
     /\ forall p q,
          In p vertices -> In q vertices -> dot normal (sub p q) = 0)
  /\ (null_length <= 1e-6 ->
      normalizable null_length vertices ->
      exists normal,
        calculate_robust_plane_normal_and_placement null_length self vertices
        = Ok (normal, mean vertices)).
Proof.
  intros H3 (i0 & j0 & k0 & Hijk0 & Hne) Hm Hplane.
  split; [| apply estimator_returns_mean, H3].
  intros normal centroid Hrun.
  destruct (estimator_cases null_length self vertices H3)
    as [(_ & Hrun')
       | [(_ & Hall & _)
         | (_ & before & w & after & Hw & _ & Hsplit & _ & _ & Hrun')]].
  - rewrite Hrun' in Hrun. discriminate.
  - exfalso. apply Hne, Length_zero, Hall, in_index_triples, Hijk0.
  - rewrite Hrun' in Hrun. apply after_sign_returned in Hrun.
    destruct Hrun as (-> & Hsign).
    destruct (resolve_sign_returned _ _ _ _ _ Hsign) as (Hor & _).
    split; [reflexivity |].
    destruct w as [[i j] k].
    assert (Hijk : (i < j /\ j < k /\ k < length vertices)%nat).
    { apply in_index_triples. rewrite Hsplit. apply in_or_app.
      right. left. reflexivity. }
    set (n := triple_cross vertices (i, j, k)) in *.
    assert (Hmm : dot m m = 1) by (rewrite <- Length_sqr, Hm; ring).
    assert (Hn0 : n <> mkVector 0 0 0).
    { intro H0. apply Length_zero in H0. lra. }
    assert (Halong : n = multiply m (dot n m)).
    { unfold n, triple_cross. apply cross_along_normal; [exact Hmm | |];
        rewrite dot_sub_r, !Hplane by (apply at_index_In; lia); ring. }
    assert (Hpm : normal = m \/ normal = multiply m (-1)).
    { destruct (unit_along m n Hm Hn0 Halong) as [Hu | Hu];
        rewrite Hu in Hor; destruct Hor as [-> | ->]; auto.
      left. apply vector_eq; vec_simpl; ring. }
    split; [exact Hpm |].
    intros p q Hp Hq.
    assert (Hz : dot m (sub p q) = 0)
      by (rewrite dot_sub_r, (Hplane p Hp), (Hplane q Hq); ring).
    destruct Hpm as [-> | ->]; [exact Hz |].
    rewrite dot_multiply_l, Hz. ring.
Qed.

Lemma coplanar_points_normal_witness :
  exists normal,
    calculate_robust_plane_normal_and_placement 1e-7
      (mkCollector (mkVector 0 0 0))
      [mkVector 0 0 2; mkVector 1 0 2; mkVector 0 1 2]
    = Ok (normal, mean [mkVector 0 0 2; mkVector 1 0 2; mkVector 0 1 2])
    /\ (normal = mkVector 0 0 1 \/ normal = multiply (mkVector 0 0 1) (-1))
    /\ forall p q,
         In p [mkVector 0 0 2; mkVector 1 0 2; mkVector 0 1 2] ->
         In q [mkVector 0 0 2; mkVector 1 0 2; mkVector 0 1 2] ->
         dot normal (sub p q) = 0.
Proof.
  destruct (coplanar_points_normal 1e-7 (mkCollector (mkVector 0 0 0))
              [mkVector 0 0 2; mkVector 1 0 2; mkVector 0 1 2]
              (mkVector 0 0 1) 2)
    as (Hok & Hret).
  - simpl. lia.
  - exists 0%nat, 1%nat, 2%nat. split; [simpl; lia |].
    intro H. apply (f_equal z) in H.
    unfold triple_cross, at_index in H. vec_simpl. lra.
  - apply Length_z_axis.
  - intros p [<- | [<- | [<- | []]]]; vec_simpl; ring.
  - destruct Hret as (normal & Hrun).
    + lra.
    + apply three_points_normalizable.
      rewrite (Length_of_square _ 1); [lra | lra | vec_simpl; ring].
    + exists normal. split; [exact Hrun |].
      destruct (Hok normal _ Hrun) as (_ & Hpm & Hperp).
      split; [exact Hpm | exact Hperp].
Defined.

(** X9.  The plane estimator fails exactly in its first normalization: it
    raises the host's exception when the host refuses the first cross
    product that is not null, the only vector it hands to [normalize]
    behind the guard [n.Length > 0] alone; a normal that it returns has
    length 1.  Fewer than three points, and a host that refuses the null
    vector only, never meet the failure; and the estimator returns
    whenever the first normalization succeeds, the host's null length
    being at most the 1e-6 of the later guards. *)
Theorem estimator_raises_exactly (null_length : R)
  (self : EdgeDataCollector) (vertices : list Vector) :
  (~ normalizable null_length vertices ->
   calculate_robust_plane_normal_and_placement null_length self vertices
   = Raise NullVector)
  /\ (forall normal center,
        calculate_robust_plane_normal_and_placement null_length self vertices
        = Ok (normal, center) ->
        normalizable null_length vertices /\ Length normal = 1)
  /\ ((length vertices < 3)%nat \/ null_length <= 0 ->
      normalizable null_length vertices)
  /\ (null_length <= 1e-6 ->
      normalizable null_length vertices ->
      exists normal center,
        calculate_robust_plane_normal_and_placement null_length self vertices
        = Ok (normal, center)).
Proof.
  split; [apply estimator_raises |].
  split; [| split; [| apply estimator_returns]].
  - intros normal center Hrun.
    split; [exact (estimator_returned _ _ _ _ _ Hrun) |].
    destruct (Nat.lt_ge_cases (length vertices) 3) as [Hlt | H3].
    + unfold calculate_robust_plane_normal_and_placement in Hrun.
      apply Nat.ltb_lt in Hlt. rewrite Hlt in Hrun.
      injection Hrun as <- _. apply Length_z_axis.
    + destruct (estimator_cases null_length self vertices H3)
        as [(_ & Hrun')
           | [(_ & _ & Hrun')
             | (_ & before & w & after & Hw & _ & _ & _ & _ & Hrun')]];
        rewrite Hrun' in Hrun; [discriminate | |];
        apply after_sign_returned in Hrun; destruct Hrun as (_ & Hsign);
        destruct (resolve_sign_returned _ _ _ _ _ Hsign) as (Hor & _).
      * destruct Hor as [-> | ->];
          [| rewrite Length_opp]; apply Length_z_axis.
      * assert (Hu : Length (unit (triple_cross vertices w)) = 1)
          by (apply Length_unit; lra).
        destruct Hor as [-> | ->]; [| rewrite Length_opp]; exact Hu.
  - intros [Hlt | Hnull]; [apply short_normalizable, Hlt |].
    unfold normalizable.
    destruct (first_normalized vertices) as [t |] eqn:Hf; [| exact I].
    destruct (first_normalized_In vertices t Hf) as (_ & Hpos). lra.
Qed.

(** ** More on the placement builder *)

Lemma robust_rotation_along_z : robust_rotation (mkVector 0 0 1) = Rotation_identity.
Proof.
  unfold robust_rotation.
  assert (Hd : dot (mkVector 0 0 1) z_axis = 1)
    by (unfold z_axis; vec_simpl; ring).
  rewrite Hd, Rabs_R1.
  replace (gtb 1 0.999) with true by (symmetry; apply gtb_true; lra).
  replace (gtb (z (mkVector 0 0 1)) 0) with true
    by (symmetry; apply gtb_true; simpl; lra).
  reflexivity.
Qed.

Lemma unit_scale (v : Vector) (k : R) :
  0 < k -> Length v <> 0 -> unit (multiply v k) = unit v.
Proof.
  intros Hk Hv. unfold unit. rewrite Length_multiply.
  rewrite Rabs_right by lra.
  apply vector_eq; vec_simpl; field; split; lra.
Qed.

(** X10.  A normal not longer than 1e-6, the null vector included, is
    replaced by (0,0,1): the placement builder then returns the given
    origin with the identity rotation, without normalizing anything. *)
Theorem degenerate_normal_identity (null_length : R)
  (normal center : Vector) :
  Length normal <= 1e-6 ->
  create_robust_placement null_length normal center
  = Ok (mkPlacement center Rotation_identity).
Proof.
  intro H. unfold create_robust_placement.
  replace (gtb (Length normal) 1e-6) with false
    by (symmetry; apply gtb_false; exact H).
  simpl. rewrite robust_rotation_along_z. reflexivity.
Qed.

Lemma degenerate_normal_identity_witness :
  create_robust_placement 1e-7 (mkVector 0 0 0) (mkVector 1 2 3)
  = Ok (mkPlacement (mkVector 1 2 3) Rotation_identity).
Proof.
  apply (degenerate_normal_identity 1e-7 (mkVector 0 0 0) (mkVector 1 2 3)).
  rewrite (Length_of_square _ 0); [lra | lra | vec_simpl; lra].
Defined.

(** X11.  Only the direction of the normal matters: a normal and any
    positive multiple of it, both longer than 1e-6, give the same
    placement (the host's null length being at most the 1e-6 of the
    guard). *)
Theorem placement_scale_invariant (null_length : R)
  (normal center : Vector) (k : R) :
  null_length <= 1e-6 ->
  0 < k ->
  Length normal > 1e-6 ->
  Length (multiply normal k) > 1e-6 ->
  create_robust_placement null_length (multiply normal k) center
  = create_robust_placement null_length normal center.
Proof.
  intros Hnull Hk Hn Hkn. unfold create_robust_placement.
  replace (gtb (Length normal) 1e-6) with true
    by (symmetry; apply gtb_true; exact Hn).
  replace (gtb (Length (multiply normal k)) 1e-6) with true
    by (symmetry; apply gtb_true; exact Hkn).
  rewrite !normalize_ok by lra.
  rewrite unit_scale by lra. reflexivity.
Qed.

Lemma placement_scale_invariant_witness :
  create_robust_placement 1e-7 (multiply (mkVector 0 3 4) 2) (mkVector 0 0 0)
  = create_robust_placement 1e-7 (mkVector 0 3 4) (mkVector 0 0 0).
Proof.
  assert (Hl : Length (mkVector 0 3 4) = 5)
    by (apply Length_of_square; [lra | vec_simpl; lra]).
  apply (placement_scale_invariant 1e-7 (mkVector 0 3 4) (mkVector 0 0 0) 2).
  - lra.
  - lra.
  - rewrite Hl. lra.
  - rewrite Length_multiply, Hl, Rabs_right by lra. lra.
Defined.

(** The rows of the half turn about world X. *)
Lemma half_turn_x_matrix :
  Rotation_axis_angle (mkVector 1 0 0) 180
  = mkRotation (mkVector 1 0 0) (mkVector 0 (-1) 0) (mkVector 0 0 (-1)).
Proof.
  unfold Rotation_axis_angle. rewrite (unit_of_unit _ Length_x_axis).
  replace (180 * PI / 180) with PI by field.
  unfold matrix_of, rotate_about. rewrite cos_PI, sin_PI.
  f_equal; apply vector_eq; vec_simpl; ring.
Qed.

(** A matrix whose rows are orthonormal is undone by its transpose. *)
Lemma orthonormal_round_trip (r : Rotation) :
  dot (row1 r) (row1 r) = 1 -> dot (row2 r) (row2 r) = 1 ->
  dot (row3 r) (row3 r) = 1 -> dot (row1 r) (row2 r) = 0 ->
  dot (row1 r) (row3 r) = 0 -> dot (row2 r) (row3 r) = 0 ->
  forall v,
    Rotation_multVec r (Rotation_multVec (Rotation_inverse r) v) = v.
Proof.
  destruct r as [[a1 a2 a3] [b1 b2 b3] [c1 c2 c3]]. vec_simpl.
  intros H11 H22 H33 H12 H13 H23 [v1 v2 v3].
  apply vector_eq; unfold Rotation_multVec, Rotation_inverse; vec_simpl;
    nsatz.
Qed.

Lemma orthonormal_round_trip_back (r : Rotation) :
  dot (row1 r) (row1 r) = 1 -> dot (row2 r) (row2 r) = 1 ->
  dot (row3 r) (row3 r) = 1 -> dot (row1 r) (row2 r) = 0 ->
  dot (row1 r) (row3 r) = 0 -> dot (row2 r) (row3 r) = 0 ->
  forall v,
    Rotation_multVec (Rotation_inverse r) (Rotation_multVec r v) = v.
Proof.
  destruct r as [[a1 a2 a3] [b1 b2 b3] [c1 c2 c3]]. vec_simpl.
  intros H11 H22 H33 H12 H13 H23 [v1 v2 v3].
  apply vector_eq; unfold Rotation_multVec, Rotation_inverse; vec_simpl;
    nsatz.
Qed.

(** The rows of the shortest-arc rotation from world Z to a unit
    vector. *)
Lemma from_z_matrix (n : Vector) :
  Length n = 1 -> 1 + z n <> 0 ->
  Rotation_from_to z_axis n
  = mkRotation
      (mkVector (z n + y n * y n / (1 + z n)) (- (x n * y n) / (1 + z n)) (x n))
      (mkVector (- (x n * y n) / (1 + z n)) (z n + x n * x n / (1 + z n)) (y n))
      (mkVector (- x n) (- y n) (z n)).
Proof.
  intros Hn Hz. unfold Rotation_from_to.
  rewrite (unit_of_unit _ Length_z_axis), (unit_of_unit _ Hn).
  destruct n as [n1 n2 n3]. simpl in Hz.
  unfold matrix_of, shortest_arc, z_axis.
  f_equal; apply vector_eq; vec_simpl; field; lra.
Qed.

(** Every rotation the placement builder can choose is undone by its
    inverse, on both sides. *)
Lemma robust_rotation_invertible (n : Vector) :
  Length n = 1 ->
  forall v,
    Rotation_multVec (robust_rotation n)
      (Rotation_multVec (Rotation_inverse (robust_rotation n)) v) = v
    /\ Rotation_multVec (Rotation_inverse (robust_rotation n))
         (Rotation_multVec (robust_rotation n) v) = v.
Proof.
  intros Hn v.
  assert (Hrows :
    dot (row1 (robust_rotation n)) (row1 (robust_rotation n)) = 1
    /\ dot (row2 (robust_rotation n)) (row2 (robust_rotation n)) = 1
    /\ dot (row3 (robust_rotation n)) (row3 (robust_rotation n)) = 1
    /\ dot (row1 (robust_rotation n)) (row2 (robust_rotation n)) = 0
    /\ dot (row1 (robust_rotation n)) (row3 (robust_rotation n)) = 0
    /\ dot (row2 (robust_rotation n)) (row3 (robust_rotation n)) = 0).
  { unfold robust_rotation.
    assert (Hz : dot n z_axis = z n) by (unfold z_axis; vec_simpl; ring).
    destruct (gtb (Rabs (dot n z_axis)) 0.999) eqn:Habs.
    - destruct (gtb (z n) 0).
      + unfold Rotation_identity. vec_simpl. repeat split; ring.
      + rewrite half_turn_x_matrix. vec_simpl. repeat split; ring.
    - apply gtb_false in Habs. rewrite Hz in Habs.
      assert (Hpos : 1 + z n <> 0).
      { unfold Rabs in Habs. destruct (Rcase_abs (z n)); lra. }
      rewrite (from_z_matrix n Hn Hpos).
      pose proof (Length_sqr n) as Hs. rewrite Hn in Hs.
      destruct n as [n1 n2 n3]. vec_simpl.
      set (k := / (1 + n3)).
      assert (Hk : k * (1 + n3) = 1) by (unfold k; field; exact Hpos).
      unfold Rdiv. fold k. repeat split; nsatz. }
  destruct Hrows as (H11 & H22 & H33 & H12 & H13 & H23).
  split.
  - apply orthonormal_round_trip; assumption.
  - apply orthonormal_round_trip_back; assumption.
Qed.

Lemma multVec_add (r : Rotation) (a b : Vector) :
  Rotation_multVec r (add a b) = add (Rotation_multVec r a) (Rotation_multVec r b).
Proof. apply vector_eq; unfold Rotation_multVec; vec_simpl; ring. Qed.

Lemma placement_round_trips (p : Placement) :
  (forall v, Rotation_multVec (Rot p)
               (Rotation_multVec (Rotation_inverse (Rot p)) v) = v) ->
  (forall v, Rotation_multVec (Rotation_inverse (Rot p))
               (Rotation_multVec (Rot p) v) = v) ->
  forall v,
    Placement_multVec p (Placement_multVec (Placement_inverse p) v) = v
    /\ Placement_multVec (Placement_inverse p) (Placement_multVec p v) = v.
Proof.
  intros H1 H2 v. unfold Placement_multVec, Placement_inverse. simpl.
  split.
  - rewrite multVec_add, !H1. apply vector_eq; vec_simpl; ring.
  - rewrite multVec_add, H2.
    apply vector_eq; unfold Rotation_multVec; vec_simpl; ring.
Qed.

(** X12.  Whatever the normal, the placement builder returns a placement
    at the given origin whose inverse undoes it on both sides: a global
    point taken to local coordinates and back is the same point, and a
    local point taken to global coordinates and back is the same point
    (the host's null length being at most the 1e-6 of the guard). *)
Theorem placement_round_trip (null_length : R) (normal center : Vector) :
  null_length <= 1e-6 ->
  exists p,
    create_robust_placement null_length normal center = Ok p
    /\ Base p = center
    /\ forall v,
         Placement_multVec p (Placement_multVec (Placement_inverse p) v) = v
         /\ Placement_multVec (Placement_inverse p) (Placement_multVec p v)
            = v.
Proof.
  intro Hnull.
  destruct (normalized_input null_length normal Hnull)
    as (n & Hn & _ & Hlen).
  exists (mkPlacement center (robust_rotation n)).
  split; [unfold create_robust_placement; rewrite Hn; reflexivity |].
  split; [reflexivity |].
  apply placement_round_trips; intro v; simpl;
    apply (robust_rotation_invertible n Hlen v).
Qed.

Lemma placement_round_trip_witness :
  exists p,
    create_robust_placement 1e-7 (mkVector 3 0 4) (mkVector 1 2 3) = Ok p
    /\ Base p = mkVector 1 2 3
    /\ forall v,
         Placement_multVec p (Placement_multVec (Placement_inverse p) v) = v
         /\ Placement_multVec (Placement_inverse p) (Placement_multVec p v)
            = v.
Proof.
  apply (placement_round_trip 1e-7 (mkVector 3 0 4) (mkVector 1 2 3)).
  lra.
Defined.

(** ** More on planes from two edges and on the classifier *)

Lemma dot_cross_left (a b : Vector) : dot a (cross a b) = 0.
Proof. vec_simpl. ring. Qed.

Lemma dot_cross_right (a b : Vector) : dot b (cross a b) = 0.
Proof. vec_simpl. ring. Qed.

Lemma dot_zero_l (v : Vector) (p : Vector) : dot (sub p p) v = 0.
Proof. vec_simpl. ring. Qed.

Lemma on_plane_zero (pl : Plane) (pt : Vector) :
  dot (sub pt (plane_point pl)) (plane_normal pl) = 0 ->
  on_plane pl membership_tol pt.
Proof.
  intro H. unfold on_plane, membership_tol. rewrite H, Rabs_R0. lra.
Qed.

(** X13.  A plane built from two selected edges passes through both ends
    of the first edge and through the end of the second edge that defined
    it, so the first selected edge is always among the coplanar edges
    returned for a shape that contains it. *)
Theorem first_edge_is_coplanar (e1 e2 : Edge) (pl : Plane) (edges : list Edge) :
  plane_from_edges e1 e2 = inl pl ->
  is_coplanar pl e1 = true
  /\ (exists v3, In v3 (Vertexes e2) /\ on_plane pl membership_tol v3)
  /\ (In e1 edges -> In e1 (coplanar_edges edges pl)).
Proof.
  intro H.
  destruct (plane_from_edges_spec e1 e2 pl H)
    as (v3 & Hin & _ & _ & Hn & Hp & _).
  assert (H1 : is_coplanar pl e1 = true).
  { apply is_coplanar_iff. split; apply on_plane_zero; rewrite Hp, Hn.
    - apply dot_zero_l.
    - apply dot_cross_left. }
  split; [exact H1 |]. split.
  - exists v3. split; [exact Hin |]. apply on_plane_zero. rewrite Hp, Hn.
    apply dot_cross_right.
  - intro He. unfold coplanar_edges. apply filter_In. auto.
Qed.

Lemma first_edge_is_coplanar_witness :
  is_coplanar (mkPlane (mkVector 0 0 4) (mkVector 0 0 0))
              (mkEdge (mkVector 0 0 0) (mkVector 2 0 0)) = true
  /\ (exists v3,
        In v3 (Vertexes (mkEdge (mkVector 0 0 0) (mkVector 0 2 0)))
        /\ on_plane (mkPlane (mkVector 0 0 4) (mkVector 0 0 0))
                    membership_tol v3)
  /\ (In (mkEdge (mkVector 0 0 0) (mkVector 2 0 0))
         [mkEdge (mkVector 0 0 0) (mkVector 2 0 0)] ->
      In (mkEdge (mkVector 0 0 0) (mkVector 2 0 0))
         (coplanar_edges [mkEdge (mkVector 0 0 0) (mkVector 2 0 0)]
            (mkPlane (mkVector 0 0 4) (mkVector 0 0 0)))).
Proof.
  apply (first_edge_is_coplanar
           (mkEdge (mkVector 0 0 0) (mkVector 2 0 0))
           (mkEdge (mkVector 0 0 0) (mkVector 0 2 0))).
  pose proof right_angle_edges_plane as H.
  unfold selection_plane in H. simpl in H. exact H.
Defined.

Lemma cross_parallel (a : Vector) (s : R) : cross a (multiply a s) = mkVector 0 0 0.
Proof. apply vector_eq; vec_simpl; ring. Qed.

Lemma filter_none {A : Type} (f : A -> bool) (l : list A) :
  (forall a, In a l -> f a = false) -> filter f l = [].
Proof.
  induction l as [| a l IH]; intro H; simpl; [reflexivity |].
  rewrite H by (left; reflexivity). apply IH.
  intros b Hb. apply H. right. exact Hb.
Qed.

(** X14.  Two edges define no plane when every end of the second edge is
    within 1e-4 of an end of the first (in particular when the same edge
    is given twice): the result is the error "could not define a valid
    plane"; and when the second edge lies on the line through the first,
    the result is an error as well.  A plane that is returned has a
    normal of length at least 1e-6. *)
Theorem plane_from_edges_errors (e1 e2 : Edge) :
  ((forall p, In p (Vertexes e2) ->
      Length (sub p (v_first e1)) < default_tol
      \/ Length (sub p (v_last e1)) < default_tol) ->
   plane_from_edges e1 e2 = inr NoValidPlane)
  /\ plane_from_edges e1 e1 = inr NoValidPlane
  /\ ((forall p, In p (Vertexes e2) ->
         exists s, sub p (v_first e1)
                   = multiply (sub (v_last e1) (v_first e1)) s) ->
      exists err, plane_from_edges e1 e2 = inr err)
  /\ (forall pl, plane_from_edges e1 e2 = inl pl ->
      1e-6 <= Length (plane_normal pl)).
Proof.
  assert (Hnone : forall e,
    (forall p, In p (Vertexes e) ->
       Length (sub p (v_first e1)) < default_tol
       \/ Length (sub p (v_last e1)) < default_tol) ->
    plane_from_edges e1 e = inr NoValidPlane).
  { intros e H. unfold plane_from_edges.
    rewrite (filter_none _ (Vertexes e)); [reflexivity |].
    intros p Hp. apply andb_false_iff.
    destruct (H p Hp) as [Hc | Hc]; apply is_close_iff in Hc; rewrite Hc;
      auto. }
  split; [apply Hnone |]. split; [| split].
  - apply Hnone. intros p [<- | [<- | []]].
    + left. rewrite Length_sub_self. unfold default_tol. lra.
    + right. rewrite Length_sub_self. unfold default_tol. lra.
  - intro Hline. unfold plane_from_edges.
    destruct (filter _ (Vertexes e2)) as [| v3 rest] eqn:Hf; [eauto |].
    assert (Hin : In v3 (Vertexes e2)).
    { assert (H : In v3 (v3 :: rest)) by (left; reflexivity).
      rewrite <- Hf in H. apply filter_In in H. tauto. }
    destruct (Hline v3 Hin) as (s & Hs). rewrite Hs, cross_parallel.
    rewrite (Length_of_square _ 0); [| lra | vec_simpl; ring].
    replace (ltb 0 1e-6) with true by (symmetry; apply ltb_true; lra).
    eauto.
  - intros pl H.
    destruct (plane_from_edges_spec e1 e2 pl H) as (_ & _ & _ & _ & _ & _ & Hl).
    exact Hl.
Qed.

Lemma plane_from_edges_errors_witness :
  plane_from_edges (mkEdge (mkVector 0 0 0) (mkVector 2 0 0))
                   (mkEdge (mkVector 2 0 0) (mkVector 0 0 0))
  = inr NoValidPlane
  /\ (exists err,
        plane_from_edges (mkEdge (mkVector 0 0 0) (mkVector 2 0 0))
                         (mkEdge (mkVector 4 0 0) (mkVector 6 0 0))
        = inr err)
  /\ 1e-6 <= Length (plane_normal (mkPlane (mkVector 0 0 4) (mkVector 0 0 0))).
Proof.
  split; [| split].
  - apply (proj1 (plane_from_edges_errors
                    (mkEdge (mkVector 0 0 0) (mkVector 2 0 0))
                    (mkEdge (mkVector 2 0 0) (mkVector 0 0 0)))).
    intros p [<- | [<- | []]]; simpl.
    + right. rewrite Length_sub_self. unfold default_tol. lra.
    + left. rewrite Length_sub_self. unfold default_tol. lra.
  - apply (proj1 (proj2 (proj2 (plane_from_edges_errors
                    (mkEdge (mkVector 0 0 0) (mkVector 2 0 0))
                    (mkEdge (mkVector 4 0 0) (mkVector 6 0 0)))))).
    intros p [<- | [<- | []]]; simpl.
    + exists 2. apply vector_eq; vec_simpl; ring.
    + exists 3. apply vector_eq; vec_simpl; ring.
  - apply (proj2 (proj2 (proj2 (plane_from_edges_errors
                    (mkEdge (mkVector 0 0 0) (mkVector 2 0 0))
                    (mkEdge (mkVector 0 0 0) (mkVector 0 2 0)))))).
    pose proof right_angle_edges_plane as H.
    unfold selection_plane in H. simpl in H. exact H.
Defined.

Lemma Rabs_dot_opp (a n : Vector) :
  Rabs (dot a (multiply n (-1))) = Rabs (dot a n).
Proof.
  rewrite dot_multiply_r.
  replace (-1 * dot a n) with (- dot a n) by ring. apply Rabs_Ropp.
Qed.

(** X15.  The classification of an edge depends on the plane, not on how
    it is written down: reversing the edge, negating the plane's normal,
    or taking for the plane's point another point with zero offset along
    the normal, leaves the answer of is_coplanar unchanged. *)
Theorem is_coplanar_invariant (n p p' a b : Vector) :
  is_coplanar (mkPlane n p) (mkEdge b a) = is_coplanar (mkPlane n p) (mkEdge a b)
  /\ is_coplanar (mkPlane (multiply n (-1)) p) (mkEdge a b)
     = is_coplanar (mkPlane n p) (mkEdge a b)
  /\ (dot (sub p' p) n = 0 ->
      is_coplanar (mkPlane n p') (mkEdge a b)
      = is_coplanar (mkPlane n p) (mkEdge a b)).
Proof.
  split; [| split].
  - unfold is_coplanar. simpl. rewrite !andb_true_r. apply andb_comm.
  - unfold is_coplanar. simpl. rewrite !Rabs_dot_opp. reflexivity.
  - intro H. unfold is_coplanar. simpl.
    assert (Hshift : forall q, dot (sub q p') n = dot (sub q p) n).
    { intro q. revert H. vec_simpl. intro H. lra. }
    rewrite !Hshift. reflexivity.
Qed.

Lemma is_coplanar_invariant_witness :
  is_coplanar (mkPlane (mkVector 0 0 1) (mkVector 5 5 0))
              (mkEdge (mkVector 0 0 0) (mkVector 1 0 0))
  = is_coplanar (mkPlane (mkVector 0 0 1) (mkVector 0 0 0))
                (mkEdge (mkVector 0 0 0) (mkVector 1 0 0)).
Proof.
  apply (proj2 (proj2 (is_coplanar_invariant (mkVector 0 0 1)
                         (mkVector 0 0 0) (mkVector 5 5 0)
                         (mkVector 0 0 0) (mkVector 1 0 0)))).
  vec_simpl. ring.
Defined.

(** ** What per-edge emission builds *)

Lemma set_flag_at {A : Type} (pre tl : list (A * bool)) (a : A) (f b : bool) :
  set_flag (pre ++ (a, f) :: tl) (length pre) b = pre ++ (a, b) :: tl.
Proof.
  induction pre as [| [a' f'] pre IH]; simpl; [reflexivity |].
  rewrite IH. reflexivity.
Qed.

(** The step of an edge that is not degenerate, spelled out. *)
Lemma edge_body_emits (host : Host) (d d' : Draft) (e : Edge) :
  degenerate e = false ->
  edge_body host d e = Ok d' ->
  d' = mkDraft
         (mkSketch (GlobalPlacement (final_sketch d))
            (Geometry (final_sketch d)
             ++ [(local_segment (GlobalPlacement (final_sketch d)) e, true)])
            (Constraints (final_sketch d)
             ++ [(Block (length (Geometry (final_sketch d))), false)]))
         (register (length (Geometry (final_sketch d)))
            (register (length (Geometry (final_sketch d))) (vertex_map d)
               (v_first e, 1%nat))
            (v_last e, 2%nat))
         (block_constraints d ++ [length (Constraints (final_sketch d))])
         (console d).
Proof.
  unfold degenerate, edge_body. intros ->.
  unfold addGeometry, setConstruction, addConstraint, getGlobalPlacement.
  cbn [GlobalPlacement Geometry Constraints fold_left].
  destruct (accepts host _ _); simpl; [| discriminate].
  intro H. inversion H; subst; clear H. unfold local_segment.
  rewrite (set_flag_at (Geometry (final_sketch d)) [] _ false true).
  reflexivity.
Qed.

(** Induction over the edge loop, with the facts every step may use: the
    number of segments so far and the soundness of the groups. *)
Lemma emission_induction (host : Host) (P : list Edge -> Draft -> Prop) :
  (forall done d e d',
     length (Geometry (final_sketch d)) = length (emitted done) ->
     groups_ok (emitted done) (vertex_map d) ->
     P done d ->
     edge_body host d e = Ok d' ->
     P (done ++ [e]) d') ->
  forall l done d d',
    length (Geometry (final_sketch d)) = length (emitted done) ->
    groups_ok (emitted done) (vertex_map d) ->
    P done d ->
    for_each (edge_body host) l d = Ok d' ->
    P (done ++ l) d'.
Proof.
  intros Hstep. induction l as [| e l IH]; intros done d d' Hlen Hok HP; simpl.
  - intro H. inversion H; subst. rewrite app_nil_r. exact HP.
  - destruct (edge_body host d e) as [d1 | ex] eqn:Hb; simpl;
      [| discriminate].
    intro Hrun.
    destruct (edge_body_keeps host done d d1 e Hlen Hok Hb) as (Hlen1 & Hok1).
    replace (done ++ e :: l) with ((done ++ [e]) ++ l)
      by (rewrite <- app_assoc; reflexivity).
    apply (IH (done ++ [e]) d1 d' Hlen1 Hok1); [| exact Hrun].
    apply (Hstep done d e d1); assumption.
Qed.

Lemma filter_snoc {A : Type} (f : A -> bool) (l : list A) (a : A) :
  filter f (l ++ [a]) = filter f l ++ (if f a then [a] else []).
Proof. rewrite filter_app. reflexivity. Qed.

(** The state after the edge loop on a fresh sketch. *)
Lemma emission_state (host : Host) (gp : Placement) (edges : list Edge)
  (d : Draft) :
  emit_edges host (mkSketch gp [] []) edges = Ok d ->
  GlobalPlacement (final_sketch d) = gp
  /\ Geometry (final_sketch d)
     = map (fun e => (local_segment gp e, true)) (emitted edges)
  /\ Constraints (final_sketch d)
     = map (fun g => (Block g, false)) (seq 0 (length (emitted edges)))
  /\ block_constraints d = seq 0 (length (emitted edges))
  /\ console d
     = map (fun e => WarnDegenerate (v_first e)) (filter degenerate edges).
Proof.
  intro Hrun.
  apply (emission_induction host
    (fun done d =>
       GlobalPlacement (final_sketch d) = gp
       /\ Geometry (final_sketch d)
          = map (fun e => (local_segment gp e, true)) (emitted done)
       /\ Constraints (final_sketch d)
          = map (fun g => (Block g, false)) (seq 0 (length (emitted done)))
       /\ block_constraints d = seq 0 (length (emitted done))
       /\ console d
          = map (fun e => WarnDegenerate (v_first e))
                (filter degenerate done))
    ) with (l := edges) (done := []) (d := mkDraft (mkSketch gp [] []) [] [] []);
    try exact Hrun; try reflexivity.
  - clear. intros done d e d' Hlen _ (Hgp & Hgeo & Hcon & Hbc & Hco) Hb.
    rewrite emitted_snoc, filter_snoc.
    destruct (degenerate e) eqn:Hdeg.
    + rewrite edge_body_degenerate in Hb by exact Hdeg.
      inversion Hb; subst; clear Hb. simpl.
      rewrite !app_nil_r, map_app. simpl. rewrite Hco. auto.
    + apply (edge_body_emits host d d' e Hdeg) in Hb. subst d'. simpl.
      rewrite !app_nil_r, Hgp, Hgeo, Hcon, Hbc, Hco.
      rewrite !length_map, length_seq, !length_app. simpl.
      rewrite Nat.add_1_r, seq_S, !map_app. simpl.
      repeat split; reflexivity.
  - split; [constructor | intros key refs []].
  - repeat split.
Qed.

(** ** Accounting for the references *)

(** Registration adds exactly the one reference. *)
Lemma register_adds (g vid : nat) (pt : Vector) (vm : VertexMap) :
  NoDup (map fst vm) ->
  Permutation (concat (map snd (register g vm (pt, vid))))
              (concat (map snd vm) ++ [(g, vid)])
  /\ (length (register g vm (pt, vid)) = length vm
      \/ length (register g vm (pt, vid)) = S (length vm)).
Proof.
  intro Hnd.
  destruct (first_close_split pt vm)
    as [Hnone | (before & k & refs & after & -> & Hb & Hk)].
  - rewrite register_founds by exact Hnone.
    rewrite map_app, concat_app, length_app. simpl.
    split; [apply Permutation_refl | right; lia].
  - rewrite register_merges by assumption.
    rewrite !map_app, !concat_app, !length_app. simpl.
    split; [| left; reflexivity].
    rewrite <- !app_assoc. apply Permutation_app_head.
    apply Permutation_app_head. apply Permutation_app_comm.
Qed.

Lemma register_keys (g vid : nat) (pt : Vector) (vm : VertexMap) :
  NoDup (map fst vm) ->
  map fst (register g vm (pt, vid)) = map fst vm
  \/ (none_close pt vm
      /\ map fst (register g vm (pt, vid)) = map fst vm ++ [key_of pt]).
Proof.
  intro Hnd.
  destruct (first_close_split pt vm)
    as [Hnone | (before & k & refs & after & -> & Hb & Hk)].
  - right. split; [exact Hnone |]. rewrite register_founds by exact Hnone.
    rewrite map_app. reflexivity.
  - left. rewrite register_merges by assumption.
    rewrite !map_app. reflexivity.
Qed.

Lemma register_NoDup (g vid : nat) (pt : Vector) (vm : VertexMap) :
  NoDup (map fst vm) -> NoDup (map fst (register g vm (pt, vid))).
Proof.
  intro Hnd. destruct (register_keys g vid pt vm Hnd) as [-> | (Hnone & ->)];
    [exact Hnd |].
  apply NoDup_app; [exact Hnd | repeat constructor; intros [] |].
  intros a Ha [<- | []]. exact (not_close_key_fresh pt vm Hnone Ha).
Qed.

Lemma flat_map_snoc {A B : Type} (f : A -> list B) (l : list A) (a : A) :
  flat_map f (l ++ [a]) = flat_map f l ++ f a.
Proof. rewrite flat_map_app. simpl. rewrite app_nil_r. reflexivity. Qed.

(** After the edge loop the references of all groups together are, up to
    order, the start and the end of each segment, once each. *)
Lemma refs_accounted (host : Host) (gp : Placement)
  (edges : list Edge) (d : Draft) :
  emit_edges host (mkSketch gp [] []) edges = Ok d ->
  Permutation (concat (map snd (vertex_map d)))
              (flat_map segment_refs (seq 0 (length (emitted edges)))).
Proof.
  intro Hrun.
  apply (emission_induction host
    (fun done d =>
       Permutation (concat (map snd (vertex_map d)))
                   (flat_map segment_refs (seq 0 (length (emitted done)))))
    ) with (l := edges) (done := []) (d := mkDraft (mkSketch gp [] []) [] [] []);
    try exact Hrun; try reflexivity.
  - clear. intros done d e d' Hlen (Hnd & _) HP Hb.
    rewrite emitted_snoc.
    destruct (degenerate e) eqn:Hdeg.
    + rewrite edge_body_degenerate in Hb by exact Hdeg.
      inversion Hb; subst; clear Hb. simpl. rewrite app_nil_r. exact HP.
    + apply (edge_body_emits host d d' e Hdeg) in Hb. subst d'. simpl.
      rewrite length_app. simpl. rewrite Nat.add_1_r, seq_S, flat_map_snoc.
      simpl. rewrite Hlen.
      set (g := length (emitted done)).
      destruct (register_adds g 1 (v_first e) (vertex_map d) Hnd) as (H1 & _).
      pose proof (register_NoDup g 1 (v_first e) (vertex_map d) Hnd) as Hnd1.
      destruct (register_adds g 2 (v_last e) _ Hnd1) as (H2 & _).
      eapply perm_trans; [exact H2 |].
      eapply perm_trans;
        [apply Permutation_app_tail; exact H1 |].
      rewrite <- app_assoc. apply Permutation_app_tail. exact HP.
  - split; [constructor | intros key refs []].
Qed.

(** C9.  Registration merges an end point into the first vertex group, in
    insertion order, whose key is within the merge tolerance 0.001 of it
    (found by a scan with the proximity test, whether or not the
    coordinates are equal), and founds a new group keyed by the point
    itself when there is none; the loop step of an edge that is not
    degenerate registers its start and then its end in this way, under
    the index of its segment.  Consequently, after per-edge emission on a
    fresh sketch the keys are distinct, no group is empty, every
    reference of a group stands for an end point of an emitted edge that
    is within the merge tolerance of the group's key, and every end point
    of every emitted edge is referenced in such a group; emission returns
    whenever the host accepts the block constraints. *)
Theorem vertex_groups_within_tolerance
  (host : Host) (global : Placement) (edges : list Edge) :
  (forall g vid pt before k refs after,
     NoDup (map fst (before ++ (k, refs) :: after)) ->
     none_close pt before ->
     Length (sub pt (vector_of k)) < tolerance ->
     register g (before ++ (k, refs) :: after) (pt, vid)
     = before ++ (k, refs ++ [(g, vid)]) :: after)
  /\ (forall g vid pt vm,
        none_close pt vm ->
        register g vm (pt, vid) = vm ++ [(key_of pt, [(g, vid)])])
  /\ (forall d d' e,
        tolerance <= Length (sub (v_first e) (v_last e)) ->
        edge_body host d e = Ok d' ->
        vertex_map d'
        = register (length (Geometry (final_sketch d)))
            (register (length (Geometry (final_sketch d))) (vertex_map d)
               (v_first e, 1%nat))
            (v_last e, 2%nat))
  /\ (forall d,
        emit_edges host (mkSketch global [] []) edges = Ok d ->
        NoDup (map fst (vertex_map d))
        /\ (forall key refs,
              In (key, refs) (vertex_map d) ->
              refs <> []
              /\ forall geo_index vertex_id,
                   In (geo_index, vertex_id) refs ->
                   exists edge,
                     nth_error (emitted edges) geo_index = Some edge
                     /\ (vertex_id = 1 \/ vertex_id = 2)%nat
                     /\ Length (sub (endpoint edge vertex_id)
                                    (vector_of key))
                        < tolerance)
        /\ (forall geo_index edge vertex_id,
              nth_error (emitted edges) geo_index = Some edge ->
              (vertex_id = 1 \/ vertex_id = 2)%nat ->
              exists key refs,
                In (key, refs) (vertex_map d)
                /\ In (geo_index, vertex_id) refs
                /\ Length (sub (endpoint edge vertex_id) (vector_of key))
                   < tolerance))
  /\ ((forall sk g, accepts host sk (Block g) = true) ->
      exists d, emit_edges host (mkSketch global [] []) edges = Ok d).
Proof.
  split; [| split; [| split; [| split]]].
  - intros g vid pt before k refs after Hnd Hb Hk.
    apply register_merges; auto. apply is_close_iff, Hk.
  - intros g vid pt vm Hnone. apply register_founds, Hnone.
  - intros d d' e Hlen Hstep.
    assert (Hdeg : degenerate e = false)
      by (unfold degenerate, is_close; apply ltb_false; exact Hlen).
    rewrite (edge_body_emits host d d' e Hdeg Hstep). reflexivity.
  - intros d Hrun.
    destruct (emission_keeps host edges []
                (mkDraft (mkSketch global [] []) [] [] []) d)
      as (_ & Hnd & Hall); auto.
    { split; [constructor | intros key refs []]. }
    simpl in Hall. split; [exact Hnd |]. split.
    + intros key refs Hin. destruct (Hall key refs Hin) as (Hne & Hr).
      split; [exact Hne |]. intros g vid Hg. exact (Hr (g, vid) Hg).
    + intros g edge vid Hg Hvid.
      assert (Hlt : (g < length (emitted edges))%nat)
        by (apply nth_error_Some; rewrite Hg; discriminate).
      assert (Hin : In (g, vid)
                      (flat_map segment_refs
                         (seq 0 (length (emitted edges))))).
      { apply in_flat_map. exists g. split; [apply in_seq; lia |].
        unfold segment_refs. destruct Hvid as [-> | ->];
          [left | right; left]; reflexivity. }
      apply (Permutation_in _
               (Permutation_sym (refs_accounted host global edges d Hrun)))
        in Hin.
      apply in_concat in Hin. destruct Hin as (refs & Hrefs & Hr).
      apply in_map_iff in Hrefs. destruct Hrefs as ([key refs'] & <- & Hin).
      exists key, refs'. split; [exact Hin |]. split; [exact Hr |].
      destruct (Hall key refs' Hin) as (_ & Hsound).
      destruct (Hsound (g, vid) Hr) as (edge' & Hg' & _ & Hclose).
      simpl in Hg', Hclose. rewrite Hg in Hg'. injection Hg' as <-.
      exact Hclose.
  - intro Hacc. apply emission_returns, Hacc.
Qed.

Lemma vertex_groups_within_tolerance_witness :
  exists d,
    emit_edges accept_all (mkSketch Placement_identity [] [])
      [mkEdge (mkVector 0 0 0) (mkVector 1 0 0);
       mkEdge (mkVector 1 0 0) (mkVector 1 1 0)]
    = Ok d
    /\ NoDup (map fst (vertex_map d))
    /\ (forall key refs,
          In (key, refs) (vertex_map d) ->
          refs <> []
          /\ forall geo_index vertex_id,
               In (geo_index, vertex_id) refs ->
               exists edge,
                 nth_error
                   (emitted [mkEdge (mkVector 0 0 0) (mkVector 1 0 0);
                             mkEdge (mkVector 1 0 0) (mkVector 1 1 0)])
                   geo_index = Some edge
                 /\ (vertex_id = 1 \/ vertex_id = 2)%nat
                 /\ Length (sub (endpoint edge vertex_id) (vector_of key))
                    < tolerance)
    /\ (forall geo_index edge vertex_id,
          nth_error
            (emitted [mkEdge (mkVector 0 0 0) (mkVector 1 0 0);
                      mkEdge (mkVector 1 0 0) (mkVector 1 1 0)])
            geo_index = Some edge ->
          (vertex_id = 1 \/ vertex_id = 2)%nat ->
          exists key refs,
            In (key, refs) (vertex_map d)
            /\ In (geo_index, vertex_id) refs
            /\ Length (sub (endpoint edge vertex_id) (vector_of key))
               < tolerance).
Proof.
  destruct (vertex_groups_within_tolerance accept_all Placement_identity
              [mkEdge (mkVector 0 0 0) (mkVector 1 0 0);
               mkEdge (mkVector 1 0 0) (mkVector 1 1 0)])
    as (_ & _ & _ & Hinv & Hret).
  destruct (Hret (fun _ _ => eq_refl)) as (d & Hd).
  exists d. split; [exact Hd | apply Hinv, Hd].
Defined.

Lemma star_total (vm : VertexMap) :
  (forall key refs, In (key, refs) vm -> refs <> []) ->
  (length (flat_map star vm) + length vm
   = length (concat (map snd vm)))%nat.
Proof.
  induction vm as [| [k refs] vm IH]; intro H; simpl; [reflexivity |].
  rewrite !length_app, star_length.
  assert (Hne : refs <> []) by (apply (H k); left; reflexivity).
  assert (Hpos : (0 < length refs)%nat)
    by (destruct refs; [contradiction | simpl; lia]).
  specialize (IH (fun key refs' Hin => H key refs' (or_intror Hin))).
  unfold Ref in *. lia.
Qed.

(** X16.  Every end point of every segment is filed in exactly one vertex
    group: after per-edge emission on a fresh sketch the references of all
    groups together are, up to order, the start and the end of each
    segment, once each.  Hence the coincidence requests and the groups
    together number twice the segments: synthesis adds at most
    2 * segments - groups coincidence constraints, and exactly that many
    when the host accepts every constraint. *)
Theorem every_endpoint_in_one_group (host : Host) (gp : Placement)
  (edges : list Edge) (d : Draft) :
  emit_edges host (mkSketch gp [] []) edges = Ok d ->
  Permutation (concat (map snd (vertex_map d)))
              (flat_map segment_refs (seq 0 (length (emitted edges))))
  /\ (length (flat_map star (vertex_map d)) + length (vertex_map d)
      = 2 * length (emitted edges))%nat
  /\ exists r,
       synthesize host (mkSketch gp [] []) edges = Ok r
       /\ groups r = vertex_map d
       /\ (coincidents r + length (groups r)
           <= 2 * length (emitted edges))%nat
       /\ ((forall sk c, accepts host sk c = true) ->
           (coincidents r + length (groups r)
            = 2 * length (emitted edges))%nat).
Proof.
  intro Hrun.
  pose proof (refs_accounted host gp edges d Hrun) as Hperm.
  assert (Hnonempty : forall key refs, In (key, refs) (vertex_map d) ->
                      refs <> []).
  { destruct (emission_keeps host edges []
                (mkDraft (mkSketch gp [] []) [] [] []) d)
      as (_ & _ & Hall); auto.
    - split; [constructor | intros key refs []].
    - intros key refs Hin. apply (Hall key refs Hin). }
  assert (Hcount : (length (flat_map star (vertex_map d))
                    + length (vertex_map d)
                    = 2 * length (emitted edges))%nat).
  { rewrite (star_total _ Hnonempty), (Permutation_length Hperm).
    rewrite (flat_map_constant_length (c := 2%nat));
      [rewrite length_seq; lia | reflexivity]. }
  split; [exact Hperm |]. split; [exact Hcount |].
  unfold synthesize. rewrite Hrun. simpl.
  destruct (hide_blocks host _ (block_constraints d)) as [sk' vis].
  eexists. split; [reflexivity |]. simpl. split; [reflexivity |].
  rewrite add_coincidences_attempts. split.
  - destruct (attempts_counted host (flat_map star (vertex_map d))
                (mkStitch (final_sketch d) 0 (console d))) as (Hc & Hw).
    simpl in Hc, Hw. lia.
  - intro Hacc.
    destruct (attempts_accepted host (flat_map star (vertex_map d))
                (fun sk kc _ => Hacc sk (snd kc))
                (mkStitch (final_sketch d) 0 (console d))) as (_ & Hn & _).
    simpl in Hn. rewrite Hn. lia.
Qed.

Lemma every_endpoint_in_one_group_witness :
  exists d,
    emit_edges accept_all (mkSketch Placement_identity [] [])
      [mkEdge (mkVector 0 0 0) (mkVector 1 0 0);
       mkEdge (mkVector 1 0 0) (mkVector 1 1 0)]
    = Ok d
    /\ Permutation (concat (map snd (vertex_map d)))
         (flat_map segment_refs
            (seq 0 (length
               (emitted [mkEdge (mkVector 0 0 0) (mkVector 1 0 0);
                         mkEdge (mkVector 1 0 0) (mkVector 1 1 0)]))))
    /\ exists r,
         synthesize accept_all (mkSketch Placement_identity [] [])
           [mkEdge (mkVector 0 0 0) (mkVector 1 0 0);
            mkEdge (mkVector 1 0 0) (mkVector 1 1 0)]
         = Ok r
         /\ (coincidents r + length (groups r)
             = 2 * length
                 (emitted [mkEdge (mkVector 0 0 0) (mkVector 1 0 0);
                           mkEdge (mkVector 1 0 0) (mkVector 1 1 0)]))%nat.
Proof.
  destruct (emission_returns accept_all
              [mkEdge (mkVector 0 0 0) (mkVector 1 0 0);
               mkEdge (mkVector 1 0 0) (mkVector 1 1 0)]
              (fun _ _ => eq_refl)
              (mkDraft (mkSketch Placement_identity [] []) [] [] []))
    as (d & Hd).
  destruct (every_endpoint_in_one_group accept_all Placement_identity _ d Hd)
    as (Hperm & _ & r & Hr & _ & _ & Heq).
  exists d. split; [exact Hd |]. split; [exact Hperm |].
  exists r. split; [exact Hr |]. apply Heq. intros sk c. reflexivity.
Defined.

(** ** Distances between keys and within groups *)

Lemma none_close_far (pt : Vector) (vm : VertexMap) :
  none_close pt vm ->
  Forall (fun q => tolerance <= Length (sub pt q))
         (map vector_of (map fst vm)).
Proof.
  unfold none_close. induction 1 as [| e vm He Hvm IH]; simpl; constructor.
  - unfold is_close in He. apply ltb_false in He. exact He.
  - exact IH.
Qed.

(** X17.  The keys of the vertex groups keep their distance: after
    per-edge emission on a fresh sketch every key is at least the merge
    tolerance 0.001 away from every key founded before it. *)
Theorem vertex_keys_separated (host : Host) (gp : Placement)
  (edges : list Edge) (d : Draft) :
  emit_edges host (mkSketch gp [] []) edges = Ok d ->
  separated tolerance (map vector_of (map fst (vertex_map d))).
Proof.
  intro Hrun.
  assert (Hreg : forall g vid pt vm,
    NoDup (map fst vm) ->
    separated tolerance (map vector_of (map fst vm)) ->
    separated tolerance (map vector_of (map fst (register g vm (pt, vid))))).
  { intros g vid pt vm Hnd Hsep.
    destruct (register_keys g vid pt vm Hnd) as [-> | (Hnone & ->)];
      [exact Hsep |].
    rewrite map_app. cbn [map]. rewrite vector_of_key.
    apply separated_snoc; [exact Hsep | apply none_close_far, Hnone]. }
  apply (emission_induction host
    (fun _ d => separated tolerance (map vector_of (map fst (vertex_map d))))
    ) with (l := edges) (done := []) (d := mkDraft (mkSketch gp [] []) [] [] []);
    try exact Hrun; try reflexivity.
  - intros done d0 e d' _ (Hnd & _) HP Hb.
    destruct (degenerate e) eqn:Hdeg.
    + rewrite edge_body_degenerate in Hb by exact Hdeg.
      inversion Hb; subst; clear Hb. exact HP.
    + apply (edge_body_emits host d0 d' e Hdeg) in Hb. subst d'. simpl.
      apply Hreg; [apply register_NoDup, Hnd |].
      apply Hreg; assumption.
  - split; [constructor | intros key refs []].
  - constructor.
Qed.

Lemma vertex_keys_separated_witness :
  exists d,
    emit_edges accept_all (mkSketch Placement_identity [] [])
      [mkEdge (mkVector 0 0 0) (mkVector 1 0 0);
       mkEdge (mkVector 1 0 0) (mkVector 1 1 0)]
    = Ok d
    /\ separated tolerance (map vector_of (map fst (vertex_map d))).
Proof.
  destruct (emission_returns accept_all
              [mkEdge (mkVector 0 0 0) (mkVector 1 0 0);
               mkEdge (mkVector 1 0 0) (mkVector 1 1 0)]
              (fun _ _ => eq_refl)
              (mkDraft (mkSketch Placement_identity [] []) [] [] []))
    as (d & Hd).
  exists d. split; [exact Hd |].
  apply (vertex_keys_separated accept_all Placement_identity _ d Hd).
Defined.

Lemma distance_via (a b k : Vector) :
  Length (sub a b) <= Length (sub a k) + Length (sub b k).
Proof.
  replace (sub a b) with (add (sub a k) (sub k b))
    by (apply vector_eq; vec_simpl; ring).
  rewrite (Length_sub_sym b k). apply Length_triangle.
Qed.

(** X18.  Two end points filed in the same vertex group are closer to
    each other than twice the merge tolerance (each is within 0.001 of
    the group's key); nothing closer is promised. *)
Theorem same_group_within_twice_tolerance (host : Host) (gp : Placement)
  (edges : list Edge) (d : Draft) :
  emit_edges host (mkSketch gp [] []) edges = Ok d ->
  forall key refs r1 r2,
    In (key, refs) (vertex_map d) -> In r1 refs -> In r2 refs ->
    exists e1 e2,
      nth_error (emitted edges) (fst r1) = Some e1
      /\ nth_error (emitted edges) (fst r2) = Some e2
      /\ Length (sub (endpoint e1 (snd r1)) (endpoint e2 (snd r2)))
         < 2 * tolerance.
Proof.
  intros Hrun key refs r1 r2 Hin H1 H2.
  destruct (emission_keeps host edges []
              (mkDraft (mkSketch gp [] []) [] [] []) d)
    as (_ & _ & Hall); auto.
  { split; [constructor | intros k rs []]. }
  simpl in Hall. destruct (Hall key refs Hin) as (_ & Hr).
  destruct (Hr r1 H1) as (e1 & Hn1 & _ & Hc1).
  destruct (Hr r2 H2) as (e2 & Hn2 & _ & Hc2).
  exists e1, e2. repeat split; auto.
  eapply Rle_lt_trans; [apply (distance_via _ _ (vector_of key)) | lra].
Qed.

Lemma same_group_within_twice_tolerance_witness :
  exists d,
    emit_edges accept_all (mkSketch Placement_identity [] [])
      [mkEdge (mkVector 0 0 0) (mkVector 1 0 0);
       mkEdge (mkVector 1 0 0) (mkVector 1 1 0)]
    = Ok d
    /\ forall key refs r1 r2,
         In (key, refs) (vertex_map d) -> In r1 refs -> In r2 refs ->
         exists e1 e2,
           nth_error
             (emitted [mkEdge (mkVector 0 0 0) (mkVector 1 0 0);
                       mkEdge (mkVector 1 0 0) (mkVector 1 1 0)])
             (fst r1) = Some e1
           /\ nth_error
                (emitted [mkEdge (mkVector 0 0 0) (mkVector 1 0 0);
                          mkEdge (mkVector 1 0 0) (mkVector 1 1 0)])
                (fst r2) = Some e2
           /\ Length (sub (endpoint e1 (snd r1)) (endpoint e2 (snd r2)))
              < 2 * tolerance.
Proof.
  destruct (emission_returns accept_all
              [mkEdge (mkVector 0 0 0) (mkVector 1 0 0);
               mkEdge (mkVector 1 0 0) (mkVector 1 1 0)]
              (fun _ _ => eq_refl)
              (mkDraft (mkSketch Placement_identity [] []) [] [] []))
    as (d & Hd).
  exists d. split; [exact Hd |].
  apply (same_group_within_twice_tolerance accept_all Placement_identity _ d Hd).
Defined.

(** ** The sketch that synthesis leaves *)

Lemma attempts_keep_geometry (host : Host) (l : list (Key * Constraint)) :
  forall s,
    GlobalPlacement (stitched (fold_left (attempt host) l s))
    = GlobalPlacement (stitched s)
    /\ Geometry (stitched (fold_left (attempt host) l s))
       = Geometry (stitched s).
Proof.
  induction l as [| kc l IH]; intro s; simpl; [auto |].
  destruct (IH (attempt host s kc)) as (-> & ->).
  unfold attempt, addConstraint.
  destruct (accepts host (stitched s) (snd kc)); simpl; auto.
Qed.

Lemma hiding_keeps_geometry (host : Host) (idxs : list nat) :
  forall st,
    GlobalPlacement (fst (fold_left (hide_block host) idxs st))
    = GlobalPlacement (fst st)
    /\ Geometry (fst (fold_left (hide_block host) idxs st))
       = Geometry (fst st).
Proof.
  induction idxs as [| i idxs IH]; intro st; simpl; [auto |].
  destruct (IH (hide_block host st i)) as (-> & ->).
  unfold hide_block, setVirtualSpace.
  destruct (virtual_space_ok host (fst st) i); simpl; auto.
Qed.

(** With a host that grants every visibility request, hiding a run of
    consecutive constraints sets their flags and nothing else. *)
Lemma hide_run (host : Host) (gp : Placement)
  (geo : list (LineSegment * bool)) (msgs : list Msg) :
  (forall sk i, virtual_space_ok host sk i = true) ->
  forall (bs : list Constraint) (pre rest : list (Constraint * bool)),
    fold_left (hide_block host) (seq (length pre) (length bs))
      (mkSketch gp geo (pre ++ map (fun c => (c, false)) bs ++ rest), msgs)
    = (mkSketch gp geo (pre ++ map (fun c => (c, true)) bs ++ rest), msgs).
Proof.
  intro Hok. induction bs as [| c bs IH]; intros pre rest; [reflexivity |].
  cbn [length seq fold_left map app].
  unfold hide_block at 2, setVirtualSpace. rewrite Hok.
  cbn [fst snd GlobalPlacement Geometry Constraints].
  rewrite set_flag_at.
  replace (pre ++ (c, true) :: map (fun c0 => (c0, false)) bs ++ rest)
    with ((pre ++ [(c, true)]) ++ map (fun c0 => (c0, false)) bs ++ rest)
    by (rewrite <- app_assoc; reflexivity).
  replace (S (length pre)) with (length (pre ++ [(c, true)]))
    by (rewrite length_app; simpl; lia).
  rewrite IH. rewrite <- app_assoc. reflexivity.
Qed.

(** X19.  What synthesis leaves on a fresh destination sketch.  Whatever
    the host answers: the sketch keeps its placement and holds one
    construction segment per edge that is not degenerate, in selection
    order, with the edge's end points taken into the sketch's local frame;
    the block constraints are numbered like the segments.  When the host
    accepts every constraint and every visibility request, the
    constraints are exactly one hidden block constraint per segment
    followed by the visible coincidence constraints of the groups in
    order, the panel gets no warning, and the console one warning per
    degenerate edge. *)
Theorem synthesis_builds (host : Host) (gp : Placement) (edges : list Edge)
  (r : Synthesis) :
  synthesize host (mkSketch gp [] []) edges = Ok r ->
  GlobalPlacement (sketch r) = gp
  /\ Geometry (sketch r)
     = map (fun e => (local_segment gp e, true)) (emitted edges)
  /\ blocks r = seq 0 (length (emitted edges))
  /\ ((forall sk c, accepts host sk c = true) ->
      (forall sk i, virtual_space_ok host sk i = true) ->
      Constraints (sketch r)
      = map (fun g => (Block g, true)) (seq 0 (length (emitted edges)))
        ++ map (fun kc => (snd kc, false)) (flat_map star (groups r))
      /\ coincidents r = length (flat_map star (groups r))
      /\ panel_log r = []
      /\ console_log r
         = map (fun e => WarnDegenerate (v_first e))
               (filter degenerate edges)).
Proof.
  unfold synthesize.
  destruct (emit_edges host (mkSketch gp [] []) edges) as [d | ex] eqn:Hrun;
    simpl; [| discriminate].
  destruct (emission_state host gp edges d Hrun)
    as (Hgp & Hgeo & Hcon & Hbc & Hco).
  rewrite add_coincidences_attempts.
  set (s := fold_left (attempt host) (flat_map star (vertex_map d))
                      (mkStitch (final_sketch d) 0 (console d))).
  destruct (attempts_keep_geometry host (flat_map star (vertex_map d))
              (mkStitch (final_sketch d) 0 (console d))) as (Hsgp & Hsgeo).
  fold s in Hsgp, Hsgeo. simpl in Hsgp, Hsgeo.
  destruct (hiding_keeps_geometry host (block_constraints d) (stitched s, []))
    as (Hhgp & Hhgeo).
  simpl in Hhgp, Hhgeo. unfold hide_blocks.
  destruct (fold_left (hide_block host) (block_constraints d) (stitched s, []))
    as [sk' vis] eqn:Hhide.
  simpl in Hhgp, Hhgeo. intro H. inversion H; subst r; clear H. simpl.
  split; [congruence |]. split; [congruence |]. split; [exact Hbc |].
  intros Hacc Hvis.
  destruct (attempts_accepted host (flat_map star (vertex_map d))
              (fun sk kc _ => Hacc sk (snd kc))
              (mkStitch (final_sketch d) 0 (console d))) as (Hc & Hn & Hw).
  fold s in Hc, Hn, Hw. simpl in Hc, Hn, Hw.
  assert (Hs : stitched s
               = mkSketch gp
                   (map (fun e => (local_segment gp e, true)) (emitted edges))
                   ([] ++ map (fun c => (c, false))
                              (map Block (seq 0 (length (emitted edges))))
                    ++ map (fun kc => (snd kc, false))
                           (flat_map star (vertex_map d)))).
  { destruct (stitched s) as [p g c]. simpl in *.
    rewrite map_map. congruence. }
  rewrite Hs, Hbc in Hhide.
  pose proof (hide_run host gp
                (map (fun e => (local_segment gp e, true)) (emitted edges))
                [] Hvis (map Block (seq 0 (length (emitted edges)))) []
                (map (fun kc => (snd kc, false))
                     (flat_map star (vertex_map d)))) as Hrun'.
  rewrite length_map, length_seq in Hrun'. simpl length in Hrun'.
  rewrite Hrun' in Hhide. inversion Hhide; subst sk' vis; clear Hhide.
  simpl. rewrite map_map, Hn, Hw, Hco, app_nil_r. auto.
Qed.

Lemma synthesis_builds_witness :
  Geometry (sketch unit_square_result)
  = map (fun e => (local_segment Placement_identity e, true))
        (emitted unit_square)
  /\ Constraints (sketch unit_square_result)
     = map (fun g => (Block g, true)) (seq 0 (length (emitted unit_square)))
       ++ map (fun kc => (snd kc, false))
              (flat_map star (groups unit_square_result))
  /\ coincidents unit_square_result
     = length (flat_map star (groups unit_square_result)).
Proof.
  destruct (synthesis_builds accept_all Placement_identity unit_square
              unit_square_result unit_square_synthesis)
    as (_ & Hgeo & _ & Hacc).
  destruct (Hacc (fun _ _ => eq_refl) (fun _ _ => eq_refl))
    as (Hcon & Hn & _).
  split; [exact Hgeo |]. split; [exact Hcon | exact Hn].
Defined.

(** ** How the handler can end *)






(** ** The destination placement sees every selected vertex

    The skip of a degenerate edge concerns synthesis on a given
    destination sketch.  The placement of that sketch is computed before,
    from the vertices of all selected edges, degenerate ones included: its
    origin is their centroid, and the local coordinates of every segment
    depend on it. *)

Lemma local_identity_rotation (b v : Vector) :
  Placement_multVec (Placement_inverse (mkPlacement b Rotation_identity)) v
  = sub v b.
Proof.
  apply vector_eq; unfold Placement_multVec, Placement_inverse,
    Rotation_multVec; vec_simpl; ring.
Qed.

Lemma synthesis_frame (host : Host) (gp : Placement) (edges : list Edge)
  (r : Synthesis) :
  synthesize host (mkSketch gp [] []) edges = Ok r ->
  GlobalPlacement (sketch r) = gp
  /\ Geometry (sketch r)
     = map (fun e => (local_segment gp e, true)) (emitted edges).
Proof.
  unfold synthesize.
  destruct (emit_edges host (mkSketch gp [] []) edges) as [d | ex] eqn:Hrun;
    simpl; [| discriminate].
  destruct (emission_state host gp edges d Hrun) as (Hgp & Hgeo & _).
  rewrite add_coincidences_attempts.
  destruct (attempts_keep_geometry host (flat_map star (vertex_map d))
              (mkStitch (final_sketch d) 0 (console d))) as (Hsgp & Hsgeo).
  simpl in Hsgp, Hsgeo.
  destruct (hiding_keeps_geometry host (block_constraints d)
              (stitched (fold_left (attempt host)
                           (flat_map star (vertex_map d))
                           (mkStitch (final_sketch d) 0 (console d))), []))
    as (Hhgp & Hhgeo).
  simpl in Hhgp, Hhgeo. unfold hide_blocks.
  destruct (fold_left (hide_block host) (block_constraints d) _)
    as [sk' vis].
  simpl in Hhgp, Hhgeo. intro H. inversion H; subst r; clear H. simpl.
  split; congruence.
Qed.

(** The sketch a run leaves in the document, with a host that accepts
    the block constraints. *)
Lemma handler_sketch (null_length : R) (self : EdgeDataCollector)
  (host : Host) (edges : list Edge) (item : Target) (n c : Vector)
  (p : Placement) :
  edges <> [] ->
  calculate_robust_plane_normal_and_placement null_length self
    (unique_vertices (flat_map Vertexes edges)) = Ok (n, c) ->
  create_robust_placement null_length n c = Ok p ->
  (forall sk g, accepts host sk (Block g) = true) ->
  exists sk,
    document_sketch
      (create_sketch_from_selection null_length self host
         (mkSession true edges (Some item)))
    = Some sk
    /\ GlobalPlacement sk = destination host item p
    /\ Geometry sk
       = map (fun e => (local_segment (destination host item p) e, true))
             (emitted edges).
Proof.
  intros Hne Hn Hp Hacc.
  unfold create_sketch_from_selection, try_block.
  cbn [ActiveDocument selected_edges dialog_item negb].
  destruct edges as [| e es]; [contradiction |].
  rewrite Hn. cbn [bind]. rewrite Hp. cbn [bind].
  destruct (synthesize host (mkSketch (destination host item p) [] [])
                       (e :: es)) as [r | ex] eqn:Hr.
  - cbn [bind document_sketch]. exists (sketch r).
    split; [reflexivity |]. exact (synthesis_frame _ _ _ _ Hr).
  - exfalso. revert Hr. unfold synthesize.
    destruct (emission_returns host (e :: es) Hacc
                (mkDraft (mkSketch (destination host item p) [] []) [] [] []))
      as (d & Hd).
    unfold emit_edges. rewrite Hd. cbn [bind].
    destruct (hide_blocks host _ (block_constraints d)). discriminate.
Qed.

(** C10 as stated fails for a whole run of the operation: the edge
    (4,0,0)-(4,0,0) is skipped as degenerate, but its vertex moves the
    centroid of the selection from (0,0,0) to (5/3,0,0), hence the origin
    of the sketch, and the segment of the other edge gets the local end
    points (-5/3,0,0) and (-2/3,0,0) instead of (0,0,0) and (1,0,0) in the
    run without the degenerate edge (here for a host with null length
    1e-7, a host that declines nothing and a standalone sketch). *)
Lemma degenerate_edge_moves_segments :
  degenerate (mkEdge (mkVector 4 0 0) (mkVector 4 0 0)) = true
  /\ exists sk1 sk2,
       document_sketch
         (create_sketch_from_selection 1e-7 (mkCollector (mkVector 0 0 0))
            accept_all
            (mkSession true
               [mkEdge (mkVector 0 0 0) (mkVector 1 0 0);
                mkEdge (mkVector 4 0 0) (mkVector 4 0 0)]
               (Some Standalone)))
       = Some sk1
       /\ document_sketch
            (create_sketch_from_selection 1e-7 (mkCollector (mkVector 0 0 0))
               accept_all
               (mkSession true [mkEdge (mkVector 0 0 0) (mkVector 1 0 0)]
                          (Some Standalone)))
          = Some sk2
       /\ Geometry sk1
          = [(mkLineSegment (mkVector (- (5 / 3)) 0 0)
                            (mkVector (- (2 / 3)) 0 0), true)]
       /\ Geometry sk2
          = [(mkLineSegment (mkVector 0 0 0) (mkVector 1 0 0), true)]
       /\ Geometry sk1 <> Geometry sk2.
Proof.
  assert (Hdeg : degenerate (mkEdge (mkVector 4 0 0) (mkVector 4 0 0)) = true)
    by (apply is_close_self, tolerance_pos).
  assert (Hedge : degenerate (mkEdge (mkVector 0 0 0) (mkVector 1 0 0))
                  = false)
    by (apply is_close_no; unfold tolerance; vec_simpl; lra).
  split; [exact Hdeg |].
  assert (Hv1 : unique_vertices
                  (flat_map Vertexes
                     [mkEdge (mkVector 0 0 0) (mkVector 1 0 0);
                      mkEdge (mkVector 4 0 0) (mkVector 4 0 0)])
                = [mkVector 0 0 0; mkVector 1 0 0; mkVector 4 0 0]).
  { unfold unique_vertices. cbn [flat_map Vertexes v_first v_last app].
    repeat progress (cbn [fold_left forallb negb andb app]; eval_close).
    reflexivity. }
  assert (Hv2 : unique_vertices
                  (flat_map Vertexes
                     [mkEdge (mkVector 0 0 0) (mkVector 1 0 0)])
                = [mkVector 0 0 0; mkVector 1 0 0]).
  { unfold unique_vertices. cbn [flat_map Vertexes v_first v_last app].
    repeat progress (cbn [fold_left forallb negb andb app]; eval_close).
    reflexivity. }
  assert (Hc1 : calculate_robust_plane_normal_and_placement 1e-7
                  (mkCollector (mkVector 0 0 0))
                  [mkVector 0 0 0; mkVector 1 0 0; mkVector 4 0 0]
                = Ok (mkVector 0 0 1, mkVector (5 / 3) 0 0)).
  { rewrite collinear_result;
      [| simpl; lia | lra | apply x_axis_points_collinear].
    assert (Hm : mean [mkVector 0 0 0; mkVector 1 0 0; mkVector 4 0 0]
                 = mkVector (5 / 3) 0 0)
      by (apply vector_eq; unfold mean, sum; vec_simpl; field).
    rewrite Hm.
    replace (ltb (z (delta_of (mkCollector (mkVector 0 0 0))
                       (mkVector (5 / 3) 0 0))) 0) with false
      by (symmetry; apply ltb_false; unfold delta_of; vec_simpl; lra).
    rewrite andb_false_r. reflexivity. }
  assert (Hc2 : calculate_robust_plane_normal_and_placement 1e-7
                  (mkCollector (mkVector 0 0 0))
                  [mkVector 0 0 0; mkVector 1 0 0]
                = Ok (mkVector 0 0 1, mkVector 0 0 0)) by reflexivity.
  destruct (handler_sketch 1e-7 (mkCollector (mkVector 0 0 0)) accept_all
              [mkEdge (mkVector 0 0 0) (mkVector 1 0 0);
               mkEdge (mkVector 4 0 0) (mkVector 4 0 0)]
              Standalone (mkVector 0 0 1) (mkVector (5 / 3) 0 0)
              (mkPlacement (mkVector (5 / 3) 0 0) Rotation_identity))
    as (sk1 & Hsk1 & _ & Hg1).
  { discriminate. }
  { rewrite Hv1. exact Hc1. }
  { apply placement_along_z. lra. }
  { intros sk g. reflexivity. }
  destruct (handler_sketch 1e-7 (mkCollector (mkVector 0 0 0)) accept_all
              [mkEdge (mkVector 0 0 0) (mkVector 1 0 0)]
              Standalone (mkVector 0 0 1) (mkVector 0 0 0)
              (mkPlacement (mkVector 0 0 0) Rotation_identity))
    as (sk2 & Hsk2 & _ & Hg2).
  { discriminate. }
  { rewrite Hv2. exact Hc2. }
  { apply placement_along_z. lra. }
  { intros sk g. reflexivity. }
  assert (Hgeo1 : Geometry sk1
                  = [(mkLineSegment (mkVector (- (5 / 3)) 0 0)
                                    (mkVector (- (2 / 3)) 0 0), true)]).
  { rewrite Hg1. unfold emitted. cbn [filter]. rewrite Hedge, Hdeg.
    cbn [negb map destination]. unfold local_segment.
    rewrite !local_identity_rotation. cbn [v_first v_last].
    do 3 f_equal; apply vector_eq; vec_simpl; lra. }
  assert (Hgeo2 : Geometry sk2
                  = [(mkLineSegment (mkVector 0 0 0) (mkVector 1 0 0), true)]).
  { rewrite Hg2. unfold emitted. cbn [filter]. rewrite Hedge.
    cbn [negb map destination]. unfold local_segment.
    rewrite !local_identity_rotation. cbn [v_first v_last].
    do 3 f_equal; apply vector_eq; vec_simpl; lra. }
  exists sk1, sk2.
  split; [exact Hsk1 |]. split; [exact Hsk2 |].
  split; [exact Hgeo1 |]. split; [exact Hgeo2 |].
  rewrite Hgeo1, Hgeo2. intro H. injection H. intros. lra.
Qed.

(** ** Revision 250627: rounding *)

Lemma Rabs_le_iff (a b : R) : Rabs a <= b <-> - b <= a <= b.
Proof. unfold Rabs. destruct (Rcase_abs a); lra. Qed.

Lemma round_half_even_near (r : R) :
  Rabs (IZR (Rev250627.round_half_even r) - r) <= 1 / 2.
Proof.
  unfold Rev250627.round_half_even.
  destruct (base_Int_part r) as [Hlo Hhi].
  destruct (Rlt_dec (r - IZR (Int_part r)) (1 / 2)) as [H1 | H1].
  - apply Rabs_le_iff. lra.
  - destruct (Rlt_dec (1 / 2) (r - IZR (Int_part r))) as [H2 | H2].
    + rewrite plus_IZR. apply Rabs_le_iff. lra.
    + destruct (Z.even (Int_part r)); [| rewrite plus_IZR];
        apply Rabs_le_iff; lra.
Qed.

Lemma round5_near (v : R) : Rabs (Rev250627.round5 v - v) <= 0.000005.
Proof.
  unfold Rev250627.round5.
  pose proof (round_half_even_near (v * 100000)) as H.
  apply Rabs_le_iff in H. apply Rabs_le_iff. lra.
Qed.

Lemma Int_part_unique (n : Z) (r : R) :
  IZR n <= r < IZR n + 1 -> Int_part r = n.
Proof.
  intros [Hlo Hhi]. unfold Int_part.
  assert (H : (n + 1)%Z = up r).
  { apply tech_up; rewrite plus_IZR; lra. }
  rewrite <- H. lia.
Qed.

Lemma round_half_even_below (n : Z) (r : R) :
  IZR n <= r < IZR n + 1 / 2 -> Rev250627.round_half_even r = n.
Proof.
  intros [Hlo Hhi]. unfold Rev250627.round_half_even.
  rewrite (Int_part_unique n r) by lra.
  destruct (Rlt_dec (r - IZR n) (1 / 2)); [reflexivity | lra].
Qed.

Lemma round_half_even_above (n : Z) (r : R) :
  IZR n + 1 / 2 < r < IZR n + 1 -> Rev250627.round_half_even r = (n + 1)%Z.
Proof.
  intros [Hlo Hhi]. unfold Rev250627.round_half_even.
  rewrite (Int_part_unique n r) by lra.
  destruct (Rlt_dec (r - IZR n) (1 / 2)); [lra |].
  destruct (Rlt_dec (1 / 2) (r - IZR n)); [reflexivity | lra].
Qed.

Lemma round5_fixed (v : R) :
  Rev250627.round5 (Rev250627.round5 v) = Rev250627.round5 v.
Proof.
  unfold Rev250627.round5 at 1 2.
  set (n := Rev250627.round_half_even (v * 100000)).
  replace (IZR n / 100000 * 100000) with (IZR n) by (field; lra).
  rewrite (round_half_even_below n (IZR n)) by lra.
  reflexivity.
Qed.

Lemma rounded_key_fixed (point : Vector) :
  Rev250627.rounded_key (vector_of (Rev250627.rounded_key point))
  = Rev250627.rounded_key point.
Proof.
  unfold Rev250627.rounded_key. simpl. rewrite !round5_fixed. reflexivity.
Qed.

Lemma same_round5_near (a b : R) :
  Rev250627.round5 a = Rev250627.round5 b -> - 0.00001 <= a - b <= 0.00001.
Proof.
  intro H. pose proof (round5_near a) as Ha. pose proof (round5_near b) as Hb.
  apply Rabs_le_iff in Ha. apply Rabs_le_iff in Hb. rewrite H in Ha. lra.
Qed.

Lemma same_key_near (p q : Vector) :
  Rev250627.rounded_key p = Rev250627.rounded_key q ->
  Length (sub p q) < 0.00002.
Proof.
  unfold Rev250627.rounded_key. intro H. inversion H as [[Hx Hy Hz]].
  apply same_round5_near in Hx, Hy, Hz.
  apply Length_lt; [lra |]. vec_simpl. nra.
Qed.

(** ** Revision 250627: the loop *)

Lemma rev_edge_body_skips (st : SketchObject * VertexMap) (e : Edge) :
  degenerate e = true -> Rev250627.edge_body st e = st.
Proof.
  unfold degenerate, is_close, Rev250627.edge_body. destruct st as [sk em].
  intros ->. reflexivity.
Qed.

Lemma rev_edge_body_emits (sk : SketchObject) (em : VertexMap) (e : Edge) :
  degenerate e = false ->
  Rev250627.edge_body (sk, em) e
  = (mkSketch (GlobalPlacement sk)
       (Geometry sk ++ [(local_segment (GlobalPlacement sk) e, true)])
       (Constraints sk),
     Rev250627.register (length (Geometry sk))
       (Rev250627.register (length (Geometry sk)) em (v_first e, 1%nat))
       (v_last e, 2%nat)).
Proof.
  unfold degenerate, is_close, Rev250627.edge_body. intros ->.
  unfold addGeometry, setConstruction, getGlobalPlacement. simpl.
  rewrite set_flag_at. reflexivity.
Qed.

Lemma rev_loop_skips (edges : list Edge) :
  forall st,
    fold_left Rev250627.edge_body edges st
    = fold_left Rev250627.edge_body (emitted edges) st.
Proof.
  induction edges as [| e edges IH]; intro st; [reflexivity |].
  unfold emitted in *. cbn [fold_left filter].
  destruct (degenerate e) eqn:He; cbn [negb fold_left].
  - rewrite rev_edge_body_skips by exact He. apply IH.
  - apply IH.
Qed.

Lemma rev_loop_sketch (edges : list Edge) :
  forall sk em,
    let r := fold_left Rev250627.edge_body edges (sk, em) in
    GlobalPlacement (fst r) = GlobalPlacement sk
    /\ Geometry (fst r)
       = Geometry sk
         ++ map (fun e => (local_segment (GlobalPlacement sk) e, true))
                (emitted edges)
    /\ Constraints (fst r) = Constraints sk.
Proof.
  induction edges as [| e edges IH]; intros sk em.
  - simpl. rewrite app_nil_r. repeat split.
  - unfold emitted in *. cbn [fold_left filter].
    destruct (degenerate e) eqn:He; cbn [negb map].
    + rewrite rev_edge_body_skips by exact He. apply IH.
    + rewrite rev_edge_body_emits by exact He.
      match goal with
      | |- context [fold_left _ edges (?s, ?m)] =>
          destruct (IH s m) as (Hp & Hg & Hc)
      end.
      cbn [GlobalPlacement Geometry Constraints] in Hp, Hg, Hc.
      cbv zeta. rewrite Hp, Hg, Hc, <- app_assoc.
      repeat split.
Qed.

(** X21.  Revision 250627: the loop leaves the placement and the
    constraints of the sketch as they were and appends one construction
    segment per edge that is not degenerate, in selection order, each the
    edge's end points taken to the sketch frame; and the whole result,
    [edge_map] included, is that of the loop run on the edges that are
    not degenerate. *)
Theorem rev250627_emission (sk : SketchObject) (edges : list Edge) :
  GlobalPlacement (fst (Rev250627.emit_edges sk edges)) = GlobalPlacement sk
  /\ Geometry (fst (Rev250627.emit_edges sk edges))
     = Geometry sk
       ++ map (fun e => (local_segment (GlobalPlacement sk) e, true))
              (filter (fun e =>
                         negb (ltb (Length (sub (v_first e) (v_last e)))
                                   tolerance))
                      edges)
  /\ Constraints (fst (Rev250627.emit_edges sk edges)) = Constraints sk
  /\ Rev250627.emit_edges sk edges
     = Rev250627.emit_edges sk
         (filter (fun e =>
                    negb (ltb (Length (sub (v_first e) (v_last e)))
                              tolerance))
                 edges).
Proof.
  unfold Rev250627.emit_edges.
  destruct (rev_loop_sketch edges sk []) as (Hp & Hg & Hc).
  split; [exact Hp |]. split; [exact Hg |]. split; [exact Hc |].
  exact (rev_loop_skips edges (sk, [])).
Qed.

(** ** Revision 250627: edge_map *)

Lemma existsb_key (em : VertexMap) (key : Key) :
  existsb (fun e => key_eqb (fst e) key) em = true <-> In key (map fst em).
Proof.
  rewrite existsb_exists, in_map_iff. split.
  - intros (e & He & Hk). apply key_eqb_eq in Hk. eauto.
  - intros (e & Hk & He). exists e. split; [exact He | apply key_eqb_eq, Hk].
Qed.

Lemma dict_append_keys (em : VertexMap) (key : Key) (r : Ref) :
  map fst (dict_append em key r) = map fst em.
Proof.
  unfold dict_append. rewrite map_map. apply map_ext. intro e.
  destruct (key_eqb (fst e) key); reflexivity.
Qed.

Lemma dict_append_entry (em : VertexMap) (key : Key) (r : Ref) (k : Key)
  (refs : list Ref) :
  In (k, refs) (dict_append em key r) ->
  In (k, refs) em
  \/ (k = key /\ exists old, In (k, old) em /\ refs = old ++ [r]).
Proof.
  unfold dict_append. rewrite in_map_iff.
  intros ([k0 old] & Heq & Hin). simpl in Heq.
  destruct (key_eqb k0 key) eqn:Hk.
  - apply key_eqb_eq in Hk. inversion Heq; subst. right.
    split; [reflexivity |]. eauto.
  - inversion Heq; subst. left. exact Hin.
Qed.

Lemma dict_append_keeps (em : VertexMap) (key : Key) (r : Ref) (k : Key)
  (refs : list Ref) (r' : Ref) :
  In (k, refs) em -> In r' refs ->
  exists refs', In (k, refs') (dict_append em key r) /\ In r' refs'.
Proof.
  intros Hin Hr. unfold dict_append. destruct (key_eqb k key) eqn:Hk.
  - exists (refs ++ [r]). split; [| apply in_or_app; left; exact Hr].
    apply in_map_iff. exists (k, refs). simpl. rewrite Hk.
    split; [reflexivity | exact Hin].
  - exists refs. split; [| exact Hr].
    apply in_map_iff. exists (k, refs). simpl. rewrite Hk.
    split; [reflexivity | exact Hin].
Qed.

Lemma dict_append_adds (em : VertexMap) (key : Key) (r : Ref) :
  In key (map fst em) ->
  exists refs, In (key, refs) (dict_append em key r) /\ In r refs.
Proof.
  rewrite in_map_iff. intros ([k old] & Hk & Hin). simpl in Hk. subst k.
  exists (old ++ [r]). split; [| apply in_or_app; right; left; reflexivity].
  apply in_map_iff. exists (key, old). simpl. rewrite key_eqb_refl.
  split; [reflexivity | exact Hin].
Qed.

Lemma setdefault_NoDup (em : VertexMap) (key : Key) (r : Ref) :
  NoDup (map fst em) ->
  NoDup (map fst (Rev250627.setdefault_append em key r)).
Proof.
  intro Hnd. unfold Rev250627.setdefault_append.
  destruct (existsb _ em) eqn:Hex.
  - rewrite dict_append_keys. exact Hnd.
  - rewrite map_app. simpl.
    apply NoDup_app; [exact Hnd | repeat constructor; intros [] |].
    intros a Ha [<- | []]. apply existsb_key in Ha. congruence.
Qed.

Lemma setdefault_all (P : Key -> Ref -> Prop) (em : VertexMap) (key : Key)
  (r : Ref) :
  (forall k refs,
     In (k, refs) em -> refs <> [] /\ forall r', In r' refs -> P k r') ->
  P key r ->
  forall k refs,
    In (k, refs) (Rev250627.setdefault_append em key r) ->
    refs <> [] /\ forall r', In r' refs -> P k r'.
Proof.
  intros Hall Hnew k refs. unfold Rev250627.setdefault_append.
  destruct (existsb _ em).
  - intro Hin. apply dict_append_entry in Hin.
    destruct Hin as [Hin | (-> & old & Hin & ->)].
    + apply Hall, Hin.
    + destruct (Hall _ _ Hin) as (_ & Hold). split.
      * intro H. apply app_eq_nil in H. destruct H; discriminate.
      * intros r' Hr. apply in_app_or in Hr.
        destruct Hr as [Hr | [<- | []]]; auto.
  - intro Hin. apply in_app_or in Hin. destruct Hin as [Hin | [Heq | []]].
    + apply Hall, Hin.
    + inversion Heq; subst. split; [discriminate |].
      intros r' [<- | []]. exact Hnew.
Qed.

Lemma setdefault_keeps (em : VertexMap) (key : Key) (r : Ref) (k : Key)
  (refs : list Ref) (r' : Ref) :
  In (k, refs) em -> In r' refs ->
  exists refs',
    In (k, refs') (Rev250627.setdefault_append em key r) /\ In r' refs'.
Proof.
  intros Hin Hr. unfold Rev250627.setdefault_append.
  destruct (existsb _ em).
  - exact (dict_append_keeps em key r k refs r' Hin Hr).
  - exists refs. split; [apply in_or_app; left; exact Hin | exact Hr].
Qed.

Lemma setdefault_adds (em : VertexMap) (key : Key) (r : Ref) :
  exists refs,
    In (key, refs) (Rev250627.setdefault_append em key r) /\ In r refs.
Proof.
  unfold Rev250627.setdefault_append. destruct (existsb _ em) eqn:Hex.
  - apply dict_append_adds, existsb_key, Hex.
  - exists [r]. split; [apply in_or_app; right | ]; left; reflexivity.
Qed.

Lemma ref_rounds_to_more (l : list Edge) (e : Edge) (key : Key) (r : Ref) :
  Rev250627.ref_rounds_to l key r ->
  Rev250627.ref_rounds_to (l ++ [e]) key r.
Proof.
  intros (edge & Hn & Hv & Hk). exists edge. split; [| split; assumption].
  rewrite nth_error_app1; [exact Hn |].
  apply nth_error_Some. rewrite Hn. discriminate.
Qed.

Lemma rev_groups_inv (gp : Placement) (l : list Edge) :
  Forall (fun e => degenerate e = false) l ->
  forall sk em,
    fold_left Rev250627.edge_body l (mkSketch gp [] [], []) = (sk, em) ->
    length (Geometry sk) = length l
    /\ NoDup (map fst em)
    /\ (forall key refs,
          In (key, refs) em ->
          refs <> [] /\ forall r, In r refs -> Rev250627.ref_rounds_to l key r)
    /\ (forall g edge vid,
          nth_error l g = Some edge -> (vid = 1 \/ vid = 2)%nat ->
          exists refs,
            In (Rev250627.rounded_key (endpoint edge vid), refs) em
            /\ In (g, vid) refs).
Proof.
  induction l as [| e l IH] using rev_ind; intros Hall sk em Hrun.
  - simpl in Hrun. inversion Hrun; subst. simpl.
    split; [reflexivity |]. split; [constructor |]. split.
    + intros key refs [].
    + intros [| g] edge vid H; discriminate.
  - apply Forall_app in Hall. destruct Hall as (Hl & He).
    inversion He as [| e' l' Hdeg _]; subst. clear He.
    rewrite fold_left_app in Hrun. cbn [fold_left] in Hrun.
    destruct (fold_left Rev250627.edge_body l (mkSketch gp [] [], []))
      as [sk0 em0] eqn:H0.
    destruct (IH Hl sk0 em0 eq_refl) as (Hlen & Hnd & Hrefs & Hcov).
    rewrite rev_edge_body_emits in Hrun by exact Hdeg.
    inversion Hrun; subst sk em; clear Hrun.
    unfold Rev250627.register. rewrite Hlen.
    cbn [Geometry].
    split; [rewrite !length_app, Hlen; reflexivity |].
    split; [apply setdefault_NoDup, setdefault_NoDup, Hnd |].
    split.
    + apply setdefault_all.
      * apply setdefault_all.
        -- intros k refs Hin. destruct (Hrefs k refs Hin) as (Hne & Hr).
           split; [exact Hne |]. intros r' Hr'.
           apply ref_rounds_to_more, Hr, Hr'.
        -- exists e. simpl. rewrite nth_error_app2, Nat.sub_diag by lia.
           split; [reflexivity |]. split; [left |]; reflexivity.
      * exists e. simpl. rewrite nth_error_app2, Nat.sub_diag by lia.
        split; [reflexivity |]. split; [right |]; reflexivity.
    + intros g edge vid Hg Hvid.
      destruct (Nat.lt_ge_cases g (length l)) as [Hlt | Hge].
      * rewrite nth_error_app1 in Hg by exact Hlt.
        destruct (Hcov g edge vid Hg Hvid) as (refs & Hin & Hr).
        destruct (setdefault_keeps em0
                    (Rev250627.rounded_key (v_first e)) (length l, 1%nat)
                    _ _ _ Hin Hr) as (refs1 & Hin1 & Hr1).
        exact (setdefault_keeps _ (Rev250627.rounded_key (v_last e))
                 (length l, 2%nat) _ _ _ Hin1 Hr1).
      * assert (Hgl : g = length l).
        { assert (g < length (l ++ [e]))%nat
            by (apply nth_error_Some; rewrite Hg; discriminate).
          rewrite length_app in H. simpl in H. lia. }
        subst g. rewrite nth_error_app2, Nat.sub_diag in Hg by lia.
        simpl in Hg. inversion Hg; subst edge; clear Hg.
        destruct Hvid as [-> | ->]; simpl.
        -- destruct (setdefault_adds em0
                       (Rev250627.rounded_key (v_first e))
                       (length l, 1%nat)) as (refs1 & Hin1 & Hr1).
           exact (setdefault_keeps _ (Rev250627.rounded_key (v_last e))
                    (length l, 2%nat) _ _ _ Hin1 Hr1).
        -- apply setdefault_adds.
Qed.

Lemma emitted_nondegenerate (edges : list Edge) :
  Forall (fun e => degenerate e = false) (emitted edges).
Proof.
  apply Forall_forall. intros e He. unfold emitted in He.
  apply filter_In in He. destruct He as (_ & He).
  apply negb_true_iff in He. exact He.
Qed.

(** X22.  Revision 250627, on a fresh sketch: [edge_map] groups the end
    points of the emitted edges exactly by their coordinates rounded to
    five decimals.  Its keys are pairwise distinct and are fixed points of
    the rounding; no group is empty; every reference of a group is an end
    point, start or end, of an emitted edge, and that point rounds to the
    group's key; and every end point of every emitted edge is in the group
    of its rounded key. *)
Theorem rev250627_groups_by_rounded_key (gp : Placement)
  (edges : list Edge) :
  NoDup (map fst (snd (Rev250627.emit_edges (mkSketch gp [] []) edges)))
  /\ (forall key refs,
        In (key, refs)
           (snd (Rev250627.emit_edges (mkSketch gp [] []) edges)) ->
        refs <> []
        /\ Rev250627.rounded_key (vector_of key) = key
        /\ forall r,
             In r refs -> Rev250627.ref_rounds_to (emitted edges) key r)
  /\ (forall g edge vid,
        nth_error (emitted edges) g = Some edge ->
        (vid = 1 \/ vid = 2)%nat ->
        exists refs,
          In (Rev250627.rounded_key (endpoint edge vid), refs)
             (snd (Rev250627.emit_edges (mkSketch gp [] []) edges))
          /\ In (g, vid) refs).
Proof.
  unfold Rev250627.emit_edges. rewrite rev_loop_skips.
  destruct (fold_left Rev250627.edge_body (emitted edges)
              (mkSketch gp [] [], [])) as [sk em] eqn:Hrun.
  destruct (rev_groups_inv gp (emitted edges) (emitted_nondegenerate edges)
              sk em Hrun) as (_ & Hnd & Hrefs & Hcov).
  simpl. split; [exact Hnd |]. split; [| exact Hcov].
  intros key refs Hin. destruct (Hrefs key refs Hin) as (Hne & Hr).
  split; [exact Hne |]. split; [| exact Hr].
  destruct refs as [| r refs]; [contradiction |].
  destruct (Hr r (or_introl eq_refl)) as (edge & _ & _ & <-).
  apply rounded_key_fixed.
Qed.

(** X23.  Revision 250627 merges by rounded coordinates, not by distance:
    two points with the same rounded key are closer than 0.00002, far
    inside the 0.001 merge tolerance of revision 2.06; but below any
    distance [eps] there are two points whose keys differ, which revision
    2.06 would put in one group. *)
Theorem rounded_key_and_distance (eps : R) :
  0 < eps ->
  (forall p q,
     Rev250627.rounded_key p = Rev250627.rounded_key q ->
     Length (sub p q) < 0.00002)
  /\ exists p q,
       Length (sub p q) < eps
       /\ Rev250627.rounded_key p <> Rev250627.rounded_key q
       /\ find_key (register 0 [] (p, 1%nat)) q = Some (key_of p).
Proof.
  intro Heps. split; [exact same_key_near |].
  set (d := Rmin (eps / 4) 0.0000001).
  assert (Hd : 0 < d <= eps / 4 /\ d <= 0.0000001).
  { unfold d. pose proof (Rmin_l (eps / 4) 0.0000001).
    pose proof (Rmin_r (eps / 4) 0.0000001).
    split; [split; [apply Rmin_glb_lt; lra | assumption] | assumption]. }
  clearbody d.
  exists (mkVector (0.000005 - d) 0 0), (mkVector (0.000005 + d) 0 0).
  split; [| split].
  - apply Length_lt; [exact Heps |]. vec_simpl. nra.
  - unfold Rev250627.rounded_key. simpl. intro H. inversion H as [Hx].
    unfold Rev250627.round5 in Hx.
    rewrite (round_half_even_below 0 ((0.000005 - d) * 100000)) in Hx
      by (simpl; lra).
    rewrite (round_half_even_above 0 ((0.000005 + d) * 100000)) in Hx
      by (simpl; lra).
    simpl in Hx. lra.
  - unfold register, find_key. simpl.
    assert (Hc : is_close (mkVector (0.000005 + d) 0 0)
                   (mkVector (0.000005 - d) 0 0) tolerance = true).
    { apply is_close_iff. apply Length_lt; unfold tolerance; [lra |].
      vec_simpl. nra. }
    unfold dict_set. simpl. rewrite Hc. reflexivity.
Qed.

Lemma rounded_key_and_distance_witness :
  (forall p q,
     Rev250627.rounded_key p = Rev250627.rounded_key q ->
     Length (sub p q) < 0.00002)
  /\ exists p q,
       Length (sub p q) < 1
       /\ Rev250627.rounded_key p <> Rev250627.rounded_key q
       /\ find_key (register 0 [] (p, 1%nat)) q = Some (key_of p).
Proof.
  apply (rounded_key_and_distance 1). lra.
Defined.
